(** * Passenger: MessageReadersWriters.h, MultiLibeio.cpp and
      passenger_native_support.c

    A shallow embedding of the incremental message readers and writers of
    [ext/common/MessageReadersWriters.h] (Uint16Message, Uint32Message,
    ArrayMessage, ScalarMessage), of the libeio bridge of
    [ext/common/MultiLibeio.cpp] and of the string splitting, vectored
    writing and stack sizing of [ext/ruby/passenger_native_support.c],
    with the properties the specification states about them and further
    properties of the code. *)

From Stdlib Require Import Strings.Byte.
From stdpp Require Import base numbers list option strings gmap.
From Equations Require Import Equations.

Open Scope N_scope.

(** ** Bytes and sizes

    A [char] is a [byte]; a [size_t], a [uintN_t] and an [unsigned int] are
    numbers in [N], with the wrap-around of the fixed-width types written
    out where the source computes with them. *)

Abbreviation NUL := x00 (only parsing).

#[global] Instance byte_eq_dec : EqDecision byte := Byte.byte_eq_dec.

(** [size l] is the [size_t] length of a byte array or of a vector. *)
Definition size {A} (l : list A) : N := N.of_nat (length l).

(** The first [n] elements, and what follows them ([p + n] on a pointer). *)
Definition ntake {A} (n : N) (l : list A) : list A := take (N.to_nat n) l.
Definition ndrop {A} (n : N) (l : list A) : list A := drop (N.to_nat n) l.

(** [byte_of_N n] is the [char] with value [n mod 256]. *)
Definition byte_of_N (n : N) : byte :=
  match Byte.of_N (n mod 256) with
  | Some b => b
  | None => x00
  end.

(** ** Byte order

    [be_decode] reads a byte array as a big-endian number, [be_encode w]
    writes the low [w] bytes of a number most significant byte first. *)
Definition be_decode (l : list byte) : N :=
  fold_left (fun acc b => acc * 256 + Byte.to_N b) l 0.

Fixpoint be_encode (w : nat) (n : N) : list byte :=
  match w with
  | O => []
  | S w' => be_encode w' (n / 256) ++ [byte_of_N n]
  end.

(** The host's byte order decides how the storage of an integer variable
    reads as a number. *)
Class Host := { little_endian : bool }.

Section HostOrder.
Context `{Host}.

(** The number held by the [w] bytes of storage of an integer variable. *)
Definition load (raw : list byte) : N :=
  if little_endian then be_decode (rev raw) else be_decode raw.

(** The [w] bytes of storage after assigning [n] to a [w]-byte unsigned
    variable (the value is reduced modulo [256^w]). *)
Definition store (w : nat) (n : N) : list byte :=
  if little_endian then rev (be_encode w n) else be_encode w n.

(** [ntohs] and [ntohl]: the number whose host storage is read in network
    (big-endian) order. *)
Definition ntoh (w : nat) (n : N) : N := be_decode (store w n).

(** [htons] and [htonl]: the number whose host storage is the network
    representation of [n]. *)
Definition hton (w : nat) (n : N) : N := load (be_encode w n).

(** [memcpy((char * ) &val + off, src, |src|)] on the storage [raw]. *)
Definition memcpy_at (raw : list byte) (off : N) (src : list byte) : list byte :=
  ntake off raw ++ src ++ ndrop (off + size src) raw.
End HostOrder.

(** ** Uint16Message and Uint32Message

    The two classes are the same text up to the integer type; [w] is
    [sizeof(uint16_t)] or [sizeof(uint32_t)]. *)
Module UintMessage.
Section Width.
Context `{Host}.
Variable w : nat.

(** [val] is kept as the bytes of its storage: [feed] fills it with
    [memcpy] before it holds a number. [consumed] is a [uint8_t]; it never
    exceeds [w] (see [header_fed]), so that [sizeof - consumed], a
    subtraction of [size_t], does not wrap and is the subtraction of [N]. *)
Record t := mk { val : list byte; consumed : N }.

(** The constructor sets [consumed] only; [val] starts out with an
    indeterminate value [junk]. *)
Definition new (junk : N) : t := {| val := store w junk; consumed := 0 |}.

Definition reset (m : t) : t := {| val := val m; consumed := 0 |}.

Definition done (m : t) : bool := consumed m =? N.of_nat w.

Definition value (m : t) : N := load (val m).

Definition feed (m : t) (data : list byte) : t * N :=
  let locallyConsumed := N.min (size data) (N.of_nat w - consumed m) in
  let m1 := {| val := memcpy_at (val m) (consumed m) (ntake locallyConsumed data);
               consumed := (consumed m + locallyConsumed) mod 256 |} in
  let m2 := if (0 <? locallyConsumed) && done m1
            then {| val := store w (ntoh w (value m1)); consumed := consumed m1 |}
            else m1 in
  (m2, locallyConsumed).

(** [generate(buf, val)]: the [w] bytes written to [buf]. *)
Definition generate (v : N) : list byte := store w (hton w v).
End Width.
End UintMessage.

Module Uint16Message.
Section Host.
Context `{Host}.
Definition t := UintMessage.t.
Definition new : N -> t := UintMessage.new 2.
Definition reset : t -> t := UintMessage.reset.
Definition feed : t -> list byte -> t * N := UintMessage.feed 2.
Definition done : t -> bool := UintMessage.done 2.
Definition value : t -> N := UintMessage.value.
Definition generate : N -> list byte := UintMessage.generate 2.
End Host.
End Uint16Message.

Module Uint32Message.
Section Host.
Context `{Host}.
Definition t := UintMessage.t.
Definition new : N -> t := UintMessage.new 4.
Definition reset : t -> t := UintMessage.reset.
Definition feed : t -> list byte -> t * N := UintMessage.feed 4.
Definition done : t -> bool := UintMessage.done 4.
Definition value : t -> N := UintMessage.value.
Definition generate : N -> list byte := UintMessage.generate 4.
End Host.
End Uint32Message.

(** ** Pointers, views and memory

    A pointer is a position in a named byte array; a [StaticString] is a
    pointer with a length and owns nothing. *)
Inductive Region :=
  | Data (id : N)     (* a caller-owned array: what [feed]'s [data] points to,
                         or the memory of an item or payload *)
  | OwnedBuffer       (* the reader's own [buffer] *)
  | HeaderBuf         (* the caller-supplied [headerBuf] *)
  | NulLiteral        (* the string literal holding one NUL *)
  | EmptyLiteral.     (* the empty string literal *)

#[global] Instance Region_eq_dec : EqDecision Region.
Proof. solve_decision. Defined.

Record Ptr := mkPtr { region : Region; offset : N }.

Definition ptr_add (p : Ptr) (n : N) : Ptr :=
  {| region := region p; offset := offset p + n |}.

Record StaticString := mkStaticString { data : Ptr; len : N }.

(** The constructor [StaticString()]: an empty view. *)
Definition emptyStaticString : StaticString :=
  {| data := {| region := EmptyLiteral; offset := 0 |}; len := 0 |}.

(** A memory gives every array its bytes; the literals are constants (with
    the terminating NUL the compiler adds). *)
Definition Memory := Region -> list byte.

Definition region_bytes (mem : Memory) (r : Region) : list byte :=
  match r with
  | NulLiteral => [NUL; NUL]
  | EmptyLiteral => [NUL]
  | _ => mem r
  end.

Definition write_region (mem : Memory) (r : Region) (bytes : list byte) : Memory :=
  fun r' => if decide (r' = r) then bytes else mem r'.

(** The [n] bytes at [p]. *)
Definition read (mem : Memory) (p : Ptr) (n : N) : list byte :=
  ntake n (ndrop (offset p) (region_bytes mem (region p))).

(** The bytes a view denotes. *)
Definition bytes_of (mem : Memory) (s : StaticString) : list byte :=
  read mem (data s) (len s).

(** ** ArrayMessage and ScalarMessage: the shared reader

    [ArrayMessage::feed] and [ScalarMessage::feed] are the same loop over
    the same members. They differ in the header reader ([Uint16Message] or
    [Uint32Message], width [w]) and in what a complete body becomes
    ([bodyDone]: [parseBody] pushes views onto [result], the scalar reader
    assigns one view). The capacity hints ([toReserve], [reserve()],
    [buffer.reserve()]) change no contents and are left out. *)
Inductive State := READING_HEADER | READING_BODY | DONE | ERROR.

#[global] Instance State_eq_dec : EqDecision State.
Proof. solve_decision. Defined.

(** [enum Error { TOO_LARGE }]; the member [error] is a [uint8_t]. *)
Definition TOO_LARGE : N := 0.

Module FramedMessage.
Section Reader.
Context `{Host}.
Variable w : nat.
Variable R : Type.
Variable bodyDone : Ptr -> list byte -> R -> R.

Record t := mk {
  maxSize : N;
  headerReader : UintMessage.t;
  state : State;
  error : N;
  buffer : list byte;
  result : R
}.

Definition setMaxSize (size : N) (st : t) : t :=
  {| maxSize := size; headerReader := headerReader st; state := state st;
     error := error st; buffer := buffer st; result := result st |}.

Definition done (st : t) : bool :=
  bool_decide (state st = DONE) || bool_decide (state st = ERROR).

Definition hasError (st : t) : bool := bool_decide (state st = ERROR).

Definition errorCode (st : t) : N := error st.

Definition value (st : t) : R := result st.

(** One turn of the [while] loop of [feed]: [bytes] are the [size] bytes
    at [data], [consumed] is the local of that name. [None] is
    [abort()]. While the body is read the buffer is shorter than the
    header's value (see [tracks_body]), so that the [size_t] subtraction
    [headerReader.value() - buffer.size()] does not wrap. *)
Definition iteration (st : t) (data : Ptr) (bytes : list byte) (consumed : N)
  : option (t * N) :=
  let current := ptr_add data consumed in
  let rest := size bytes - consumed in
  let hv := UintMessage.value (headerReader st) in
  match state st with
  | READING_HEADER =>
      let '(hr, n) := UintMessage.feed w (headerReader st) (ndrop consumed bytes) in
      let st1 := {| maxSize := maxSize st; headerReader := hr; state := state st;
                    error := error st; buffer := buffer st; result := result st |} in
      if UintMessage.done w hr then
        if (0 <? maxSize st) && (maxSize st <? UintMessage.value hr) then
          Some ({| maxSize := maxSize st; headerReader := hr; state := ERROR;
                   error := TOO_LARGE; buffer := buffer st; result := result st |},
                consumed + n)
        else if UintMessage.value hr =? 0 then
          Some ({| maxSize := maxSize st; headerReader := hr; state := DONE;
                   error := error st; buffer := buffer st; result := result st |},
                consumed + n)
        else
          Some ({| maxSize := maxSize st; headerReader := hr; state := READING_BODY;
                   error := error st; buffer := buffer st; result := result st |},
                consumed + n)
      else Some (st1, consumed + n)
  | READING_BODY =>
      if bool_decide (buffer st = []) && (hv <=? rest) then
        Some ({| maxSize := maxSize st; headerReader := headerReader st; state := DONE;
                 error := error st; buffer := buffer st;
                 result := bodyDone current (ntake hv (ndrop consumed bytes)) (result st) |},
              consumed + hv)
      else
        let toConsume := N.min rest (hv - size (buffer st)) in
        let buffer' := buffer st ++ ntake toConsume (ndrop consumed bytes) in
        if size buffer' =? hv then
          Some ({| maxSize := maxSize st; headerReader := headerReader st; state := DONE;
                   error := error st; buffer := buffer';
                   result := bodyDone (mkPtr OwnedBuffer 0) buffer' (result st) |},
                consumed + toConsume)
        else
          Some ({| maxSize := maxSize st; headerReader := headerReader st;
                   state := state st; error := error st; buffer := buffer';
                   result := result st |},
                consumed + toConsume)
  | _ => None
  end.

(** [while (consumed < size && !done())]: [None] when the loop aborts or
    has not left after [fuel] turns. *)
Fixpoint feed_loop (fuel : nat) (st : t) (data : Ptr) (bytes : list byte)
    (consumed : N) : option (t * N) :=
  if (consumed <? size bytes) && negb (done st) then
    match fuel with
    | O => None
    | S fuel' =>
        match iteration st data bytes consumed with
        | Some (st', consumed') => feed_loop fuel' st' data bytes consumed'
        | None => None
        end
    end
  else Some (st, consumed).

(** [feed(data, size)]. Every turn consumes a byte or leaves a state,
    and a state is left at most twice. *)
Definition feed (st : t) (data : Ptr) (bytes : list byte) : option (t * N) :=
  feed_loop (2 + length bytes) st data bytes 0.
End Reader.
Arguments maxSize {R} _.
Arguments headerReader {R} _.
Arguments state {R} _.
Arguments error {R} _.
Arguments buffer {R} _.
Arguments result {R} _.
Arguments mk {R} _ _ _ _ _ _.
Arguments setMaxSize {R} _ _.
Arguments done {R} _.
Arguments hasError {R} _.
Arguments errorCode {R} _.
Arguments value {R} _.
End FramedMessage.

(** [ArgumentException] with its message. *)
Inductive exception := ArgumentException (what : string).

(** Arithmetic in [unsigned int] and [uint32_t]. *)
Definition uint32 (n : N) : N := n mod 2 ^ 32.

(** [memchr(s, c, |s|)]: the offset of the first [c] in [s]. *)
Fixpoint memchr (s : list byte) (c : byte) : option N :=
  match s with
  | [] => None
  | b :: s' => if decide (b = c) then Some 0 else N.succ <$> memchr s' c
  end.

(** Matching on a value while keeping what it is equal to. *)
Definition inspect {A} (a : A) : {b | a = b} := exist _ a eq_refl.

Module ArrayMessage.
(** The loop of [parseBody(data, size)], with [bytes] the [size] bytes at
    [data] and [start] kept as its distance from [data], so that
    [rest = size - start]. *)
Equations parseBody_loop (data : Ptr) (bytes : list byte) (start : N)
    (result : list StaticString) : list StaticString
  by wf (N.to_nat (size bytes - start)) lt :=
parseBody_loop data bytes start result
    with inspect (memchr (ndrop start bytes) NUL) => {
  | exist _ (Some terminator) Hfound =>
      parseBody_loop data bytes (start + terminator + 1)
        (result ++ [mkStaticString (ptr_add data start) terminator])
  | exist _ None _ => result }.
Next Obligation.
  assert (Hlt : forall s n, memchr s NUL = Some n -> (N.to_nat n < length s)%nat).
  { induction s as [|b s IH]; intros n; simpl; [done|].
    case_decide; [intros [= <-]; lia|].
    destruct (memchr s NUL) as [k|]; simpl; [|done].
    intros [= <-]. specialize (IH k eq_refl). lia. }
  apply Hlt in Hfound. unfold size, ndrop in *.
  rewrite length_drop in Hfound. lia.
Qed.

Definition parseBody (data : Ptr) (bytes : list byte)
    (result : list StaticString) : list StaticString :=
  parseBody_loop data bytes 0 result.

Section Host.
Context `{Host}.

Definition t := FramedMessage.t (list StaticString).

(** The constructor; [val] of the header reader and [error] are not
    initialised. *)
Definition new (junk_val junk_error : N) : t :=
  {| FramedMessage.maxSize := 0;
     FramedMessage.headerReader := Uint16Message.new junk_val;
     FramedMessage.state := READING_HEADER;
     FramedMessage.error := junk_error;
     FramedMessage.buffer := [];
     FramedMessage.result := [] |}.

(** [size] is a [uint16_t]. *)
Definition setMaxSize (size : N) (st : t) : t := FramedMessage.setMaxSize size st.

Definition reset (st : t) : t :=
  {| FramedMessage.maxSize := FramedMessage.maxSize st;
     FramedMessage.headerReader := Uint16Message.reset (FramedMessage.headerReader st);
     FramedMessage.state := READING_HEADER;
     FramedMessage.error := FramedMessage.error st;
     FramedMessage.buffer := [];
     FramedMessage.result := [] |}.

Definition feed (st : t) (data : Ptr) (bytes : list byte) : option (t * N) :=
  FramedMessage.feed 2 (list StaticString) parseBody st data bytes.

Definition done (st : t) : bool := FramedMessage.done st.
Definition hasError (st : t) : bool := FramedMessage.hasError st.
Definition errorCode (st : t) : N := FramedMessage.errorCode st.
Definition value (st : t) : list StaticString := FramedMessage.value st.

Definition outputSize (argsCount : N) : N := uint32 (argsCount * 2 + 1).

(** The second loop of [generate]: [out[1 + 2 * i] = args[i]] and
    [out[1 + 2 * i + 1] = StaticString("\0", 1)], from index [i] on. *)
Fixpoint generate_out (args : list StaticString) (i : N)
    (out : list StaticString) : list StaticString :=
  match args with
  | [] => out
  | a :: args' =>
      let out1 := <[N.to_nat (uint32 (1 + 2 * i)) := a]> out in
      let out2 := <[N.to_nat (uint32 (1 + 2 * i + 1)) :=
                     mkStaticString (mkPtr NulLiteral 0) 1]> out1 in
      generate_out args' (uint32 (i + 1)) out2
  end.

(** [generate(args, argsCount, headerBuf, out, outCount)] with
    [argsCount = |args|] and [outCount = |out|]: the exception thrown,
    or the bytes written to [headerBuf] and the array [out]. *)
Definition generate (args : list StaticString) (out : list StaticString)
  : exception + (list byte * list StaticString) :=
  if size out <? outputSize (size args) then
    inl (ArgumentException "outCount too small.")
  else
    let size_ := fold_left (fun sz a => uint32 (sz + (len a + 1))) args 0 in
    if 0xFFFF <? size_ then
      inl (ArgumentException "Data size exceeds maximum size for array messages.")
    else
      let headerBuf := Uint16Message.generate size_ in
      let out0 := <[0%nat := mkStaticString (mkPtr HeaderBuf 0) 2]> out in
      inr (headerBuf, generate_out args 0 out0).
End Host.
End ArrayMessage.

Module ScalarMessage.
Section Host.
Context `{Host}.

Definition t := FramedMessage.t StaticString.

Definition new (maxSize junk_val junk_error : N) : t :=
  {| FramedMessage.maxSize := maxSize;
     FramedMessage.headerReader := Uint32Message.new junk_val;
     FramedMessage.state := READING_HEADER;
     FramedMessage.error := junk_error;
     FramedMessage.buffer := [];
     FramedMessage.result := emptyStaticString |}.

(** [maxSize] is a [uint32_t]. *)
Definition setMaxSize (maxSize : N) (st : t) : t := FramedMessage.setMaxSize maxSize st.

(** [reset(zeroBuffer)]: [zeroBuffer] only decides whether the memory of
    the buffer is filled with zeroes before [clear()] empties it (the bytes
    of memory the buffer no longer holds are not part of the state);
    [result] is not touched. *)
Definition reset (zeroBuffer : bool) (st : t) : t :=
  {| FramedMessage.maxSize := FramedMessage.maxSize st;
     FramedMessage.headerReader := Uint32Message.reset (FramedMessage.headerReader st);
     FramedMessage.state := READING_HEADER;
     FramedMessage.error := FramedMessage.error st;
     FramedMessage.buffer := [];
     FramedMessage.result := FramedMessage.result st |}.

(** [result = StaticString(current, headerReader.value())] and
    [result = StaticString(buffer)]. *)
Definition setResult (p : Ptr) (bytes : list byte) (_ : StaticString) : StaticString :=
  mkStaticString p (size bytes).

Definition feed (st : t) (data : Ptr) (bytes : list byte) : option (t * N) :=
  FramedMessage.feed 4 StaticString setResult st data bytes.

Definition done (st : t) : bool := FramedMessage.done st.
Definition hasError (st : t) : bool := FramedMessage.hasError st.
Definition errorCode (st : t) : N := FramedMessage.errorCode st.
Definition value (st : t) : StaticString := FramedMessage.value st.

(** [generate(data, headerBuf, output)]: the exception thrown, or the
    bytes written to [headerBuf] and the two views of [output]. *)
Definition generate (data : StaticString)
  : exception + (list byte * (StaticString * StaticString)) :=
  if 0xFFFFFFFF <? len data then
    inl (ArgumentException "Data size exceeds maximum size for scalar messages.")
  else
    inr (Uint32Message.generate (len data),
         (mkStaticString (mkPtr HeaderBuf 0) 4, data)).

(** The loop of [generate(data, count, headerBuf, output)] from index
    [i] on; an exception leaves the function at once. *)
Fixpoint generate_loop (data : list StaticString) (i : N) (totalSize : N)
    (output : list StaticString) : exception + (N * list StaticString) :=
  match data with
  | [] => inr (totalSize, output)
  | d :: data' =>
      if 0xFFFFFFFF <? len d then
        inl (ArgumentException "Data size exceeds maximum size for scalar messages.")
      else
        generate_loop data' (uint32 (i + 1)) (uint32 (totalSize + len d))
          (<[N.to_nat (uint32 (i + 1)) := d]> output)
  end.

(** [generate(data, count, headerBuf, output)] with [count = |data|]. *)
Definition generate_multi (data : list StaticString) (output : list StaticString)
  : exception + (list byte * list StaticString) :=
  match generate_loop data 0 0 output with
  | inl e => inl e
  | inr (totalSize, output') =>
      inr (Uint32Message.generate totalSize,
           <[0%nat := mkStaticString (mkPtr HeaderBuf 0) 4]> output')
  end.
End Host.
End ScalarMessage.

(** ** Feeding a message in pieces

    [feed_chunks feed st k chunks] calls [feed] once per chunk, in order,
    the [i]-th chunk being the caller's array [Data (k + i)], and adds up
    the return values. *)
Fixpoint feed_chunks {T} (feed : T -> Ptr -> list byte -> option (T * N))
    (st : T) (k : N) (chunks : list (list byte)) : option (T * N) :=
  match chunks with
  | [] => Some (st, 0)
  | c :: chunks' =>
      match feed st (mkPtr (Data k) 0) c with
      | Some (st1, n1) =>
          match feed_chunks feed st1 (k + 1) chunks' with
          | Some (st2, n2) => Some (st2, n1 + n2)
          | None => None
          end
      | None => None
      end
  end.

(** The caller's memory in which [Data i] holds the [i]-th chunk. *)
Definition chunk_memory (chunks : list (list byte)) : Memory :=
  fun r => match r with
           | Data i => default [] (chunks !! N.to_nat i)
           | _ => []
           end.

(** The memory a reader's views are read in: the caller's arrays and the
    reader's own buffer. *)
Definition reader_memory {R} (env : Memory) (st : FramedMessage.t R) : Memory :=
  write_region env OwnedBuffer (FramedMessage.buffer st).

(** ** What the wire format denotes

    The fields of an array body: the byte runs that end in a NUL. [acc] is
    the run read so far. *)
Fixpoint split_fields (acc : list byte) (body : list byte) : list (list byte) :=
  match body with
  | [] => []
  | b :: body' =>
      if decide (b = NUL) then acc :: split_fields [] body'
      else split_fields (acc ++ [b]) body'
  end.

(** The body of an array message with the given fields. *)
Definition array_body (fields : list (list byte)) : list byte :=
  concat (map (fun f => f ++ [NUL]) fields).

Module Tracking.
Section Reader.
Context `{Host}.
Variable w : nat.

(** The header reader has been fed exactly [hb]. *)
Definition header_fed (hb : list byte) (m : UintMessage.t) : Prop :=
  length (UintMessage.val m) = w /\
  UintMessage.consumed m = size hb /\
  (size hb <= N.of_nat w) /\
  (if size hb <? N.of_nat w
   then ntake (size hb) (UintMessage.val m) = hb
   else UintMessage.value m = be_decode hb).

Variables (R C : Type).
Variable contents : Memory -> R -> C.
Variable denote : list byte -> C.
(** The configured ceiling, the initial [error] and the initial
    [result]. *)
Variables (m e0 : N) (r0 : R).

Definition header_of (fed : list byte) : N := be_decode (ntake (N.of_nat w) fed).

Definition too_large (v : N) : bool := (0 <? m) && (m <? v).

(** [tracks env fed st total]: [st] is the reader after the bytes [fed]
    were offered to it, of which it consumed [total]. *)
Inductive tracks (env : Memory) (fed : list byte) (st : FramedMessage.t R)
    (total : N) : Prop :=
  | tracks_header :
      size fed < N.of_nat w ->
      FramedMessage.state st = READING_HEADER ->
      header_fed fed (FramedMessage.headerReader st) ->
      FramedMessage.maxSize st = m ->
      FramedMessage.error st = e0 ->
      FramedMessage.buffer st = [] ->
      FramedMessage.result st = r0 ->
      total = size fed ->
      tracks env fed st total
  | tracks_error :
      N.of_nat w <= size fed ->
      too_large (header_of fed) = true ->
      FramedMessage.state st = ERROR ->
      FramedMessage.maxSize st = m ->
      FramedMessage.error st = TOO_LARGE ->
      FramedMessage.buffer st = [] ->
      FramedMessage.result st = r0 ->
      total = N.of_nat w ->
      tracks env fed st total
  | tracks_empty :
      N.of_nat w <= size fed ->
      too_large (header_of fed) = false ->
      header_of fed = 0 ->
      FramedMessage.state st = DONE ->
      FramedMessage.maxSize st = m ->
      FramedMessage.error st = e0 ->
      FramedMessage.buffer st = [] ->
      FramedMessage.result st = r0 ->
      total = N.of_nat w ->
      tracks env fed st total
  | tracks_body :
      N.of_nat w <= size fed ->
      too_large (header_of fed) = false ->
      header_of fed <> 0 ->
      size fed - N.of_nat w < header_of fed ->
      FramedMessage.state st = READING_BODY ->
      UintMessage.value (FramedMessage.headerReader st) = header_of fed ->
      FramedMessage.maxSize st = m ->
      FramedMessage.error st = e0 ->
      FramedMessage.buffer st = ndrop (N.of_nat w) fed ->
      FramedMessage.result st = r0 ->
      total = size fed ->
      tracks env fed st total
  | tracks_done :
      N.of_nat w <= size fed ->
      too_large (header_of fed) = false ->
      header_of fed <> 0 ->
      header_of fed <= size fed - N.of_nat w ->
      FramedMessage.state st = DONE ->
      FramedMessage.maxSize st = m ->
      FramedMessage.error st = e0 ->
      contents (reader_memory env st) (FramedMessage.result st)
        = denote (ntake (header_of fed) (ndrop (N.of_nat w) fed)) ->
      total = N.of_nat w + header_of fed ->
      tracks env fed st total.
End Reader.
End Tracking.

(** A pointer into memory that is the caller's, not the reader's. *)
Definition caller_owned (p : Ptr) : Prop := region p <> OwnedBuffer.

(** The two readers against the wire format: an array message denotes the
    fields of its body, a scalar message its body. *)
Definition array_tracks `{Host} (m e0 : N) :=
  Tracking.tracks 2 (list StaticString) (list (list byte))
    (fun mem views => map (bytes_of mem) views) (split_fields []) m e0 [].

Definition scalar_tracks `{Host} (m e0 : N) :=
  Tracking.tracks 4 StaticString (list byte) bytes_of (fun body => body)
    m e0 emptyStaticString.

(** The views of an array message after its header: every item followed by
    the one-byte view of the NUL literal. *)
Definition item_views (args : list StaticString) : list StaticString :=
  flat_map (fun a => [a; mkStaticString (mkPtr NulLiteral 0) 1]) args.

(** The body length of an array message with the given items: every item
    and its NUL. *)
Definition body_length (args : list StaticString) : N :=
  foldr (fun a s => len a + 1 + s) 0 args.

(** A view is valid in a memory that holds all the bytes it spans. *)
Definition valid_view (mem : Memory) (s : StaticString) : Prop :=
  size (bytes_of mem s) = len s.

(** ** Writing a message out and reading it back

    The views [generate] produced are written out in order (as [writev]
    does) from the memory [generate] left, and the bytes are fed in one
    piece to a fresh reader. *)
Definition array_round_trip `{Host} (mem : Memory)
    (args out : list StaticString) (junk_val junk_error : N) : Prop :=
  exists headerBuf out',
    ArrayMessage.generate args out = inr (headerBuf, out') /\
    let mem' := write_region mem HeaderBuf headerBuf in
    let wire := concat (map (bytes_of mem')
                          (ntake (ArrayMessage.outputSize (size args)) out')) in
    exists st,
      ArrayMessage.feed (ArrayMessage.new junk_val junk_error)
        (mkPtr (Data 0) 0) wire = Some (st, size wire) /\
      ArrayMessage.done st = true /\
      ArrayMessage.hasError st = false /\
      map (bytes_of (reader_memory (chunk_memory [wire]) st)) (ArrayMessage.value st)
      = map (bytes_of mem) args.

Definition scalar_round_trip `{Host} (mem : Memory) (payload : StaticString)
    (junk_val junk_error : N) : Prop :=
  exists headerBuf header body,
    ScalarMessage.generate payload = inr (headerBuf, (header, body)) /\
    let mem' := write_region mem HeaderBuf headerBuf in
    let wire := bytes_of mem' header ++ bytes_of mem' body in
    exists st,
      ScalarMessage.feed (ScalarMessage.new 0 junk_val junk_error)
        (mkPtr (Data 0) 0) wire = Some (st, size wire) /\
      ScalarMessage.done st = true /\
      ScalarMessage.hasError st = false /\
      bytes_of (reader_memory (chunk_memory [wire]) st) (ScalarMessage.value st)
      = bytes_of mem payload.

(** A view that does not lie in the header scratch buffer. *)
Definition outside_headerBuf (s : StaticString) : Prop :=
  region (data s) <> HeaderBuf.

(** The two byte orders a host can have. *)
Definition little_endian_host : Host := {| little_endian := true |}.
Definition big_endian_host : Host := {| little_endian := false |}.

(** The input on which the round trip of an array message fails: one item,
    three bytes, the middle one a NUL. *)
Definition nul_item_memory : Memory :=
  fun r => match r with
           | Data 1 => [x61; NUL; x62]
           | _ => []
           end.

Definition nul_item : StaticString := mkStaticString (mkPtr (Data 1) 0) 3.

(** A sample memory: the item "ab" and the payload "hello". *)
Definition sample_memory : Memory :=
  fun r => match r with
           | Data 1 => [x61; x62]
           | Data 2 => [x68; x65; x6c; x6c; x6f]
           | _ => []
           end.

Definition sample_item : StaticString := mkStaticString (mkPtr (Data 1) 0) 2.
Definition sample_payload : StaticString := mkStaticString (mkPtr (Data 2) 0) 5.

(** ** The body decision of [feed]

    What one [feed] call does to a reader that is reading the body, in the
    words of the two branches of the source: the view into the caller's
    chunk, or the owned buffer. *)
Definition body_decision `{Host} {R}
    (feed : FramedMessage.t R -> Ptr -> list byte -> option (FramedMessage.t R * N))
    (bodyDone : Ptr -> list byte -> R -> R)
    (st : FramedMessage.t R) (p : Ptr) (bytes : list byte) : Prop :=
  let target := UintMessage.value (FramedMessage.headerReader st) in
  (FramedMessage.buffer st = [] /\ target <= size bytes ->
     exists st',
       feed st p bytes = Some (st', target) /\
       FramedMessage.state st' = DONE /\
       FramedMessage.buffer st' = [] /\
       FramedMessage.result st'
       = bodyDone p (ntake target bytes) (FramedMessage.result st)) /\
  (~ (FramedMessage.buffer st = [] /\ target <= size bytes) ->
     let toConsume := N.min (size bytes) (target - size (FramedMessage.buffer st)) in
     exists st',
       feed st p bytes = Some (st', toConsume) /\
       FramedMessage.buffer st' = FramedMessage.buffer st ++ ntake toConsume bytes /\
       (FramedMessage.state st' = DONE <-> size (FramedMessage.buffer st') = target) /\
       (FramedMessage.state st' = DONE ->
          FramedMessage.result st'
          = bodyDone (mkPtr OwnedBuffer 0) (FramedMessage.buffer st')
              (FramedMessage.result st)) /\
       (FramedMessage.state st' <> DONE ->
          FramedMessage.state st' = READING_BODY /\
          FramedMessage.result st' = FramedMessage.result st)).

(** The same decision when the header is completed within the [feed]
    call: [missing] bytes of the header are still to come and the chunk
    holds them; [st_h] is the reader when it has taken them; the decision
    is made on [rest], the bytes of the chunk after them. *)
Definition body_decision_after_header `{Host} (w : nat) {R}
    (feed : FramedMessage.t R -> Ptr -> list byte -> option (FramedMessage.t R * N))
    (bodyDone : Ptr -> list byte -> R -> R)
    (st : FramedMessage.t R) (p : Ptr) (bytes : list byte) : Prop :=
  let missing := N.of_nat w - UintMessage.consumed (FramedMessage.headerReader st) in
  missing <= size bytes ->
  exists st_h,
    feed st p (ntake missing bytes) = Some (st_h, missing) /\
    (FramedMessage.state st_h = READING_BODY ->
     let target := UintMessage.value (FramedMessage.headerReader st_h) in
     let rest := ndrop missing bytes in
     FramedMessage.buffer st_h = [] /\
     0 < target /\
     (target <= size rest ->
        exists st',
          feed st p bytes = Some (st', missing + target) /\
          FramedMessage.state st' = DONE /\
          FramedMessage.buffer st' = [] /\
          FramedMessage.result st'
          = bodyDone (ptr_add p missing) (ntake target rest) (FramedMessage.result st)) /\
     (size rest < target ->
        exists st',
          feed st p bytes = Some (st', size bytes) /\
          FramedMessage.state st' = READING_BODY /\
          FramedMessage.headerReader st' = FramedMessage.headerReader st_h /\
          FramedMessage.buffer st' = rest /\
          FramedMessage.result st' = FramedMessage.result st)).

(** A view that lies inside the [n] bytes at [p]. *)
Definition view_within (p : Ptr) (n : N) (s : StaticString) : Prop :=
  region (data s) = region p /\
  offset p <= offset (data s) /\
  offset (data s) + len s <= offset p + n.

(** Readers on a little-endian host that have read the header and none of
    the body: an array reader expecting 3 bytes, a scalar reader expecting
    5. *)
Definition array_reader_at_body : FramedMessage.t (list StaticString) :=
  {| FramedMessage.maxSize := 0;
     FramedMessage.headerReader := {| UintMessage.val := [x03; x00];
                                      UintMessage.consumed := 2 |};
     FramedMessage.state := READING_BODY;
     FramedMessage.error := 0;
     FramedMessage.buffer := [];
     FramedMessage.result := [] |}.

Definition scalar_reader_at_body : FramedMessage.t StaticString :=
  {| FramedMessage.maxSize := 0;
     FramedMessage.headerReader := {| UintMessage.val := [x05; x00; x00; x00];
                                      UintMessage.consumed := 4 |};
     FramedMessage.state := READING_BODY;
     FramedMessage.error := 0;
     FramedMessage.buffer := [];
     FramedMessage.result := emptyStaticString |}.

(** ** How much of the offered bytes belongs to the message

    [message_end w m fed]: where the message that starts [fed] ends, as far
    as [fed] tells. Before the header is complete that is the header's
    width [w]; a header above the ceiling [m] ends the parse at once;
    otherwise the message ends after as many body bytes as the header
    says. *)
Definition message_end (w : nat) (m : N) (fed : list byte) : N :=
  if size fed <? N.of_nat w then N.of_nat w
  else if Tracking.too_large m (Tracking.header_of w fed) then N.of_nat w
  else N.of_nat w + Tracking.header_of w fed.

(** After any history of chunks, one more [feed] returns, consumes no more
    than the chunk holds and no more than the message still needs, and
    consumes the whole chunk unless it finishes the message. *)
Definition consumes_only_needed {R} (w : nat)
    (feed : FramedMessage.t R -> Ptr -> list byte -> option (FramedMessage.t R * N))
    (fresh : FramedMessage.t R) (chunks : list (list byte)) (c : list byte) : Prop :=
  exists st total st' n,
    feed_chunks feed fresh 0 chunks = Some (st, total) /\
    feed st (mkPtr (Data (size chunks)) 0) c = Some (st', n) /\
    n <= size c /\
    total + n <= message_end w (FramedMessage.maxSize fresh) (concat chunks ++ c) /\
    (FramedMessage.done st' = false -> n = size c).

(** The ceiling [m] at work when the chunk [c] completes a header of which
    the chunks [pre] held the first bytes. *)
Definition enforces_ceiling {R} (w : nat)
    (feed : FramedMessage.t R -> Ptr -> list byte -> option (FramedMessage.t R * N))
    (fresh : FramedMessage.t R) (m : N) (pre : list (list byte)) (c : list byte) : Prop :=
  let fed := concat pre in
  let header := Tracking.header_of w (fed ++ c) in
  size fed < N.of_nat w -> N.of_nat w <= size (fed ++ c) ->
  exists st st' n,
    feed_chunks feed fresh 0 pre = Some (st, size fed) /\
    FramedMessage.state st = READING_HEADER /\
    feed st (mkPtr (Data (size pre)) 0) c = Some (st', n) /\
    (header = m -> FramedMessage.hasError st' = false) /\
    (header = m + 1 ->
       FramedMessage.hasError st' = true /\
       FramedMessage.errorCode st' = TOO_LARGE /\
       n = N.of_nat w - size fed /\
       FramedMessage.buffer st' = [] /\
       FramedMessage.result st' = FramedMessage.result fresh) /\
    (FramedMessage.hasError st' = true ->
       m < header /\ n = N.of_nat w - size fed /\ FramedMessage.buffer st' = []).

(** The summed length of the fragments of a scalar message. *)
Definition total_length (data : list StaticString) : N :=
  foldr (fun d s => len d + s) 0 data.

(** Two fragments of 2^31 and 2^31 + 3 bytes. *)
Definition large_fragments : list StaticString :=
  [mkStaticString (mkPtr (Data 1) 0) (2 ^ 31);
   mkStaticString (mkPtr (Data 2) 0) (2 ^ 31 + 3)].

(** ** MultiLibeio

    The bridge between libeio's worker threads and a libev reactor. The
    functions of [MultiLibeio.cpp] act on the file's globals, on the heap
    of request contexts and on the engine; what they do to a thread other
    than their own (run user code, schedule it on a reactor, free a
    context) is kept as a list of effects, run on behalf of the thread
    that executes the function. *)
Module MultiLibeio.

(** A [MultiLibeio::Callback] and a [MultiLibeio::ExecuteCallback], by
    name; [lockedPread] and [lockedPwrite] are the two execute callbacks
    the file itself makes with [boost::bind]. *)
Definition Callback := nat.

Inductive ExecuteCallback :=
  | UserExecute (name : nat)
  | lockedPread (fd : Z) (length : N) (offset : Z)
  | lockedPwrite (fd : Z) (length : N) (offset : Z).

(** [struct Data], and [struct CustomData] when [execute] is there. *)
Record Data := mkData {
  libev : nat;
  callback : Callback;
  execute : option ExecuteCallback
}.

Inductive eio_type := EIO_OPEN | EIO_READ | EIO_WRITE | EIO_CUSTOM.

(** An [eio_req] as this file uses it: every request is submitted with
    [dispatch] as its [finish] hook, and a custom request with
    [executeWrapper] as its [feed]. [handle] is the request's address,
    [data] the address of its context. *)
Record eio_req := mk_eio_req {
  handle : nat;
  type : eio_type;
  pri : Z;
  data : nat
}.

Inductive Thread :=
  | ReactorThread (libev : nat)
  | DispatcherThread
  | WorkerThread (n : nat).

(** User code, called with a request. *)
Inductive UserCode :=
  | Completion (callback : Callback) (req : nat)
  | Execution (execute : ExecuteCallback) (req : nat).

Inductive effect :=
  | Invoke (code : UserCode)                 (* call it, on this thread *)
  | RunAsync (libev : nat) (code : UserCode) (* [libev->runAsync(code)] *)
  | Delete (address : nat).                  (* [delete] a context *)

(** Where [threadMain] is: at the head of [while (!quit)] with the lock
    held (which is also where it waits on the condition), inside
    [eio_poll()] with the lock released, or returned. *)
Inductive ThreadPc := AtLoop | Polling | Returned.

(** The file's globals. [thr] is [NULL] or the dispatcher thread, kept
    with the place it has reached. *)
Record Globals := mkGlobals {
  shouldPoll : bool;
  thr : option ThreadPc;
  quit : bool
}.

Definition globals0 : Globals :=
  {| shouldPoll := false; thr := None; quit := false |}.

(** Modelled from the spec: the engine, libeio, whose code is outside
    [MultiLibeio.cpp]. It holds the requests it accepted and has not run
    yet, and those it has run and not yet handed to their completion
    hooks; a submission it cannot accept returns the failure indicator and
    leaves it as it was. *)
Record Engine := mkEngine {
  pending : list eio_req;
  ready : list eio_req;
  next_handle : nat
}.

Definition engine0 : Engine := {| pending := []; ready := []; next_handle := 1 |}.

(** Modelled from the spec: [eio_open], [eio_read], [eio_write] and
    [eio_custom]. [accepted] says whether the engine can take the
    request. *)
Definition eio_submit (accepted : bool) (type : eio_type) (pri : Z) (data : nat)
    (e : Engine) : option nat * Engine :=
  if accepted then
    (Some (next_handle e),
     {| pending := pending e ++ [mk_eio_req (next_handle e) type pri data];
        ready := ready e;
        next_handle := S (next_handle e) |})
  else (None, e).

(** An event of a run: an accepted submission, or user code run by a
    thread. *)
Inductive Event :=
  | Submitted (libev : nat) (req : nat) (callback : Callback)
  | Ran (thread : Thread) (code : UserCode).

(** The process: the globals, the heap of contexts, the engine, the
    functions scheduled on each reactor by [runAsync] and not yet run, and
    what has happened so far. *)
Record System := mkSystem {
  globals : Globals;
  heap : gmap nat Data;
  engine : Engine;
  asyncs : list (nat * UserCode);
  trace : list Event
}.

Definition system0 : System :=
  {| globals := globals0; heap := ∅; engine := engine0; asyncs := []; trace := [] |}.

(** *** The functions of the file *)

(** [wantPoll()]: under the lock, [shouldPoll = true] and the condition is
    signalled. *)
Definition wantPoll (g : Globals) : Globals :=
  {| shouldPoll := true; thr := thr g; quit := quit g |}.

(** [dispatch(req)]: the context is taken over, the callback is bound to
    the request and given to the reactor, and the context is freed when
    the [auto_ptr] goes. [None] when [req->data] points nowhere. *)
Definition dispatch (h : gmap nat Data) (req : eio_req) : option (list effect) :=
  match h !! data req with
  | Some d => Some [RunAsync (libev d) (Completion (callback d) (handle req));
                    Delete (data req)]
  | None => None
  end.

(** [executeWrapper(req)]: [None] when [req->data] is no [CustomData]. *)
Definition executeWrapper (h : gmap nat Data) (req : eio_req) : option (list effect) :=
  match h !! data req with
  | Some d =>
      match execute d with
      | Some e => Some [Invoke (Execution e (handle req))]
      | None => None
      end
  | None => None
  end.

(** One move of [threadMain] from where it is: [None] when it waits on the
    condition or has returned. Nothing here writes [shouldPoll]. *)
Definition threadMain (g : Globals) (pc : ThreadPc) : option ThreadPc :=
  match pc with
  | AtLoop =>
      if quit g then Some Returned
      else if shouldPoll g then Some Polling
      else None
  | Polling => Some AtLoop
  | Returned => None
  end.

(** [init()]: [eio_init(wantPoll, NULL)] and a new thread in
    [threadMain]. *)
Definition init (g : Globals) : Globals :=
  {| shouldPoll := shouldPoll g; thr := Some AtLoop; quit := quit g |}.

(** [shutdown()] up to [thr->join()]: under the lock, [quit = true] and
    the condition is signalled. *)
Definition shutdown_signal (g : Globals) : Globals :=
  {| shouldPoll := shouldPoll g; thr := thr g; quit := true |}.

(** [shutdown()] from the return of [thr->join()]: [delete thr],
    [thr = NULL], [quit = false]. [None] while the thread has not
    returned. *)
Definition shutdown_joined (g : Globals) : option Globals :=
  match thr g with
  | Some Returned => Some {| shouldPoll := shouldPoll g; thr := None; quit := false |}
  | _ => None
  end.

(** [new Data(...)]: an address that is not in use. *)
Definition new_address (h : gmap nat Data) : nat := fresh (dom h).

(** The body of [MAKE_REQUEST(code)] and of [custom]: the context is
    allocated, the request is submitted, and on failure the context is
    deleted and [NULL] returned. *)
Definition MAKE_REQUEST (d : Data) (type : eio_type) (pri : Z) (accepted : bool)
    (s : System) : option nat * System :=
  let address := new_address (heap s) in
  let heap1 := <[address := d]> (heap s) in
  let '(result, engine1) := eio_submit accepted type pri address (engine s) in
  match result with
  | None =>
      (None, {| globals := globals s; heap := delete address heap1;
                engine := engine1; asyncs := asyncs s; trace := trace s |})
  | Some r =>
      (Some r, {| globals := globals s; heap := heap1;
                  engine := engine1; asyncs := asyncs s; trace := trace s |})
  end.

Section Platform.
(** [PREAD_AND_PWRITE_ARE_NOT_THREADSAFE], set when the file is built. *)
Variable PREAD_AND_PWRITE_ARE_NOT_THREADSAFE : bool.

(** The member [libev] of the instance the call is made on is the first
    argument; [accepted] is the engine's answer. The path, flags, mode and
    buffer go to the engine untouched and are left out. *)
Definition custom (libev : nat) (execute : ExecuteCallback) (pri : Z)
    (callback : Callback) (accepted : bool) (s : System) : option nat * System :=
  MAKE_REQUEST (mkData libev callback (Some execute)) EIO_CUSTOM pri accepted s.

Definition open (libev : nat) (pri : Z) (callback : Callback) (accepted : bool)
    (s : System) : option nat * System :=
  MAKE_REQUEST (mkData libev callback None) EIO_OPEN pri accepted s.

Definition read (libev : nat) (fd : Z) (length : N) (offset : Z) (pri : Z)
    (callback : Callback) (accepted : bool) (s : System) : option nat * System :=
  if PREAD_AND_PWRITE_ARE_NOT_THREADSAFE then
    custom libev (lockedPread fd length offset) pri callback accepted s
  else MAKE_REQUEST (mkData libev callback None) EIO_READ pri accepted s.

Definition write (libev : nat) (fd : Z) (length : N) (offset : Z) (pri : Z)
    (callback : Callback) (accepted : bool) (s : System) : option nat * System :=
  if PREAD_AND_PWRITE_ARE_NOT_THREADSAFE then
    custom libev (lockedPwrite fd length offset) pri callback accepted s
  else MAKE_REQUEST (mkData libev callback None) EIO_WRITE pri accepted s.

(** A submission, with the arguments that matter here. *)
Inductive Operation :=
  | Open
  | Read (fd : Z) (length : N) (offset : Z)
  | Write (fd : Z) (length : N) (offset : Z)
  | Custom (execute : ExecuteCallback).

Definition submit (libev : nat) (op : Operation) (pri : Z) (callback : Callback)
    (accepted : bool) (s : System) : option nat * System :=
  match op with
  | Open => open libev pri callback accepted s
  | Read fd length offset => read libev fd length offset pri callback accepted s
  | Write fd length offset => write libev fd length offset pri callback accepted s
  | Custom execute => custom libev execute pri callback accepted s
  end.

(** *** Running the process *)

(** An effect, on behalf of the thread [t]. *)
Definition run_effect (t : Thread) (s : System) (e : effect) : System :=
  match e with
  | Invoke code =>
      {| globals := globals s; heap := heap s; engine := engine s;
         asyncs := asyncs s; trace := trace s ++ [Ran t code] |}
  | RunAsync l code =>
      {| globals := globals s; heap := heap s; engine := engine s;
         asyncs := asyncs s ++ [(l, code)]; trace := trace s |}
  | Delete a =>
      {| globals := globals s; heap := delete a (heap s); engine := engine s;
         asyncs := asyncs s; trace := trace s |}
  end.

Definition run_effects (t : Thread) (s : System) (es : list effect) : System :=
  foldl (run_effect t) s es.

(** Modelled from the spec: the poll/drain step of the engine,
    [eio_poll()], which runs the completion hook of every request that is
    ready, on the thread that polls. *)
Fixpoint eio_poll (t : Thread) (reqs : list eio_req) (s : System) : option System :=
  match reqs with
  | [] => Some s
  | req :: reqs' =>
      match dispatch (heap s) req with
      | Some es => eio_poll t reqs' (run_effects t s es)
      | None => None
      end
  end.

Definition set_globals (g : Globals) (s : System) : System :=
  {| globals := g; heap := heap s; engine := engine s;
     asyncs := asyncs s; trace := trace s |}.

Definition set_engine (e : Engine) (s : System) : System :=
  {| globals := globals s; heap := heap s; engine := e;
     asyncs := asyncs s; trace := trace s |}.

(** What can happen next. *)
Inductive Label :=
  | DoInit
  | DoShutdownSignal
  | DoShutdownJoined
  | DoSubmit (libev : nat) (op : Operation) (pri : Z) (callback : Callback)
      (accepted : bool)
  | DoWork (worker : nat) (index : nat)   (* a worker runs a pending request *)
  | DoThread                              (* the dispatcher thread moves *)
  | DoReactor (index : nat).              (* a reactor runs a scheduled function *)

(** Modelled from the spec: a worker of the engine takes a request, runs
    it (for a custom request, through [executeWrapper]), puts it with the
    ready ones and calls the wake hook, [wantPoll]. *)
Definition work (worker : nat) (index : nat) (s : System) : option System :=
  match pending (engine s) !! index with
  | None => None
  | Some req =>
      let ran :=
        match type req with
        | EIO_CUSTOM =>
            match executeWrapper (heap s) req with
            | Some es => Some (run_effects (WorkerThread worker) s es)
            | None => None
            end
        | _ => Some s
        end in
      match ran with
      | None => None
      | Some s1 =>
          Some (set_globals (wantPoll (globals s1))
                  (set_engine {| pending := delete index (pending (engine s1));
                                 ready := ready (engine s1) ++ [req];
                                 next_handle := next_handle (engine s1) |} s1))
      end
  end.

(** A move of the dispatcher thread; entering [eio_poll()] drains the
    ready requests. *)
Definition thread_move (s : System) : option System :=
  match thr (globals s) with
  | None => None
  | Some pc =>
      match threadMain (globals s) pc with
      | None => None
      | Some Polling =>
          let s1 := set_engine {| pending := pending (engine s); ready := [];
                                  next_handle := next_handle (engine s) |} s in
          match eio_poll DispatcherThread (ready (engine s)) s1 with
          | Some s2 =>
              Some (set_globals {| shouldPoll := shouldPoll (globals s2);
                                   thr := Some Polling;
                                   quit := quit (globals s2) |} s2)
          | None => None
          end
      | Some pc' =>
          Some (set_globals {| shouldPoll := shouldPoll (globals s);
                               thr := Some pc';
                               quit := quit (globals s) |} s)
      end
  end.

(** Modelled from the spec: the reactor's run-on-my-thread primitive,
    [SafeLibev::runAsync], whose functions the reactor runs on its own
    thread. *)
Definition reactor_run (index : nat) (s : System) : option System :=
  match asyncs s !! index with
  | None => None
  | Some (l, code) =>
      Some {| globals := globals s; heap := heap s; engine := engine s;
              asyncs := delete index (asyncs s);
              trace := trace s ++ [Ran (ReactorThread l) code] |}
  end.

Definition exec (label : Label) (s : System) : option System :=
  match label with
  | DoInit => Some (set_globals (init (globals s)) s)
  | DoShutdownSignal => Some (set_globals (shutdown_signal (globals s)) s)
  | DoShutdownJoined =>
      match shutdown_joined (globals s) with
      | Some g => Some (set_globals g s)
      | None => None
      end
  | DoSubmit l op pri cb accepted =>
      match submit l op pri cb accepted s with
      | (Some req, s') =>
          Some {| globals := globals s'; heap := heap s'; engine := engine s';
                  asyncs := asyncs s'; trace := trace s' ++ [Submitted l req cb] |}
      | (None, s') => Some s'
      end
  | DoWork worker index => work worker index s
  | DoThread => thread_move s
  | DoReactor index => reactor_run index s
  end.

(** A run: the labels in order. *)
Fixpoint run (labels : list Label) (s : System) : option System :=
  match labels with
  | [] => Some s
  | label :: labels' =>
      match exec label s with
      | Some s' => run labels' s'
      | None => None
      end
  end.

Definition reachable (s : System) : Prop :=
  exists labels, run labels system0 = Some s.
End Platform.

End MultiLibeio.

(** What every reachable state of the process satisfies: a completion
    callback has run only on the reactor thread of its accepted
    submission; a reactor is given only the callbacks of its own
    submissions; every request the engine holds has its context, of its
    own, and was submitted; and request handles are not reused, so that a
    request has one submission. *)
Definition MultiLibeio_invariant (s : MultiLibeio.System) : Prop :=
  (forall t cb req,
     MultiLibeio.Ran t (MultiLibeio.Completion cb req) ∈ MultiLibeio.trace s ->
     exists l, MultiLibeio.Submitted l req cb ∈ MultiLibeio.trace s /\
               t = MultiLibeio.ReactorThread l) /\
  (forall l code, (l, code) ∈ MultiLibeio.asyncs s ->
     exists cb req, code = MultiLibeio.Completion cb req /\
                    MultiLibeio.Submitted l req cb ∈ MultiLibeio.trace s) /\
  (forall req,
     req ∈ MultiLibeio.pending (MultiLibeio.engine s)
           ++ MultiLibeio.ready (MultiLibeio.engine s) ->
     exists d, MultiLibeio.heap s !! MultiLibeio.data req = Some d /\
               MultiLibeio.Submitted (MultiLibeio.libev d) (MultiLibeio.handle req)
                 (MultiLibeio.callback d) ∈ MultiLibeio.trace s) /\
  NoDup (MultiLibeio.data <$> (MultiLibeio.pending (MultiLibeio.engine s)
                               ++ MultiLibeio.ready (MultiLibeio.engine s))) /\
  (forall l req cb,
     MultiLibeio.Submitted l req cb ∈ MultiLibeio.trace s ->
     (req < MultiLibeio.next_handle (MultiLibeio.engine s))%nat) /\
  (forall l l' req cb cb',
     MultiLibeio.Submitted l req cb ∈ MultiLibeio.trace s ->
     MultiLibeio.Submitted l' req cb' ∈ MultiLibeio.trace s ->
     l' = l /\ cb' = cb).

(** One cycle of the dispatcher: [init()], a custom operation that the
    engine accepts, runs and reports, the callback on the reactor, and
    [shutdown()]. *)
Definition one_cycle : list MultiLibeio.Label :=
  [MultiLibeio.DoInit;
   MultiLibeio.DoSubmit 0%nat (MultiLibeio.Custom (MultiLibeio.UserExecute 0%nat))
     0%Z 5%nat true;
   MultiLibeio.DoWork 0%nat 0%nat;
   MultiLibeio.DoThread;
   MultiLibeio.DoThread;
   MultiLibeio.DoReactor 0%nat;
   MultiLibeio.DoShutdownSignal;
   MultiLibeio.DoThread;
   MultiLibeio.DoShutdownJoined].

(** The process after [one_cycle]. *)
Definition after_one_cycle : MultiLibeio.System :=
  {| MultiLibeio.globals :=
       {| MultiLibeio.shouldPoll := true; MultiLibeio.thr := None;
          MultiLibeio.quit := false |};
     MultiLibeio.heap := ∅;
     MultiLibeio.engine :=
       {| MultiLibeio.pending := []; MultiLibeio.ready := [];
          MultiLibeio.next_handle := 2 |};
     MultiLibeio.asyncs := [];
     MultiLibeio.trace :=
       [MultiLibeio.Submitted 0 1 5%nat;
        MultiLibeio.Ran (MultiLibeio.WorkerThread 0)
          (MultiLibeio.Execution (MultiLibeio.UserExecute 0) 1);
        MultiLibeio.Ran (MultiLibeio.ReactorThread 0)
          (MultiLibeio.Completion 5%nat 1)] |}.

(** ** An integer reader fed in pieces

    [feed_pieces feed m chunks] calls the [feed] of an integer reader with
    every chunk in turn and adds up the return values. *)
Fixpoint feed_pieces {T} (feed : T -> list byte -> T * N) (m : T)
    (chunks : list (list byte)) : T * N :=
  match chunks with
  | [] => (m, 0)
  | c :: chunks' =>
      let '(m1, n1) := feed m c in
      let '(m2, n2) := feed_pieces feed m1 chunks' in
      (m2, n1 + n2)
  end.

(** ** What a reader keeps true

    The storage of the header is [w] bytes, of which no more than [w] are
    filled; the owned buffer is empty until a header under the ceiling has
    been read, and is never longer than that header says. *)
Definition reader_invariant `{Host} (w : nat) {R} (st : FramedMessage.t R) : Prop :=
  let hv := UintMessage.value (FramedMessage.headerReader st) in
  length (UintMessage.val (FramedMessage.headerReader st)) = w /\
  UintMessage.consumed (FramedMessage.headerReader st) <= N.of_nat w /\
  match FramedMessage.state st with
  | READING_BODY =>
      Tracking.too_large (FramedMessage.maxSize st) hv = false /\
      size (FramedMessage.buffer st) <= hv
  | DONE =>
      FramedMessage.buffer st = [] \/
      (Tracking.too_large (FramedMessage.maxSize st) hv = false /\
       size (FramedMessage.buffer st) <= hv)
  | _ => FramedMessage.buffer st = []
  end.

(** ** Keeping account of requests and contexts *)

Section MultiLibeioAccounting.
Import MultiLibeio.

(** The requests whose completion callback has run, and the requests that
    were accepted, as the trace has them. *)
Definition completed (tr : list Event) : list nat :=
  omap (fun ev => match ev with
                  | Ran _ (Completion _ req) => Some req
                  | _ => None
                  end) tr.

Definition submitted (tr : list Event) : list nat :=
  omap (fun ev => match ev with
                  | Submitted _ req _ => Some req
                  | _ => None
                  end) tr.

(** The request user code is bound to. *)
Definition code_request (code : UserCode) : nat :=
  match code with
  | Completion _ req => req
  | Execution _ req => req
  end.

(** Where the accepted requests are: with the engine (not yet run, or run
    and not yet dispatched), scheduled on a reactor, or completed. *)
Definition whereabouts (s : System) : list nat :=
  (handle <$> pending (engine s)) ++ (handle <$> ready (engine s))
  ++ ((fun scheduled => code_request scheduled.2) <$> asyncs s)
  ++ completed (trace s).

(** What every reachable state satisfies besides [MultiLibeio_invariant]:
    every context on the heap is the context of a request the engine
    holds; a request is a custom one exactly when its context is a
    [CustomData]; where [pread] and [pwrite] are not thread-safe the
    engine holds no read and no write request; and every accepted
    request is in exactly one place. *)
Definition MultiLibeio_accounting (not_threadsafe : bool) (s : System) : Prop :=
  (forall a, is_Some (heap s !! a) ->
     a ∈ data <$> (pending (engine s) ++ ready (engine s))) /\
  (forall req d,
     req ∈ pending (engine s) ++ ready (engine s) ->
     heap s !! data req = Some d ->
     (type req = EIO_CUSTOM <-> is_Some (execute d))) /\
  (not_threadsafe = true ->
   forall req, req ∈ pending (engine s) ++ ready (engine s) ->
     type req = EIO_OPEN \/ type req = EIO_CUSTOM) /\
  whereabouts s ≡ₚ submitted (trace s) /\
  NoDup (submitted (trace s)).

(** [init()] and one accepted custom operation. *)
Definition one_submission : list Label :=
  [DoInit; DoSubmit 0%nat (Custom (UserExecute 0%nat)) 0%Z 5%nat true].

(** [init()], a custom operation that a worker has run, and the first half
    of [shutdown()]: the request is ready, and [quit] is set. *)
Definition ready_at_shutdown : list Label :=
  one_submission ++ [DoWork 0%nat 0%nat; DoShutdownSignal].
End MultiLibeioAccounting.

(** ** Waiting for the engine *)

Section MultiLibeioIdle.
Import MultiLibeio.


End MultiLibeioIdle.

(** ** passenger_native_support.c

    The functions of the Ruby extension that compute: splitting a string
    of NUL-terminated keys and values into a Hash, and the bookkeeping of
    [writev()] over groups of IO vectors. A Ruby String is the list of
    its bytes. *)

#[global] Instance byte_countable : Countable byte :=
  inj_countable Byte.to_N Byte.of_N Byte.of_to_N.

Module NativeSupport.

(** [rb_str_substr(str, beg, len)]. *)
Definition rb_str_substr (str : list byte) (beg len : N) : list byte :=
  ntake len (ndrop beg str).

(** A Ruby Hash from String to String, by its contents: [rb_hash_aset]
    gives a key its value, in place of the one it had. *)
Abbreviation Hash := (gmap (list byte) (list byte)).

Definition rb_hash_aset (hash : Hash) (key value : list byte) : Hash :=
  <[key := value]> hash.

(** The two loops of [split_by_null_into_hash]. [begin] and [current] are
    kept as their distance from [cdata]; [rest] are the bytes from
    [current] to [end], so that [current < end] is [rest <> []] and
    [*current] is the first of them. The inner loop is left by [break],
    into the next turn of the outer one, or with [current = end], which
    ends the outer loop too. *)
Fixpoint split_outer (data rest : list byte) (begin current : N) (result : Hash)
    {struct rest} : Hash :=
  match rest with
  | [] => result
  | c :: rest' =>
      if decide (c = NUL) then
        let key := rb_str_substr data begin (current - begin) in
        split_inner data rest' key (current + 1) (current + 1) result
      else split_outer data rest' begin (current + 1) result
  end
with split_inner (data rest : list byte) (key : list byte) (begin current : N)
    (result : Hash) {struct rest} : Hash :=
  match rest with
  | [] => result
  | c :: rest' =>
      if decide (c = NUL) then
        let value := rb_str_substr data begin (current - begin) in
        split_outer data rest' (current + 1) (current + 1)
          (rb_hash_aset result key value)
      else split_inner data rest' key begin (current + 1) result
  end.

Definition split_by_null_into_hash (data : list byte) : Hash :=
  split_outer data data 0 0 ∅.

(** [struct iovec] and [IOVectorGroup]. [io_vectors] points into an
    array: it is kept as the vectors from where it points on. [count] is
    an [unsigned int], [total_size] an [ssize_t]. *)
Record iovec := mk_iovec { iov_base : Ptr; iov_len : N }.

Record IOVectorGroup := mkIOVectorGroup {
  io_vectors : list iovec;
  count : N;
  total_size : Z
}.

(** [(size_t) n] for an [ssize_t], and arithmetic in [size_t], on a
    platform where both have 64 bits. *)
Definition size_t (n : Z) : N := Z.to_N (n mod 2 ^ 64).

(** The [for] loop of [update_group_written_info] from [i] on, [vecs]
    being [group->io_vectors + i]; [None] is [rb_raise]. (A group has
    [count] vectors, see [group_wf], so that [vecs] is not empty while
    [i < count]; and the part of a vector that is left is no longer than
    the vector, so that the new [iov_base] lies in it.) *)
Fixpoint update_loop (group : IOVectorGroup) (bytes_written : Z)
    (vecs : list iovec) (i : N) (counter : N) : option IOVectorGroup :=
  if i <? count group then
    match vecs with
    | [] => None
    | vec :: vecs' =>
        let counter := (counter + iov_len vec) mod 2 ^ 64 in
        if counter =? size_t bytes_written then
          Some {| io_vectors := ndrop (i + 1) (io_vectors group);
                  count := (count group + 2 ^ 32 - uint32 (i + 1)) mod 2 ^ 32;
                  total_size := total_size group - bytes_written |}
        else if size_t bytes_written <? counter then
          let left := (counter + 2 ^ 64 - size_t bytes_written) mod 2 ^ 64 in
          let current_vec :=
            {| iov_base := ptr_add (iov_base vec) (iov_len vec - left);
               iov_len := left |} in
          Some {| io_vectors := current_vec :: ndrop (i + 1) (io_vectors group);
                  count := (count group + 2 ^ 32 - i) mod 2 ^ 32;
                  total_size := total_size group - bytes_written |}
        else update_loop group bytes_written vecs' (uint32 (i + 1)) counter
    end
  else None.

Definition update_group_written_info (group : IOVectorGroup) (bytes_written : Z)
  : option IOVectorGroup :=
  update_loop group bytes_written (io_vectors group) 0 0.

(** *** [f_generic_writev]

    What a call of [writev()] gave, as the function sees it: [ret >= 0]
    bytes taken, or [ret == -1] with [rb_io_wait_writable] having waited
    or not. *)
Inductive writev_result :=
  | Wrote (n : N)
  | WaitWritable
  | Failure.

(** [rb_eArgError], the error of [rb_sys_fail] and [rb_eRuntimeError]. *)
Inductive raised := ArgError | SystemCallError | RuntimeError.

(** How the function ends: [INT2NUM(total_size)], [NUM2INT(0)], an
    exception, or not at all with the results given. *)
Inductive outcome :=
  | Returns (total_size : N)
  | ReturnsNUM2INT0
  | Raises (e : raised)
  | StillWriting.

(** The file descriptor: the bytes written to it, and the [iovcnt] of
    every call of [writev()]. *)
Record Fd := mkFd { written : list byte; iovcnts : list N }.

(** The bytes [writev(fd, iov, iovcnt)] writes when it returns [n]: the
    first [n] of the bytes the first [iovcnt] vectors span. *)
Definition writev (mem : Memory) (iov : list iovec) (iovcnt : N) (n : N) : list byte :=
  ntake n (concat (map (fun vec => read mem (iov_base vec) (iov_len vec))
                     (ntake iovcnt iov))).

(** [(int)] of a [VALUE] that holds the count [n] of bytes written, as
    the [ssize_t] it is assigned to: the low 32 bits, signed. *)
Definition int_of_VALUE (n : N) : Z :=
  ((Z.of_N n + 2 ^ 31) mod 2 ^ 32 - 2 ^ 31)%Z.

(** Where the second loop of [f_generic_writev] is: the groups, the
    local [total_size] (an [unsigned int]) and the two offsets. *)
Record Fill := mkFill {
  groups : list IOVectorGroup;
  total : N;
  group_offset : N;
  vector_offset : N
}.

Section Writev.
(** [IOV_MAX] and [SSIZE_MAX] of the platform, and what an [alloca]ted
    vector holds before it is written. *)
Variable IOV_MAX : N.
Variable SSIZE_MAX : N.
Variable junk : iovec.

(** The first loop: the number of components, an [unsigned int]. A
    component is the Ruby String [rb_obj_as_string] gives, by its
    [RSTRING_PTR] and [RSTRING_LEN]. *)
Definition count_components (array_of_components : list (list iovec)) : N :=
  fold_left (fun total_components components =>
               uint32 (total_components + uint32 (size components)))
            array_of_components 0.

(** A group as it is allocated: [n] vectors not yet written, and the
    [total_size] that [memset] zeroed. *)
Definition new_group (n : N) : IOVectorGroup :=
  {| io_vectors := replicate (N.to_nat n) junk; count := uint32 n; total_size := 0 |}.

Definition allocate_groups (total_components : N) : list IOVectorGroup :=
  if total_components mod IOV_MAX =? 0 then
    let ngroups := uint32 (total_components / IOV_MAX) in
    replicate (N.to_nat ngroups) (new_group IOV_MAX)
  else
    let ngroups := uint32 (total_components / IOV_MAX + 1) in
    replicate (N.to_nat (ngroups - 1)) (new_group IOV_MAX)
    ++ [new_group (total_components mod IOV_MAX)].

(** One turn of the inner loop of the distribution, for the String
    [str]. (The group at [group_offset] is there as long as there are
    components left, see [distribute_chunks].) *)
Definition put (st : Fill) (str : iovec) : Fill :=
  let here := N.to_nat (group_offset st) in
  let groups' :=
    alter (fun group =>
             {| io_vectors := <[N.to_nat (vector_offset st) := str]> (io_vectors group);
                count := count group;
                total_size := total_size group + Z.of_N (iov_len str) |})
          here (groups st) in
  let total' := uint32 (total st + uint32 (iov_len str)) in
  let vector_offset' := uint32 (vector_offset st + 1) in
  let full := match groups' !! here with
              | Some group => vector_offset' =? count group
              | None => false
              end in
  if full then
    {| groups := groups'; total := total';
       group_offset := uint32 (group_offset st + 1); vector_offset := 0 |}
  else
    {| groups := groups'; total := total';
       group_offset := group_offset st; vector_offset := vector_offset' |}.

Definition distribute (array_of_components : list (list iovec))
    (groups : list IOVectorGroup) : Fill :=
  foldl (fun st components => foldl put st components)
        {| groups := groups; total := 0; group_offset := 0; vector_offset := 0 |}
        array_of_components.

(** Whether [TRAP_BEG] is defined: [ret] is then what [writev()]
    returned, and otherwise the [(int)] of what
    [rb_thread_blocking_region] returned. *)
Variable TRAP_BEG : bool.

(** What [rb_io_wait_writable] answers where [ret] is -1 though
    [writev()] has not failed, so that [errno] is what an earlier call
    left. *)
Variable waits_on_old_errno : bool.

(** [ret] after a call of [writev()] that wrote [n] bytes. *)
Definition ret_of (n : N) : Z :=
  if TRAP_BEG then Z.of_N n else int_of_VALUE n.

(** The [while (!done)] loop for one group: every turn calls [writev()]
    and takes the next of [results]. [None] as outcome: the group is
    written and the function goes on. *)
Fixpoint write_group (mem : Memory) (group : IOVectorGroup)
    (results : list writev_result) (fd : Fd)
  : option outcome * list writev_result * Fd :=
  match results with
  | [] => (Some StillWriting, [], fd)
  | ret :: results' =>
      let called := iovcnts fd ++ [count group] in
      match ret with
      | Failure =>
          (Some (Raises SystemCallError), results',
           {| written := written fd; iovcnts := called |})
      | WaitWritable =>
          write_group mem group results'
            {| written := written fd; iovcnts := called |}
      | Wrote n =>
          let fd' := {| written := written fd
                                     ++ writev mem (io_vectors group) (count group) n;
                        iovcnts := called |} in
          let ret := ret_of n in
          if (ret =? -1)%Z then
            if waits_on_old_errno then write_group mem group results' fd'
            else (Some (Raises SystemCallError), results', fd')
          else if (ret <? total_size group)%Z then
            match update_group_written_info group ret with
            | Some group' => write_group mem group' results' fd'
            | None => (Some (Raises RuntimeError), results', fd')
            end
          else (None, results', fd')
      end
  end.

(** The [for] loop over the groups. *)
Fixpoint write_groups (mem : Memory) (groups : list IOVectorGroup)
    (results : list writev_result) (fd : Fd)
  : option outcome * list writev_result * Fd :=
  match groups with
  | [] => (None, results, fd)
  | group :: groups' =>
      match write_group mem group results fd with
      | (None, results', fd') => write_groups mem groups' results' fd'
      | stopped => stopped
      end
  end.

Definition f_generic_writev (mem : Memory) (array_of_components : list (list iovec))
    (results : list writev_result) : outcome * Fd :=
  let fd := {| written := []; iovcnts := [] |} in
  let total_components := count_components array_of_components in
  if total_components =? 0 then (ReturnsNUM2INT0, fd)
  else
    let filled := distribute array_of_components (allocate_groups total_components) in
    if SSIZE_MAX <? total filled then (Raises ArgError, fd)
    else
      match write_groups mem (groups filled) results fd with
      | (None, _, fd') => (Returns (total filled), fd')
      | (Some stopped, _, fd') => (stopped, fd')
      end.

Definition f_writev (mem : Memory) (components : list iovec)
    (results : list writev_result) : outcome * Fd :=
  f_generic_writev mem [components] results.

Definition f_writev2 (mem : Memory) (components1 components2 : list iovec)
    (results : list writev_result) : outcome * Fd :=
  f_generic_writev mem [components1; components2] results.

Definition f_writev3 (mem : Memory) (components1 components2 components3 : list iovec)
    (results : list writev_result) : outcome * Fd :=
  f_generic_writev mem [components1; components2; components3] results.
End Writev.

(** *** [detach_process]

    The stack size [detach_process] gives [pthread_attr_setstacksize], a
    [size_t]. [PTHREAD_STACK_MIN] is [None] where the platform does not
    define it; [page_size] is what [sysconf] or [getpagesize] gives, not
    zero. *)
Definition detach_process_stack_size (PTHREAD_STACK_MIN : option N) (page_size : N) : N :=
  let stack_size := 96 * 1024 in
  let min_stack_size :=
    match PTHREAD_STACK_MIN with
    | Some min => min mod 2 ^ 64
    | None => 128 * 1024
    end in
  let stack_min_size_defined :=
    match PTHREAD_STACK_MIN with Some _ => true | None => false end in
  let '(stack_size, round_stack_size) :=
    if negb (stack_size =? 0) && (stack_size <? min_stack_size)
    then (min_stack_size, negb stack_min_size_defined)
    else (stack_size, true) in
  if round_stack_size then
    if negb (stack_size mod page_size =? 0)
    then (stack_size - stack_size mod page_size + page_size) mod 2 ^ 64
    else stack_size
  else stack_size.

End NativeSupport.

(** The pairs a list of fields makes, two by two; a last field without a
    partner makes none. *)
Fixpoint pair_up {A} (fields : list A) : list (A * A) :=
  match fields with
  | key :: value :: fields' => (key, value) :: pair_up fields'
  | _ => []
  end.

(** The Hash after the pairs were set in order. *)
Definition set_pairs (hash : NativeSupport.Hash) (pairs : list (list byte * list byte))
  : NativeSupport.Hash :=
  foldl (fun h kv => NativeSupport.rb_hash_aset h kv.1 kv.2) hash pairs.

(** The data with the given keys and values, each ended by a NUL. *)
Definition keys_and_values (pairs : list (list byte * list byte)) : list byte :=
  array_body (flat_map (fun kv => [kv.1; kv.2]) pairs).

(** The bytes a group's vectors span, in order: what [writev()] would
    write. *)
Definition iovec_bytes (mem : Memory) (vec : NativeSupport.iovec) : list byte :=
  read mem (NativeSupport.iov_base vec) (NativeSupport.iov_len vec).

Definition group_bytes (mem : Memory) (vecs : list NativeSupport.iovec) : list byte :=
  concat (map (iovec_bytes mem) vecs).

(** The summed length of the vectors. *)
Definition iovec_total (vecs : list NativeSupport.iovec) : N :=
  foldr (fun vec s => NativeSupport.iov_len vec + s) 0 vecs.

(** A group as [f_generic_writev] makes it: [count] vectors, of which
    [total_size] is the summed length, within the range of the types. *)
Definition group_wf (group : NativeSupport.IOVectorGroup) : Prop :=
  NativeSupport.count group = size (NativeSupport.io_vectors group) /\
  NativeSupport.count group < 2 ^ 32 /\
  NativeSupport.total_size group
    = Z.of_N (iovec_total (NativeSupport.io_vectors group)) /\
  iovec_total (NativeSupport.io_vectors group) < 2 ^ 63.

(** A group of two vectors over [sample_memory]: "ab" and "hello". *)
Definition sample_group : NativeSupport.IOVectorGroup :=
  {| NativeSupport.io_vectors :=
       [NativeSupport.mk_iovec (mkPtr (Data 1) 0) 2;
        NativeSupport.mk_iovec (mkPtr (Data 2) 0) 5];
     NativeSupport.count := 2;
     NativeSupport.total_size := 7 |}.

(** ** Writing groups of vectors

    The sizes of the groups [f_generic_writev] makes for [total]
    components: as many groups of [IOV_MAX] as fit, and one more for what
    is left. *)
Definition group_sizes (IOV_MAX total : N) : list N :=
  replicate (N.to_nat (total / IOV_MAX)) IOV_MAX
  ++ (if total mod IOV_MAX =? 0 then [] else [total mod IOV_MAX]).

(** A list cut into consecutive runs of the given sizes. *)
Fixpoint split_by {A} (sizes : list N) (l : list A) : list (list A) :=
  match sizes with
  | [] => []
  | n :: sizes' => ntake n l :: split_by sizes' (ndrop n l)
  end.

(** The group that holds the given vectors. *)
Definition group_of (vecs : list NativeSupport.iovec) : NativeSupport.IOVectorGroup :=
  {| NativeSupport.io_vectors := vecs;
     NativeSupport.count := size vecs;
     NativeSupport.total_size := Z.of_N (iovec_total vecs) |}.

(** The results of [writev()] calls that each write the whole of what
    they are given, one call per group. *)
Definition writes_all (groups : list (list NativeSupport.iovec))
  : list NativeSupport.writev_result :=
  map (fun vecs => NativeSupport.Wrote (iovec_total vecs)) groups.

(** A result of [writev()] whose count of bytes reaches [ret] as it is:
    any where [TRAP_BEG] is defined, and otherwise one below 2^31, which
    the cast to [int] leaves alone. *)
Definition count_kept (TRAP_BEG : bool) (ret : NativeSupport.writev_result) : Prop :=
  match ret with
  | NativeSupport.Wrote n => TRAP_BEG = true \/ n < 2 ^ 31
  | _ => True
  end.

(** Five components over [sample_memory]: "ab", "hello", "ab", "", "hello". *)
Definition sample_components : list NativeSupport.iovec :=
  [NativeSupport.mk_iovec (mkPtr (Data 1) 0) 2;
   NativeSupport.mk_iovec (mkPtr (Data 2) 0) 5;
   NativeSupport.mk_iovec (mkPtr (Data 1) 0) 2;
   NativeSupport.mk_iovec (mkPtr (Data 1) 2) 0;
   NativeSupport.mk_iovec (mkPtr (Data 2) 0) 5].

(** * Properties *)

(** ** Sizes, prefixes and suffixes *)

Lemma size_nil {A} : size (@nil A) = 0.
Proof. reflexivity. Qed.

Lemma size_cons {A} (x : A) l : size (x :: l) = size l + 1.
Proof. unfold size. simpl. lia. Qed.

Lemma size_app {A} (l1 l2 : list A) : size (l1 ++ l2) = size l1 + size l2.
Proof. unfold size. rewrite length_app. lia. Qed.

Lemma size_ntake {A} n (l : list A) : size (ntake n l) = N.min n (size l).
Proof. unfold size, ntake. rewrite length_take. lia. Qed.

Lemma size_ndrop {A} n (l : list A) : size (ndrop n l) = size l - n.
Proof. unfold size, ndrop. rewrite length_drop. lia. Qed.

Lemma size_0_nil {A} (l : list A) : size l = 0 -> l = [].
Proof. unfold size. destruct l; [done|simpl; lia]. Qed.

Lemma ntake_all {A} n (l : list A) : size l <= n -> ntake n l = l.
Proof. unfold size, ntake. intros. apply take_ge. lia. Qed.

Lemma ntake_0 {A} (l : list A) : ntake 0 l = [].
Proof. reflexivity. Qed.

Lemma ndrop_0 {A} (l : list A) : ndrop 0 l = l.
Proof. reflexivity. Qed.

Lemma ndrop_all {A} n (l : list A) : size l <= n -> ndrop n l = [].
Proof. unfold size, ndrop. intros. apply drop_ge. lia. Qed.

Lemma ntake_ndrop {A} n (l : list A) : ntake n l ++ ndrop n l = l.
Proof. apply take_drop. Qed.

Lemma ntake_add {A} n k (l : list A) :
  ntake (n + k) l = ntake n l ++ ntake k (ndrop n l).
Proof.
  unfold ntake, ndrop. rewrite N2Nat.inj_add.
  rewrite <- (take_drop (N.to_nat n) l) at 1.
  rewrite take_app. rewrite length_take.
  destruct (decide (N.to_nat n <= length l)%nat) as [Hle|Hgt].
  - rewrite take_ge by (rewrite length_take; lia).
    f_equal. f_equal. lia.
  - rewrite (drop_ge l) by lia. rewrite !take_nil, !app_nil_r.
    apply take_ge. rewrite length_take. lia.
Qed.

Lemma ndrop_add {A} n k (l : list A) : ndrop (n + k) l = ndrop k (ndrop n l).
Proof. unfold ndrop. rewrite drop_drop. f_equal. lia. Qed.

Lemma ntake_app_le {A} n (l1 l2 : list A) :
  n <= size l1 -> ntake n (l1 ++ l2) = ntake n l1.
Proof. unfold size, ntake. intros. apply take_app_le. lia. Qed.

Lemma ndrop_app_le {A} n (l1 l2 : list A) :
  n <= size l1 -> ndrop n (l1 ++ l2) = ndrop n l1 ++ l2.
Proof. unfold size, ndrop. intros. apply drop_app_le. lia. Qed.

Lemma ndrop_app_ge {A} n (l1 l2 : list A) :
  size l1 <= n -> ndrop n (l1 ++ l2) = ndrop (n - size l1) l2.
Proof.
  unfold size, ndrop. intros. rewrite drop_app.
  rewrite drop_ge by lia. simpl. f_equal. lia.
Qed.

(** ** Byte order *)

Lemma byte_to_N_lt b : Byte.to_N b < 256.
Proof. pose proof (Byte.to_N_bounded b). lia. Qed.

Lemma byte_to_of_N n : Byte.to_N (byte_of_N n) = n mod 256.
Proof.
  unfold byte_of_N. destruct (Byte.of_N (n mod 256)) as [b|] eqn:Hb.
  - by apply Byte.to_of_N.
  - apply Byte.of_N_None_iff in Hb.
    pose proof (N.mod_upper_bound n 256). lia.
Qed.

Lemma be_decode_snoc l b : be_decode (l ++ [b]) = be_decode l * 256 + Byte.to_N b.
Proof. unfold be_decode. by rewrite fold_left_app. Qed.

Lemma be_decode_lt l : be_decode l < 256 ^ size l.
Proof.
  induction l as [|b l IH] using rev_ind; [reflexivity|].
  rewrite be_decode_snoc, size_app. change (size [b]) with 1.
  rewrite N.pow_add_r. pose proof (byte_to_N_lt b). nia.
Qed.

Lemma length_be_encode w n : length (be_encode w n) = w.
Proof.
  revert n; induction w as [|w IH]; intros n; simpl; [done|].
  rewrite length_app, IH. simpl. lia.
Qed.

Lemma be_decode_encode w n : be_decode (be_encode w n) = n mod 256 ^ N.of_nat w.
Proof.
  revert n; induction w as [|w IH]; intros n.
  - simpl. by rewrite N.mod_1_r.
  - cbn [be_encode]. rewrite be_decode_snoc, IH, byte_to_of_N.
    rewrite Nat2N.inj_succ, N.pow_succ_r'.
    rewrite N.Div0.mod_mul_r. lia.
Qed.

Lemma be_encode_decode l : be_encode (length l) (be_decode l) = l.
Proof.
  induction l as [|b l IH] using rev_ind; [reflexivity|].
  rewrite length_app, Nat.add_comm. cbn [length Nat.add be_encode].
  rewrite be_decode_snoc. pose proof (byte_to_N_lt b).
  rewrite N.div_add_l by lia. rewrite N.div_small, N.add_0_r, IH by done.
  f_equal. f_equal. unfold byte_of_N.
  rewrite N.add_comm, N.Div0.mod_add, N.mod_small by done.
  by rewrite Byte.of_to_N.
Qed.

Section HostOrderFacts.
Context `{Host}.

Lemma length_store w n : length (store w n) = w.
Proof.
  unfold store. destruct little_endian; [rewrite length_rev|]; apply length_be_encode.
Qed.

Lemma store_load raw : store (length raw) (load raw) = raw.
Proof.
  unfold store, load. destruct little_endian.
  - rewrite <- (length_rev raw), be_encode_decode. apply rev_involutive.
  - apply be_encode_decode.
Qed.

Lemma load_store w n : load (store w n) = n mod 256 ^ N.of_nat w.
Proof.
  unfold store, load. destruct little_endian.
  - rewrite rev_involutive. apply be_decode_encode.
  - apply be_decode_encode.
Qed.

(** Converting a full storage from network order leaves the number its
    bytes spell in big-endian. *)
Lemma load_store_ntoh raw :
  load (store (length raw) (ntoh (length raw) (load raw))) = be_decode raw.
Proof.
  unfold ntoh. rewrite store_load, load_store.
  apply N.mod_small. pose proof (be_decode_lt raw). by unfold size in *.
Qed.

(** [generate] writes the number in big-endian. *)
Lemma UintMessage_generate_be w v : UintMessage.generate w v = be_encode w v.
Proof.
  unfold UintMessage.generate, hton.
  rewrite <- (length_be_encode w v) at 1. apply store_load.
Qed.
End HostOrderFacts.


(** ** The integer readers *)

Section UintMessageFacts.
Context `{Host}.
Variable w : nat.
Hypothesis w_small : N.of_nat w < 256.

Lemma UintMessage_feed_consumes m data :
  snd (UintMessage.feed w m data)
  = N.min (size data) (N.of_nat w - UintMessage.consumed m).
Proof. reflexivity. Qed.

Lemma UintMessage_feed_done m data :
  UintMessage.done w m = true -> UintMessage.feed w m data = (m, 0).
Proof.
  unfold UintMessage.done, UintMessage.feed. intros Hd%N.eqb_eq.
  destruct m as [raw c]; simpl in *. subst c.
  rewrite N.sub_diag, N.min_0_r. simpl.
  rewrite N.add_0_r, N.mod_small by done.
  unfold memcpy_at. rewrite ntake_0. simpl.
  change (size []) with 0. by rewrite N.add_0_r, ntake_ndrop.
Qed.

Lemma header_fed_new junk : Tracking.header_fed w [] (UintMessage.new w junk).
Proof.
  unfold Tracking.header_fed, UintMessage.new; simpl.
  rewrite length_store. change (size []) with 0.
  repeat split; [lia|].
  destruct (0 <? N.of_nat w) eqn:E; [done|]. apply N.ltb_ge in E.
  assert (w = 0%nat) as -> by lia.
  unfold UintMessage.value, load, store; simpl. by destruct little_endian.
Qed.

Lemma header_fed_done hb m :
  Tracking.header_fed w hb m ->
  UintMessage.done w m = bool_decide (size hb = N.of_nat w).
Proof.
  intros (_ & Hc & _ & _). unfold UintMessage.done. rewrite Hc.
  case_bool_decide; [by apply N.eqb_eq | by apply N.eqb_neq].
Qed.

(** Feeding [data] to a header reader that holds [hb] makes it hold [hb]
    and the bytes it took from [data]. *)
Lemma UintMessage_feed_spec hb m data :
  Tracking.header_fed w hb m ->
  let n := N.min (size data) (N.of_nat w - size hb) in
  exists m', UintMessage.feed w m data = (m', n) /\
             Tracking.header_fed w (hb ++ ntake n data) m'.
Proof.
  intros (Hlen & Hc & Hle & Hval) n.
  destruct (decide (n = 0)) as [Hn0|Hn0].
  { exists m. split.
    - unfold UintMessage.feed. rewrite Hc. fold n. rewrite Hn0.
      destruct m as [raw c]; simpl in *. subst c.
      rewrite N.add_0_r, N.mod_small by lia.
      unfold memcpy_at. rewrite ntake_0. simpl.
      change (size []) with 0. by rewrite N.add_0_r, ntake_ndrop.
    - rewrite Hn0, ntake_0, app_nil_r. done. }
  assert (Hlt : size hb < N.of_nat w) by lia.
  apply N.ltb_lt in Hlt as Hltb. rewrite Hltb in Hval.
  assert (Hsz : size (ntake n data) = n) by (rewrite size_ntake; lia).
  set (raw1 := memcpy_at (UintMessage.val m) (size hb) (ntake n data)).
  assert (Hraw1 : raw1 = hb ++ ntake n data
                         ++ ndrop (size hb + n) (UintMessage.val m)).
  { unfold raw1, memcpy_at. by rewrite Hval, Hsz. }
  assert (Hsv : size (UintMessage.val m) = N.of_nat w)
    by (unfold size; by rewrite Hlen).
  assert (Hs1 : size raw1 = N.of_nat w)
    by (rewrite Hraw1, !size_app, size_ndrop, Hsz, Hsv; lia).
  assert (Hlen1 : length raw1 = w) by (apply Nat2N.inj; exact Hs1).
  unfold UintMessage.feed. rewrite Hc. fold n. fold raw1.
  unfold UintMessage.done; simpl.
  rewrite N.mod_small by lia.
  assert (H0n : (0 <? n) = true) by (apply N.ltb_lt; lia). rewrite H0n; simpl.
  destruct (size hb + n =? N.of_nat w) eqn:Hfull.
  - apply N.eqb_eq in Hfull. eexists; split; [reflexivity|].
    unfold Tracking.header_fed; simpl.
    rewrite length_store, size_app, Hsz.
    repeat split; [lia|].
    replace (size hb + n <? N.of_nat w) with false by (symmetry; apply N.ltb_ge; lia).
    unfold UintMessage.value; simpl.
    pose proof (load_store_ntoh raw1) as E. rewrite Hlen1 in E.
    rewrite E, Hraw1.
    rewrite ndrop_all, app_nil_r; [done|]. rewrite Hsv. lia.
  - apply N.eqb_neq in Hfull. eexists; split; [reflexivity|].
    unfold Tracking.header_fed; simpl.
    rewrite size_app, Hsz.
    repeat split; [done|lia|].
    replace (size hb + n <? N.of_nat w) with true by (symmetry; apply N.ltb_lt; lia).
    rewrite Hraw1, app_assoc. rewrite ntake_app_le by (rewrite size_app, Hsz; lia).
    apply ntake_all. rewrite size_app, Hsz. lia.
Qed.
End UintMessageFacts.

(** ** Splitting an array body *)

Lemma memchr_Some s c n :
  memchr s c = Some n ->
  n < size s /\ (c ∉ ntake n s) /\ ndrop n s = c :: ndrop (n + 1) s.
Proof.
  revert n; induction s as [|b s IH]; intros n; simpl; [done|].
  case_decide as Hb.
  - intros [= <-]. subst b. rewrite size_cons. split; [lia|].
    split; [apply not_elem_of_nil|done].
  - destruct (memchr s c) as [k|]; simpl; [|done].
    intros [= <-]. destruct (IH k eq_refl) as (Hk & Hnotin & Hdrop).
    rewrite size_cons. split; [lia|].
    unfold ntake, ndrop in *.
    replace (N.to_nat (N.succ k)) with (S (N.to_nat k)) by lia.
    replace (N.to_nat (N.succ k + 1)) with (S (N.to_nat (k + 1))) by lia.
    simpl. split; [|done].
    rewrite not_elem_of_cons. split; [congruence|done].
Qed.

Lemma memchr_None s c : memchr s c = None -> c ∉ s.
Proof.
  induction s as [|b s IH]; simpl; [intros; apply not_elem_of_nil|].
  case_decide as Hb; [done|].
  destruct (memchr s c) as [k|] eqn:Hk; simpl; [done|].
  intros _. rewrite not_elem_of_cons. split; [congruence|by apply IH].
Qed.

Lemma split_fields_no_NUL acc s : NUL ∉ s -> split_fields acc s = [].
Proof.
  revert acc; induction s as [|b s IH]; intros acc Hs; simpl; [done|].
  apply not_elem_of_cons in Hs as [Hb Hs].
  case_decide; [congruence|]. by apply IH.
Qed.

Lemma split_fields_app acc run s :
  NUL ∉ run ->
  split_fields acc (run ++ NUL :: s) = (acc ++ run) :: split_fields [] s.
Proof.
  revert acc; induction run as [|b run IH]; intros acc Hrun; simpl.
  - rewrite app_nil_r. by repeat case_decide.
  - apply not_elem_of_cons in Hrun as [Hb Hrun].
    case_decide; [congruence|]. rewrite IH by done. by rewrite <- app_assoc.
Qed.

(** Decoding the body of an array message gives back its fields, and a
    trailing run without a NUL adds nothing. *)
Lemma split_fields_array_body fields tail :
  Forall (fun f => NUL ∉ f) fields -> NUL ∉ tail ->
  split_fields [] (array_body fields ++ tail) = fields.
Proof.
  intros Hf Htail. induction Hf as [|f fields Hnf _ IH]; simpl.
  - by apply split_fields_no_NUL.
  - unfold array_body in *. simpl. rewrite <- !app_assoc. simpl.
    rewrite split_fields_app by done. simpl. by rewrite IH.
Qed.

(** Reading inside an array that is known to hold [bytes]. *)
Lemma read_within mem p bytes s t :
  read mem p (size bytes) = bytes ->
  s + t <= size bytes ->
  read mem (ptr_add p s) t = ntake t (ndrop s bytes).
Proof.
  unfold read; simpl. intros Hread Hst.
  set (M := ndrop (offset p) (region_bytes mem (region p))) in *.
  rewrite ndrop_add. fold M.
  rewrite <- (ntake_ndrop (size bytes) M), Hread.
  rewrite ndrop_app_le by lia.
  apply ntake_app_le. rewrite size_ndrop. lia.
Qed.

(** The views [parseBody] pushes denote the fields of the bytes it was
    given, whereever those bytes live. *)
Lemma parseBody_loop_spec mem p bytes start result :
  read mem p (size bytes) = bytes ->
  start <= size bytes ->
  map (bytes_of mem) (ArrayMessage.parseBody_loop p bytes start result)
  = map (bytes_of mem) result ++ split_fields [] (ndrop start bytes).
Proof.
  intros Hread.
  funelim (ArrayMessage.parseBody_loop p bytes start result);
    intros Hstart; clear Heqcall.
  - destruct (memchr_Some _ _ _ Hfound) as (Hlt & Hnotin & Hdrop).
    rewrite size_ndrop in Hlt.
    rewrite (H mem) by (done || lia).
    rewrite map_app. simpl. rewrite <- app_assoc. f_equal. simpl.
    symmetry. rewrite <- (ntake_ndrop terminator (ndrop start bytes)) at 1.
    rewrite Hdrop. rewrite split_fields_app by done. simpl.
    rewrite <- ndrop_add, N.add_assoc. f_equal.
    unfold bytes_of; simpl. symmetry. apply read_within; [done|lia].
  - pose proof (memchr_None _ _ e). rewrite split_fields_no_NUL by done.
    by rewrite app_nil_r.
Qed.

Lemma parseBody_spec mem p bytes :
  read mem p (size bytes) = bytes ->
  map (bytes_of mem) (ArrayMessage.parseBody p bytes []) = split_fields [] bytes.
Proof.
  intros Hread. unfold ArrayMessage.parseBody.
  rewrite (parseBody_loop_spec mem) by (done || lia). by rewrite ndrop_0.
Qed.

(** ** The framed readers follow the wire format *)

Lemma read_reader_memory {R} env (st : FramedMessage.t R) p n :
  caller_owned p -> read (reader_memory env st) p n = read env p n.
Proof.
  unfold caller_owned, read, reader_memory, write_region, region_bytes.
  intros Hp. destruct (region p); try done; by case_decide.
Qed.

Lemma read_own_buffer {R} env (st : FramedMessage.t R) :
  read (reader_memory env st) (mkPtr OwnedBuffer 0) (size (FramedMessage.buffer st))
  = FramedMessage.buffer st.
Proof.
  unfold read, reader_memory, write_region, region_bytes; simpl.
  rewrite ndrop_0. by apply ntake_all.
Qed.

Section FramedFacts.
Context `{Host}.
Variable w : nat.
Hypothesis w_pos : 0 < N.of_nat w.
Hypothesis w_small : N.of_nat w < 256.
Variables (R C : Type).
Variable bodyDone : Ptr -> list byte -> R -> R.
Variable contents : Memory -> R -> C.
Variable denote : list byte -> C.
Variables (m e0 : N) (r0 : R).
Hypothesis bodyDone_denote : forall mem p bytes,
  read mem p (size bytes) = bytes ->
  contents mem (bodyDone p bytes r0) = denote bytes.
Hypothesis contents_r0 : forall mem mem', contents mem r0 = contents mem' r0.

Local Abbreviation W := (N.of_nat w).
Local Abbreviation T := (Tracking.tracks w R C contents denote m e0 r0).
Local Abbreviation header_of := (Tracking.header_of w).
Local Abbreviation too_large := (Tracking.too_large m).
Local Abbreviation iteration := (FramedMessage.iteration w R bodyDone).
Local Abbreviation feed_loop := (FramedMessage.feed_loop w R bodyDone).
Local Abbreviation feed := (FramedMessage.feed w R bodyDone).

Lemma header_of_app fed extra :
  W <= size fed -> header_of (fed ++ extra) = header_of fed.
Proof. intros. unfold Tracking.header_of. by rewrite ntake_app_le. Qed.

Lemma tracks_not_done env fed st total :
  T env fed st total -> FramedMessage.done st = false -> total = size fed.
Proof.
  unfold FramedMessage.done.
  intros [] Hd; try done;
    repeat match goal with Hs : FramedMessage.state st = _ |- _ =>
      rewrite Hs in Hd end; done.
Qed.

(** Once the reader is done, what is offered after the message does not
    matter. *)
Lemma tracks_done_extend env fed extra st total :
  T env fed st total -> FramedMessage.done st = true ->
  T env (fed ++ extra) st total.
Proof.
  unfold FramedMessage.done.
  intros [] Hd;
    repeat match goal with Hs : FramedMessage.state st = _ |- _ =>
      rewrite Hs in Hd end; try done.
  - apply Tracking.tracks_error; rewrite ?header_of_app, ?size_app by done;
      (done || lia).
  - apply Tracking.tracks_empty; rewrite ?header_of_app, ?size_app by done;
      (done || lia).
  - apply Tracking.tracks_done; rewrite ?header_of_app, ?size_app by done;
      try (done || lia).
    rewrite ndrop_app_le by done. rewrite ntake_app_le by (rewrite size_ndrop; lia).
    done.
Qed.

Section Chunk.
Variable env : Memory.
Variable p : Ptr.
Variable chunk : list byte.
Hypothesis p_caller : caller_owned p.
Hypothesis p_chunk : read env p (size chunk) = chunk.

(** One turn of the loop takes the reader from the first [c] bytes of
    the chunk to the first [c'], and [c < c']. *)
Lemma iteration_spec fed st c :
  c < size chunk ->
  FramedMessage.done st = false ->
  T env (fed ++ ntake c chunk) st (size fed + c) ->
  exists st' c',
    iteration st p chunk c = Some (st', c') /\
    c < c' /\ c' <= size chunk /\
    T env (fed ++ ntake c' chunk) st' (size fed + c').
Proof.
  intros Hc Hnd Htr.
  assert (Hsz : size (fed ++ ntake c chunk) = size fed + c)
    by (rewrite size_app, size_ntake; lia).
  set (F := fed ++ ntake c chunk) in *.
  assert (HF' : forall n, fed ++ ntake (c + n) chunk = F ++ ntake n (ndrop c chunk)).
  { intros n. unfold F. by rewrite ntake_add, app_assoc. }
  unfold FramedMessage.done in Hnd.
  destruct Htr as
    [Hlt Hs Hhf Hm He Hb Hr Ht
    |? ? Hs|? ? ? Hs
    |Hle Htl Hv0 Hlt Hs Hval Hm He Hb Hr Ht
    |? ? ? ? Hs]; rewrite Hs in Hnd; try done; clear Hnd.
  - (* the header is still being read *)
    unfold FramedMessage.iteration. rewrite Hs.
    destruct (UintMessage_feed_spec w w_small F _ (ndrop c chunk) Hhf)
      as (hr' & Hfeed & Hhf').
    rewrite Hfeed.
    set (n := N.min (size (ndrop c chunk)) (W - size F)) in *.
    assert (Hn : 0 < n /\ n <= size chunk - c /\ n <= W - size F)
      by (unfold n; rewrite size_ndrop; lia).
    assert (Hszt : size (ntake n (ndrop c chunk)) = n)
      by (rewrite size_ntake, size_ndrop; lia).
    rewrite <- HF' in Hhf'.
    set (F' := fed ++ ntake (c + n) chunk) in *.
    assert (Hsz' : size F' = size F + n)
      by (unfold F'; rewrite HF', size_app, Hszt; done).
    rewrite (header_fed_done w _ _ Hhf').
    case_bool_decide as Hfull.
    + (* the header is complete *)
      destruct Hhf' as (_ & _ & _ & Hval).
      replace (size F' <? W) with false in Hval
        by (symmetry; apply N.ltb_ge; lia).
      assert (Hho : header_of F' = UintMessage.value hr').
      { unfold Tracking.header_of. rewrite ntake_all by lia. done. }
      rewrite Hm.
      destruct ((0 <? m) && (m <? UintMessage.value hr')) eqn:Htl.
      * eexists _, _. split; [reflexivity|].
        split; [lia|]. split; [lia|]. fold F'.
        apply Tracking.tracks_error; simpl; rewrite ?Hho; try (done || lia).
      * destruct (UintMessage.value hr' =? 0) eqn:Hz.
        -- apply N.eqb_eq in Hz. eexists _, _. split; [reflexivity|].
           split; [lia|]. split; [lia|]. fold F'.
           apply Tracking.tracks_empty; simpl; rewrite ?Hho; try (done || lia).
        -- apply N.eqb_neq in Hz. eexists _, _. split; [reflexivity|].
           split; [lia|]. split; [lia|]. fold F'.
           apply Tracking.tracks_body; simpl; rewrite ?Hho; try (done || lia).
           rewrite Hb. symmetry. apply ndrop_all. lia.
    + (* the header is still incomplete *)
      eexists _, _. split; [reflexivity|].
      split; [lia|]. split; [lia|]. fold F'.
      apply Tracking.tracks_header; simpl; try (done || lia).
  - (* the body is being read *)
    unfold FramedMessage.iteration. rewrite Hs, Hval.
    set (v := header_of F) in *.
    assert (Hbs : size (FramedMessage.buffer st) = size F - W)
      by (rewrite Hb, size_ndrop; done).
    assert (HoF : forall n, header_of (fed ++ ntake (c + n) chunk) = v).
    { intros n. rewrite HF'. by apply header_of_app. }
    destruct (bool_decide (FramedMessage.buffer st = []) && (v <=? size chunk - c))
      eqn:Hzc.
    + (* the whole body is in the chunk *)
      apply andb_true_iff in Hzc as [Hbe%bool_decide_eq_true Hrest%N.leb_le].
      rewrite Hbe in Hbs. change (size []) with 0 in Hbs.
      eexists _, _. split; [reflexivity|].
      split; [lia|]. split; [lia|].
      assert (Hbody : ntake v (ndrop W (fed ++ ntake (c + v) chunk))
                      = ntake v (ndrop c chunk)).
      { rewrite HF'. rewrite ndrop_app_ge by lia.
        replace (W - size F) with 0 by lia. rewrite ndrop_0.
        apply ntake_all. rewrite size_ntake. lia. }
      assert (HsF' : size (fed ++ ntake (c + v) chunk) = size F + v).
      { rewrite HF', size_app, size_ntake, size_ndrop. lia. }
      apply Tracking.tracks_done; simpl; rewrite ?HoF, ?HsF';
        try (done || lia).
      rewrite Hbody, Hr. apply bodyDone_denote.
      rewrite read_reader_memory by done.
      rewrite size_ntake, size_ndrop.
      replace (N.min v (size chunk - c)) with v by lia.
      apply read_within; [done|lia].
    + (* the body goes through the buffer *)
      set (toConsume := N.min (size chunk - c) (v - size (FramedMessage.buffer st))).
      assert (Htc : 0 < toConsume /\ toConsume <= size chunk - c /\
                    toConsume <= v - size (FramedMessage.buffer st))
        by (unfold toConsume; lia).
      assert (Hszt : size (ntake toConsume (ndrop c chunk)) = toConsume)
        by (rewrite size_ntake, size_ndrop; lia).
      set (buffer' := FramedMessage.buffer st ++ ntake toConsume (ndrop c chunk)).
      assert (Hb' : buffer' = ndrop W (fed ++ ntake (c + toConsume) chunk)).
      { unfold buffer'. rewrite HF', Hb. by rewrite ndrop_app_le. }
      assert (Hsb' : size buffer' = size (FramedMessage.buffer st) + toConsume)
        by (unfold buffer'; rewrite size_app, Hszt; done).
      assert (HsF' : size (fed ++ ntake (c + toConsume) chunk) = size F + toConsume)
        by (rewrite HF', size_app, Hszt; done).
      destruct (size buffer' =? v) eqn:Hfull.
      * apply N.eqb_eq in Hfull. eexists _, _. split; [reflexivity|].
        split; [lia|]. split; [lia|].
        apply Tracking.tracks_done; simpl; rewrite ?HoF, ?HsF';
          try (done || lia).
        rewrite <- Hb'. rewrite ntake_all by lia.
        rewrite Hr. apply bodyDone_denote.
        match goal with |- read (reader_memory env ?s) _ _ = _ =>
          apply (read_own_buffer env s) end.
      * apply N.eqb_neq in Hfull. eexists _, _. split; [reflexivity|].
        split; [lia|]. split; [lia|].
        apply Tracking.tracks_body; simpl; rewrite ?HoF, ?HsF';
          try (done || lia).
Qed.

Lemma feed_loop_spec fuel fed st c :
  (N.to_nat (size chunk - c) <= fuel)%nat ->
  c <= size chunk ->
  T env (fed ++ ntake c chunk) st (size fed + c) ->
  exists st' c',
    feed_loop fuel st p chunk c = Some (st', c') /\
    c <= c' /\ c' <= size chunk /\
    (FramedMessage.done st' = false -> c' = size chunk) /\
    T env (fed ++ chunk) st' (size fed + c').
Proof.
  revert st c. induction fuel as [|fuel IH]; intros st c Hfuel Hc Htr.
  - assert (c = size chunk) as -> by lia.
    exists st, (size chunk). simpl. rewrite N.ltb_irrefl. simpl.
    rewrite ntake_all in Htr by lia. done.
  - cbn [FramedMessage.feed_loop].
    destruct ((c <? size chunk) && negb (FramedMessage.done st)) eqn:Hguard.
    + apply andb_true_iff in Hguard as [Hlt%N.ltb_lt Hnd%negb_true_iff].
      destruct (iteration_spec fed st c Hlt Hnd Htr)
        as (st1 & c1 & Hit & Hc1 & Hc1' & Htr1).
      rewrite Hit.
      destruct (IH st1 c1) as (st' & c' & Hloop & ? & ? & ? & ?);
        [lia|lia|done|].
      exists st', c'. repeat split; try (done || lia).
    + exists st, c. split; [done|]. split; [lia|]. split; [lia|].
      apply andb_false_iff in Hguard as [Hge%N.ltb_ge|Hd%negb_false_iff].
      * assert (c = size chunk) as -> by lia.
        rewrite ntake_all in Htr by lia. done.
      * split; [congruence|].
        rewrite <- (ntake_ndrop c chunk), app_assoc.
        by apply tracks_done_extend.
Qed.

(** [feed] returns, and takes the reader from the bytes offered so far
    to those bytes and the chunk. *)
Lemma feed_spec fed st total :
  T env fed st total ->
  exists st' n,
    feed st p chunk = Some (st', n) /\
    n <= size chunk /\
    (FramedMessage.done st' = false -> n = size chunk) /\
    T env (fed ++ chunk) st' (total + n).
Proof.
  intros Htr. unfold FramedMessage.feed.
  destruct (FramedMessage.done st) eqn:Hd.
  - exists st, 0. simpl. rewrite Hd, andb_false_r.
    split; [done|]. split; [lia|]. split; [congruence|].
    rewrite N.add_0_r. by apply tracks_done_extend.
  - pose proof (tracks_not_done _ _ _ _ Htr Hd) as ->.
    destruct (feed_loop_spec (2 + length chunk) fed st 0)
      as (st' & n & Hloop & _ & Hn & Hnd & Htr').
    + unfold size. lia.
    + lia.
    + by rewrite ntake_0, app_nil_r, N.add_0_r.
    + by exists st', n.
Qed.
End Chunk.

(** Feeding the chunks one after the other takes the reader to their
    concatenation. *)
Lemma feed_chunks_spec env chunks : forall k fed st total,
  (forall i c, chunks !! i = Some c ->
     read env (mkPtr (Data (k + N.of_nat i)) 0) (size c) = c) ->
  T env fed st total ->
  exists st' n,
    feed_chunks feed st k chunks = Some (st', n) /\
    T env (fed ++ concat chunks) st' (total + n).
Proof.
  induction chunks as [|c chunks IH]; intros k fed st total Hmem Htr.
  - exists st, 0. simpl. by rewrite app_nil_r, N.add_0_r.
  - cbn [feed_chunks concat].
    assert (Hown : caller_owned (mkPtr (Data k) 0)) by done.
    assert (Hrd : read env (mkPtr (Data k) 0) (size c) = c).
    { specialize (Hmem 0%nat c eq_refl). by rewrite N.add_0_r in Hmem. }
    destruct (feed_spec env _ c Hown Hrd fed st total Htr)
      as (st1 & n1 & Hfeed & _ & _ & Htr1).
    rewrite Hfeed.
    assert (Hmem' : forall i c', chunks !! i = Some c' ->
              read env (mkPtr (Data (k + 1 + N.of_nat i)) 0) (size c') = c').
    { intros i c' Hi. specialize (Hmem (S i) c' Hi).
      by replace (k + 1 + N.of_nat i) with (k + N.of_nat (S i)) by lia. }
    destruct (IH (k + 1) _ _ _ Hmem' Htr1) as (st2 & n2 & Hrest & Htr2).
    rewrite Hrest. exists st2, (n1 + n2). split; [done|].
    by rewrite app_assoc, N.add_assoc.
Qed.

(** What was offered decides the state, the count and the decoded value,
    whatever the chunks were and wherever they lived. *)
Lemma tracks_agree env1 env2 fed st1 st2 n1 n2 :
  T env1 fed st1 n1 -> T env2 fed st2 n2 ->
  FramedMessage.state st1 = FramedMessage.state st2 /\
  n1 = n2 /\
  FramedMessage.error st1 = FramedMessage.error st2 /\
  contents (reader_memory env1 st1) (FramedMessage.result st1)
  = contents (reader_memory env2 st2) (FramedMessage.result st2).
Proof.
  intros [] []; try (exfalso; (lia || congruence));
    (split; [congruence|]; split; [congruence|]; split; [congruence|]);
    repeat match goal with
           | Hr : FramedMessage.result _ = r0 |- _ => rewrite Hr; clear Hr
           end;
    solve [apply contents_r0 | congruence].
Qed.
End FramedFacts.

Lemma read_chunk_memory chunks i c :
  chunks !! i = Some c ->
  read (chunk_memory chunks) (mkPtr (Data (N.of_nat i)) 0) (size c) = c.
Proof.
  intros Hi. unfold read, chunk_memory, region_bytes; simpl.
  rewrite Nat2N.id, Hi. simpl. rewrite ndrop_0. by apply ntake_all.
Qed.

(** ** ArrayMessage and ScalarMessage as framed readers *)

Section Instances.
Context `{Host}.

Lemma setResult_denote mem p bytes :
  read mem p (size bytes) = bytes ->
  bytes_of mem (ScalarMessage.setResult p bytes emptyStaticString) = bytes.
Proof. done. Qed.

Lemma bytes_of_empty mem mem' :
  bytes_of mem emptyStaticString = bytes_of mem' emptyStaticString.
Proof. done. Qed.

Lemma array_tracks_new env jv je m :
  array_tracks m je env [] (ArrayMessage.setMaxSize m (ArrayMessage.new jv je)) 0.
Proof.
  apply Tracking.tracks_header; try done.
  by apply header_fed_new.
Qed.

Lemma scalar_tracks_new env jv je m :
  scalar_tracks m je env [] (ScalarMessage.new m jv je) 0.
Proof.
  apply Tracking.tracks_header; try done.
  by apply header_fed_new.
Qed.

Lemma ArrayMessage_feed_spec env p chunk m e0 fed st total :
  caller_owned p -> read env p (size chunk) = chunk ->
  array_tracks m e0 env fed st total ->
  exists st' n,
    ArrayMessage.feed st p chunk = Some (st', n) /\
    n <= size chunk /\
    (ArrayMessage.done st' = false -> n = size chunk) /\
    array_tracks m e0 env (fed ++ chunk) st' (total + n).
Proof.
  intros Hp Hrd. apply feed_spec; try done.
  intros mem q bytes. apply parseBody_spec.
Qed.

Lemma ScalarMessage_feed_spec env p chunk m e0 fed st total :
  caller_owned p -> read env p (size chunk) = chunk ->
  scalar_tracks m e0 env fed st total ->
  exists st' n,
    ScalarMessage.feed st p chunk = Some (st', n) /\
    n <= size chunk /\
    (ScalarMessage.done st' = false -> n = size chunk) /\
    scalar_tracks m e0 env (fed ++ chunk) st' (total + n).
Proof. intros Hp Hrd. by apply feed_spec. Qed.

Lemma ArrayMessage_feed_chunks_spec chunks m e0 st :
  array_tracks m e0 (chunk_memory chunks) [] st 0 ->
  exists st' n,
    feed_chunks ArrayMessage.feed st 0 chunks = Some (st', n) /\
    array_tracks m e0 (chunk_memory chunks) (concat chunks) st' n.
Proof.
  intros Htr.
  destruct (feed_chunks_spec 2 eq_refl eq_refl _ _ ArrayMessage.parseBody
    (fun mem views => map (bytes_of mem) views) (split_fields []) m e0 []
    (fun mem q bytes => parseBody_spec mem q bytes)
    (chunk_memory chunks) chunks 0 [] st 0) as (st' & n & Hf & Htr');
    [|done|by exists st', n].
  intros i c Hi. by apply read_chunk_memory.
Qed.

Lemma ScalarMessage_feed_chunks_spec chunks m e0 st :
  scalar_tracks m e0 (chunk_memory chunks) [] st 0 ->
  exists st' n,
    feed_chunks ScalarMessage.feed st 0 chunks = Some (st', n) /\
    scalar_tracks m e0 (chunk_memory chunks) (concat chunks) st' n.
Proof.
  intros Htr.
  destruct (feed_chunks_spec 4 eq_refl eq_refl _ _ ScalarMessage.setResult
    bytes_of (fun body => body) m e0 emptyStaticString setResult_denote
    (chunk_memory chunks) chunks 0 [] st 0) as (st' & n & Hf & Htr');
    [|done|by exists st', n].
  intros i c Hi. by apply read_chunk_memory.
Qed.
End Instances.

(** ** Fragmentation independence *)

Lemma concat_singleton {A} (l : list A) : concat [l] = l.
Proof. simpl. apply app_nil_r. Qed.

Lemma concat_bytewise {A} (l : list A) : concat (map (fun b => [b]) l) = l.
Proof. induction l as [|b l IH]; simpl; [done|]. by rewrite IH. Qed.

Section Fragments.
Context `{Host}.

Lemma array_tracks_agree m e0 env1 env2 fed st1 st2 n1 n2 :
  array_tracks m e0 env1 fed st1 n1 -> array_tracks m e0 env2 fed st2 n2 ->
  FramedMessage.state st1 = FramedMessage.state st2 /\
  n1 = n2 /\
  FramedMessage.error st1 = FramedMessage.error st2 /\
  map (bytes_of (reader_memory env1 st1)) (FramedMessage.result st1)
  = map (bytes_of (reader_memory env2 st2)) (FramedMessage.result st2).
Proof.
  intros H1 H2.
  exact (tracks_agree 2 ltac:(done) ltac:(done) _ _
           (fun mem views => map (bytes_of mem) views) _ _ _ []
           (fun _ _ => eq_refl) _ _ _ _ _ _ _ H1 H2).
Qed.

Lemma scalar_tracks_agree m e0 env1 env2 fed st1 st2 n1 n2 :
  scalar_tracks m e0 env1 fed st1 n1 -> scalar_tracks m e0 env2 fed st2 n2 ->
  FramedMessage.state st1 = FramedMessage.state st2 /\
  n1 = n2 /\
  FramedMessage.error st1 = FramedMessage.error st2 /\
  bytes_of (reader_memory env1 st1) (FramedMessage.result st1)
  = bytes_of (reader_memory env2 st2) (FramedMessage.result st2).
Proof.
  intros H1 H2.
  exact (tracks_agree 4 ltac:(done) ltac:(done) _ _ _ _ _ _ _
           bytes_of_empty _ _ _ _ _ _ _ H1 H2).
Qed.

Lemma ArrayMessage_fragments chunks junk_val junk_error maxSize :
  let fresh := ArrayMessage.setMaxSize maxSize
                 (ArrayMessage.new junk_val junk_error) in
  exists whole pieces n,
    ArrayMessage.feed fresh (mkPtr (Data 0) 0) (concat chunks) = Some (whole, n) /\
    feed_chunks ArrayMessage.feed fresh 0 chunks = Some (pieces, n) /\
    FramedMessage.state whole = FramedMessage.state pieces /\
    ArrayMessage.errorCode whole = ArrayMessage.errorCode pieces /\
    map (bytes_of (reader_memory (chunk_memory [concat chunks]) whole))
        (ArrayMessage.value whole)
    = map (bytes_of (reader_memory (chunk_memory chunks) pieces))
          (ArrayMessage.value pieces).
Proof.
  intros fresh.
  destruct (ArrayMessage_feed_chunks_spec [concat chunks] maxSize junk_error fresh)
    as (whole & n1 & Hwhole & Htr1); [apply array_tracks_new|].
  destruct (ArrayMessage_feed_chunks_spec chunks maxSize junk_error fresh)
    as (pieces & n2 & Hpieces & Htr2); [apply array_tracks_new|].
  rewrite concat_singleton in Htr1.
  destruct (array_tracks_agree _ _ _ _ _ _ _ _ _ Htr1 Htr2) as (Hs & <- & He & Hc).
  cbn [feed_chunks] in Hwhole.
  destruct (ArrayMessage.feed fresh _ (concat chunks)) as [[st k]|] eqn:Hfeed;
    [|done].
  injection Hwhole as <- <-. rewrite N.add_0_r in *.
  by exists st, pieces, k.
Qed.

Lemma ScalarMessage_fragments chunks junk_val junk_error maxSize :
  let fresh := ScalarMessage.new maxSize junk_val junk_error in
  exists whole pieces n,
    ScalarMessage.feed fresh (mkPtr (Data 0) 0) (concat chunks) = Some (whole, n) /\
    feed_chunks ScalarMessage.feed fresh 0 chunks = Some (pieces, n) /\
    FramedMessage.state whole = FramedMessage.state pieces /\
    ScalarMessage.errorCode whole = ScalarMessage.errorCode pieces /\
    bytes_of (reader_memory (chunk_memory [concat chunks]) whole)
             (ScalarMessage.value whole)
    = bytes_of (reader_memory (chunk_memory chunks) pieces)
               (ScalarMessage.value pieces).
Proof.
  intros fresh.
  destruct (ScalarMessage_feed_chunks_spec [concat chunks] maxSize junk_error fresh)
    as (whole & n1 & Hwhole & Htr1); [apply scalar_tracks_new|].
  destruct (ScalarMessage_feed_chunks_spec chunks maxSize junk_error fresh)
    as (pieces & n2 & Hpieces & Htr2); [apply scalar_tracks_new|].
  rewrite concat_singleton in Htr1.
  destruct (scalar_tracks_agree _ _ _ _ _ _ _ _ _ Htr1 Htr2) as (Hs & <- & He & Hc).
  cbn [feed_chunks] in Hwhole.
  destruct (ScalarMessage.feed fresh _ (concat chunks)) as [[st k]|] eqn:Hfeed;
    [|done].
  injection Hwhole as <- <-. rewrite N.add_0_r in *.
  by exists st, pieces, k.
Qed.
End Fragments.

(** C1. Fragmentation independence: for every byte sequence and every way
    of cutting it into consecutive chunks, feeding the chunks in order to a
    fresh ArrayMessage (resp. ScalarMessage) with any configured ceiling
    returns every time, and ends in the same state (Done, Error, or still
    reading), with the same error code, the same decoded value contents
    and the same total of bytes consumed as feeding the whole sequence in
    one [feed] call; one byte at a time is the partition into singletons. *)
Theorem fragmentation_independence `{Host} (chunks : list (list byte)) :
  (forall junk_val junk_error maxSize,
     let fresh := ArrayMessage.setMaxSize maxSize
                    (ArrayMessage.new junk_val junk_error) in
     exists whole pieces n,
       ArrayMessage.feed fresh (mkPtr (Data 0) 0) (concat chunks) = Some (whole, n) /\
       feed_chunks ArrayMessage.feed fresh 0 chunks = Some (pieces, n) /\
       FramedMessage.state whole = FramedMessage.state pieces /\
       ArrayMessage.errorCode whole = ArrayMessage.errorCode pieces /\
       map (bytes_of (reader_memory (chunk_memory [concat chunks]) whole))
           (ArrayMessage.value whole)
       = map (bytes_of (reader_memory (chunk_memory chunks) pieces))
             (ArrayMessage.value pieces)) /\
  (forall junk_val junk_error maxSize,
     let fresh := ScalarMessage.new maxSize junk_val junk_error in
     exists whole pieces n,
       ScalarMessage.feed fresh (mkPtr (Data 0) 0) (concat chunks) = Some (whole, n) /\
       feed_chunks ScalarMessage.feed fresh 0 chunks = Some (pieces, n) /\
       FramedMessage.state whole = FramedMessage.state pieces /\
       ScalarMessage.errorCode whole = ScalarMessage.errorCode pieces /\
       bytes_of (reader_memory (chunk_memory [concat chunks]) whole)
                (ScalarMessage.value whole)
       = bytes_of (reader_memory (chunk_memory chunks) pieces)
                  (ScalarMessage.value pieces)).
Proof.
  split; intros jv je m.
  - apply ArrayMessage_fragments.
  - apply ScalarMessage_fragments.
Qed.

(** One byte at a time is as good as all at once. *)
Corollary ScalarMessage_bytewise `{Host} (bytes : list byte) maxSize junk_val junk_error :
  let fresh := ScalarMessage.new maxSize junk_val junk_error in
  let bytewise := map (fun b => [b]) bytes in
  exists whole pieces n,
    ScalarMessage.feed fresh (mkPtr (Data 0) 0) bytes = Some (whole, n) /\
    feed_chunks ScalarMessage.feed fresh 0 bytewise = Some (pieces, n) /\
    FramedMessage.state whole = FramedMessage.state pieces /\
    bytes_of (reader_memory (chunk_memory [bytes]) whole) (ScalarMessage.value whole)
    = bytes_of (reader_memory (chunk_memory bytewise) pieces) (ScalarMessage.value pieces).
Proof.
  intros fresh bytewise.
  destruct (ScalarMessage_fragments bytewise junk_val junk_error maxSize)
    as (whole & pieces & n & H1 & H2 & H3 & _ & H5).
  unfold bytewise in H1, H5. rewrite concat_bytewise in H1, H5.
  by exists whole, pieces, n.
Qed.

(** Four header bytes that say 5 and then "hello", in nine calls of one
    byte: the reader is done and its value is "hello". *)
Example hello_byte_by_byte :
  let chunks := map (fun b => [b]) [x00; x00; x00; x05; x68; x65; x6c; x6c; x6f] in
  exists st,
    feed_chunks (@ScalarMessage.feed little_endian_host)
      (@ScalarMessage.new little_endian_host 0 7 9) 0 chunks = Some (st, 9) /\
    ScalarMessage.done st = true /\
    ScalarMessage.hasError st = false /\
    bytes_of (reader_memory (chunk_memory chunks) st) (ScalarMessage.value st)
    = [x68; x65; x6c; x6c; x6f].
Proof. eexists. split; [vm_compute; reflexivity|]. by vm_compute. Qed.

(** ** Complete messages *)

Section Complete.
Context `{Host}.
Variable w : nat.
Variables (R C : Type).
Variable contents : Memory -> R -> C.
Variable denote : list byte -> C.
Variables (m e0 : N) (r0 : R).

Local Abbreviation W := (N.of_nat w).
Local Abbreviation T := (Tracking.tracks w R C contents denote m e0 r0).

Lemma header_of_wire v body extra :
  v < 256 ^ W ->
  Tracking.header_of w (be_encode w v ++ body ++ extra) = v.
Proof.
  intros Hv. unfold Tracking.header_of.
  rewrite ntake_app_le by (unfold size; rewrite length_be_encode; lia).
  rewrite ntake_all by (unfold size; rewrite length_be_encode; lia).
  rewrite be_decode_encode. by apply N.mod_small.
Qed.

(** A reader that was offered a whole message under the ceiling is done,
    has consumed the message and nothing else, and holds its body. *)
Lemma tracks_complete env v body extra st n :
  v < 256 ^ W -> size body = v ->
  Tracking.too_large m v = false ->
  T env (be_encode w v ++ body ++ extra) st n ->
  FramedMessage.state st = DONE /\
  n = W + v /\
  FramedMessage.error st = e0 /\
  (if decide (v = 0) then FramedMessage.result st = r0
   else contents (reader_memory env st) (FramedMessage.result st) = denote body).
Proof.
  intros Hv Hbody Htl Htr.
  pose proof (header_of_wire v body extra Hv) as Hho.
  assert (Hsz : size (be_encode w v ++ body ++ extra) = W + v + size extra).
  { rewrite !size_app. unfold size at 1. rewrite length_be_encode. lia. }
  destruct Htr; rewrite ?Hho, ?Hsz in *; try (exfalso; (lia || congruence)).
  - repeat (split; [done || lia|]). case_decide; [done|lia].
  - repeat (split; [done || lia|]). case_decide; [done|].
    match goal with Hc : contents _ _ = _ |- _ => rewrite Hc end. f_equal.
    rewrite ndrop_app_ge by (unfold size; rewrite length_be_encode; lia).
    unfold size at 1. rewrite length_be_encode, N.sub_diag, ndrop_0.
    rewrite ntake_app_le by lia. apply ntake_all. lia.
Qed.

(** A reader that was offered a header above the ceiling is in error and
    has consumed the header and nothing else. *)
Lemma tracks_too_large env fed st n :
  W <= size fed ->
  Tracking.too_large m (Tracking.header_of w fed) = true ->
  T env fed st n ->
  FramedMessage.state st = ERROR /\ n = W /\
  FramedMessage.error st = TOO_LARGE /\
  FramedMessage.buffer st = [] /\ FramedMessage.result st = r0.
Proof.
  intros Hle Htl Htr.
  destruct Htr; try (exfalso; (lia || congruence)). done.
Qed.
End Complete.

(** ** The generators *)

Lemma uint32_small n : n < 2 ^ 32 -> uint32 n = n.
Proof. apply N.mod_small. Qed.

Section Generators.
Context `{Host}.

(** The views written by the second loop of [ArrayMessage::generate]. *)
Lemma generate_out_spec args : forall i written todo,
  size written = 1 + 2 * i ->
  2 * size args <= size todo ->
  1 + 2 * (i + size args) < 2 ^ 32 ->
  ArrayMessage.generate_out args i (written ++ todo)
  = written ++ item_views args ++ ndrop (2 * size args) todo.
Proof.
  induction args as [|a args IH]; intros i written todo Hw Htodo Hi.
  - by rewrite ndrop_0.
  - rewrite size_cons in *.
    destruct todo as [|x [|y todo]];
      [rewrite ?size_cons, ?size_nil in Htodo; lia..|].
    rewrite !size_cons in Htodo.
    cbn [ArrayMessage.generate_out].
    rewrite !uint32_small by lia.
    replace (N.to_nat (1 + 2 * i)) with (length written + 0)%nat
      by (unfold size in Hw; lia).
    rewrite insert_app_r. cbn [insert list_insert].
    replace (N.to_nat (1 + 2 * i + 1)) with (length written + 1)%nat
      by (unfold size in Hw; lia).
    rewrite insert_app_r. cbn [insert list_insert].
    replace (written ++ a :: mkStaticString (mkPtr NulLiteral 0) 1 :: todo)
      with ((written ++ [a; mkStaticString (mkPtr NulLiteral 0) 1]) ++ todo)
      by (by rewrite <- app_assoc).
    rewrite IH; [|rewrite size_app; change (size [_; _]) with 2; lia|lia|lia].
    rewrite <- app_assoc. simpl. do 3 f_equal.
    unfold ndrop. replace (N.to_nat (2 * (size args + 1)))
      with (S (S (N.to_nat (2 * size args)))) by lia. done.
Qed.


Lemma size_le_body_length args : size args <= body_length args.
Proof.
  induction args as [|a args IH]; [done|].
  rewrite size_cons. simpl. lia.
Qed.

(** The first loop of [ArrayMessage::generate] computes the body length
    when that fits an [unsigned int]. *)
Lemma generate_size_spec args : forall acc,
  acc + body_length args < 2 ^ 32 ->
  fold_left (fun sz a => uint32 (sz + (len a + 1))) args acc
  = acc + body_length args.
Proof.
  induction args as [|a args IH]; intros acc Hacc; simpl in *; [lia|].
  rewrite uint32_small by lia. rewrite IH by lia. lia.
Qed.

Lemma ArrayMessage_generate_spec args out :
  body_length args <= 0xFFFF ->
  2 * size args + 1 <= size out ->
  ArrayMessage.generate args out
  = inr (be_encode 2 (body_length args),
         mkStaticString (mkPtr HeaderBuf 0) 2
           :: item_views args ++ ndrop (2 * size args + 1) out).
Proof.
  intros Hbody Hout. pose proof (size_le_body_length args) as Hn.
  unfold ArrayMessage.generate, ArrayMessage.outputSize.
  rewrite uint32_small by lia.
  replace (size out <? size args * 2 + 1) with false
    by (symmetry; apply N.ltb_ge; lia).
  rewrite generate_size_spec by (simpl; lia). rewrite N.add_0_l.
  replace (65535 <? body_length args) with false
    by (symmetry; apply N.ltb_ge; lia).
  unfold Uint16Message.generate. rewrite UintMessage_generate_be.
  destruct out as [|x todo]; [rewrite size_nil in Hout; lia|].
  rewrite size_cons in Hout. cbn [insert list_insert].
  change (?h :: todo) with ([h] ++ todo).
  rewrite generate_out_spec by (done || lia). simpl. do 3 f_equal.
  unfold ndrop. by replace (N.to_nat (2 * size args + 1))
    with (S (N.to_nat (2 * size args))) by lia.
Qed.

(** What the item views say on the wire: the body of the message. *)
Lemma item_views_bytes mem args :
  concat (map (bytes_of mem) (item_views args))
  = array_body (map (bytes_of mem) args).
Proof.
  unfold array_body, item_views.
  induction args as [|a args IH]; [done|].
  simpl. rewrite IH. by rewrite <- app_assoc.
Qed.

Lemma size_array_body mem args :
  Forall (valid_view mem) args ->
  size (array_body (map (bytes_of mem) args)) = body_length args.
Proof.
  unfold array_body.
  induction 1 as [|a args Ha _ IH]; [done|].
  simpl. rewrite !size_app, IH, Ha. change (size [NUL]) with 1. lia.
Qed.

Lemma take_views {A} (x : A) (views rest : list A) n :
  n = size views + 1 -> ntake n (x :: views ++ rest) = x :: views.
Proof.
  intros ->. change (x :: views ++ rest) with ((x :: views) ++ rest).
  rewrite ntake_app_le by (rewrite size_cons; lia).
  apply ntake_all. rewrite size_cons. lia.
Qed.

Lemma size_item_views args : size (item_views args) = 2 * size args.
Proof.
  induction args as [|a args IH]; [done|].
  change (item_views (a :: args))
    with (a :: mkStaticString (mkPtr NulLiteral 0) 1 :: item_views args).
  rewrite !size_cons, IH. lia.
Qed.

(** An array message written out and read back by a fresh reader. *)
Lemma ArrayMessage_round_trip mem args out junk_val junk_error :
  body_length args <= 0xFFFF ->
  2 * size args + 1 <= size out ->
  exists headerBuf out',
    ArrayMessage.generate args out = inr (headerBuf, out') /\
    let mem' := write_region mem HeaderBuf headerBuf in
    let wire := concat (map (bytes_of mem') (ntake (2 * size args + 1) out')) in
    Forall (valid_view mem') args ->
    Forall (fun a => NUL ∉ bytes_of mem' a) args ->
    exists st,
      ArrayMessage.feed (ArrayMessage.new junk_val junk_error)
        (mkPtr (Data 0) 0) wire = Some (st, size wire) /\
      ArrayMessage.done st = true /\
      ArrayMessage.hasError st = false /\
      map (bytes_of (reader_memory (chunk_memory [wire]) st)) (ArrayMessage.value st)
      = map (bytes_of mem') args.
Proof.
  intros Hbody Hout. eexists _, _.
  split; [by apply ArrayMessage_generate_spec|].
  intros mem' wire Hvalid Hnul.
  assert (Hwire : wire = be_encode 2 (body_length args)
                         ++ array_body (map (bytes_of mem') args) ++ []).
  { unfold wire, mem'.
    rewrite (take_views _ (item_views args)) by (rewrite size_item_views; lia).
    cbn [map concat]. rewrite item_views_bytes, app_nil_r.
    by f_equal. }
  pose proof (size_array_body mem' args Hvalid) as Hsz.
  destruct (ArrayMessage_feed_spec (chunk_memory [wire]) (mkPtr (Data 0) 0)
              wire 0 junk_error [] (ArrayMessage.new junk_val junk_error) 0)
    as (st & n & Hfeed & _ & _ & Htr).
  { done. }
  { by apply (read_chunk_memory [wire] 0). }
  { apply (array_tracks_new _ junk_val junk_error 0). }
  rewrite app_nil_l, N.add_0_l in Htr. rewrite Hwire in Htr.
  apply tracks_complete in Htr as (Hst & Hn & _ & Hres);
    [|change (256 ^ N.of_nat 2) with 65536; lia|done|done].
  exists st. rewrite Hfeed.
  replace (size wire) with n
    by (rewrite Hwire, !size_app, Hsz, Hn; unfold size; rewrite length_be_encode; simpl; lia).
  split; [done|].
  unfold ArrayMessage.done, ArrayMessage.hasError, FramedMessage.done,
    FramedMessage.hasError. rewrite Hst. split; [done|]. split; [done|].
  unfold ArrayMessage.value, FramedMessage.value.
  case_decide as Hz.
  - rewrite Hres. pose proof (size_le_body_length args).
    assert (size args = 0) as ->%size_0_nil by lia. done.
  - rewrite <- Hwire in Hres. rewrite Hres.
    rewrite <- (app_nil_r (array_body _)).
    apply split_fields_array_body; [|apply not_elem_of_nil].
    by apply Forall_map.
Qed.
End Generators.

(** ** Round trips *)

Lemma bytes_of_outside mem hdr s :
  outside_headerBuf s -> bytes_of (write_region mem HeaderBuf hdr) s = bytes_of mem s.
Proof.
  unfold outside_headerBuf, bytes_of, read, write_region, region_bytes.
  intros Hs. destruct (region (data s)); try done; by case_decide.
Qed.

Lemma map_bytes_of_outside mem hdr args :
  Forall outside_headerBuf args ->
  map (bytes_of (write_region mem HeaderBuf hdr)) args = map (bytes_of mem) args.
Proof.
  induction 1 as [|a args Ha _ IH]; [done|].
  simpl. by rewrite IH, bytes_of_outside.
Qed.

Section RoundTrip.
Context `{Host}.

Lemma array_round_trip_holds mem args out junk_val junk_error :
  body_length args <= 0xFFFF ->
  2 * size args + 1 <= size out ->
  Forall outside_headerBuf args ->
  Forall (valid_view mem) args ->
  Forall (fun a => NUL ∉ bytes_of mem a) args ->
  array_round_trip mem args out junk_val junk_error.
Proof.
  intros Hbody Hout Hout' Hvalid Hnul.
  destruct (ArrayMessage_round_trip mem args out junk_val junk_error Hbody Hout)
    as (hdr & out' & Hgen & Hrt).
  exists hdr, out'. split; [done|]. intros mem' wire.
  pose proof (size_le_body_length args).
  unfold wire, ArrayMessage.outputSize.
  rewrite uint32_small by lia. rewrite (N.mul_comm (size args)).
  rewrite <- (map_bytes_of_outside mem hdr args Hout').
  apply Hrt.
  - eapply Forall_impl; [apply Forall_and; split; [exact Hout'|exact Hvalid]|].
    intros a [Ha1 Ha2]. unfold valid_view in *. by rewrite bytes_of_outside.
  - eapply Forall_impl; [apply Forall_and; split; [exact Hout'|exact Hnul]|].
    intros a [Ha1 Ha2]. simpl. by rewrite bytes_of_outside.
Qed.

Lemma scalar_round_trip_holds mem payload junk_val junk_error :
  len payload <= 0xFFFFFFFF ->
  outside_headerBuf payload ->
  valid_view mem payload ->
  scalar_round_trip mem payload junk_val junk_error.
Proof.
  intros Hlen Hout Hvalid. unfold scalar_round_trip, ScalarMessage.generate.
  replace (4294967295 <? len payload) with false
    by (symmetry; apply N.ltb_ge; lia).
  eexists _, _, _. split; [reflexivity|].
  unfold Uint32Message.generate. rewrite UintMessage_generate_be.
  set (mem' := write_region mem HeaderBuf _).
  set (wire := bytes_of mem' _ ++ bytes_of mem' _).
  assert (Hwire : wire = be_encode 4 (len payload) ++ bytes_of mem payload ++ []).
  { unfold wire, mem'. rewrite app_nil_r, (bytes_of_outside _ _ payload) by done.
    by f_equal. }
  destruct (ScalarMessage_feed_spec (chunk_memory [wire]) (mkPtr (Data 0) 0)
              wire 0 junk_error [] (ScalarMessage.new 0 junk_val junk_error) 0)
    as (st & n & Hfeed & _ & _ & Htr).
  { done. }
  { by apply (read_chunk_memory [wire] 0). }
  { apply (scalar_tracks_new _ junk_val junk_error 0). }
  rewrite app_nil_l, N.add_0_l in Htr. rewrite Hwire in Htr.
  apply tracks_complete in Htr as (Hst & Hn & _ & Hres);
    [|change (256 ^ N.of_nat 4) with 4294967296; lia|done|done].
  exists st. rewrite Hfeed.
  replace (size wire) with n
    by (rewrite Hwire, !size_app, Hvalid, Hn; unfold size;
        rewrite length_be_encode; simpl; lia).
  split; [done|].
  unfold ScalarMessage.done, ScalarMessage.hasError, FramedMessage.done,
    FramedMessage.hasError. rewrite Hst. split; [done|]. split; [done|].
  unfold ScalarMessage.value, FramedMessage.value.
  case_decide as Hz.
  - rewrite Hres. unfold valid_view in Hvalid. rewrite Hz in Hvalid.
    by rewrite (size_0_nil _ Hvalid).
  - by rewrite <- Hwire in Hres.
Qed.
End RoundTrip.

(** C2 fails as stated: an item of valid size that holds a NUL byte is
    generated without complaint and comes back as two fields. *)
Lemma round_trip_fails_on_NUL_item :
  body_length [nul_item] <= 0xFFFF /\
  valid_view nul_item_memory nul_item /\
  ~ @array_round_trip little_endian_host nul_item_memory [nul_item]
      (replicate 3 emptyStaticString) 0 0.
Proof.
  split; [by vm_compute|]. split; [done|].
  intros (hdr & out' & Hgen & st & Hfeed & _ & _ & Hval).
  vm_compute in Hgen. injection Hgen as <- <-.
  vm_compute in Hfeed. injection Hfeed as <-.
  vm_compute in Hval. discriminate Hval.
Qed.

(** C2, amended. Round trip: for array items that hold no NUL byte, with a
    body length (items and separators) of at most 65535, and for a scalar
    payload of at most 2^32-1 bytes, feeding the concatenation of the views
    produced by [generate] to a fresh reader of the same format consumes it
    all, reaches Done without error, and [value()] reproduces the original
    fields (resp. payload) exactly. The views are valid and do not lie in
    the header scratch buffer. *)
Theorem round_trip `{Host} (mem : Memory) (args out : list StaticString)
    (payload : StaticString) (junk_val junk_error : N) :
  body_length args <= 0xFFFF ->
  2 * size args + 1 <= size out ->
  Forall outside_headerBuf args ->
  Forall (valid_view mem) args ->
  Forall (fun a => NUL ∉ bytes_of mem a) args ->
  len payload <= 0xFFFFFFFF ->
  outside_headerBuf payload ->
  valid_view mem payload ->
  array_round_trip mem args out junk_val junk_error /\
  scalar_round_trip mem payload junk_val junk_error.
Proof.
  intros. split.
  - by apply array_round_trip_holds.
  - by apply scalar_round_trip_holds.
Qed.

Lemma round_trip_witness :
  @array_round_trip little_endian_host sample_memory [sample_item]
     (replicate 3 emptyStaticString) 7 9 /\
  @scalar_round_trip little_endian_host sample_memory sample_payload 7 9.
Proof.
  apply (@round_trip little_endian_host sample_memory [sample_item]
           (replicate 3 emptyStaticString) sample_payload 7 9).
  - by vm_compute.
  - by vm_compute.
  - by repeat constructor.
  - by repeat constructor.
  - repeat constructor. by apply (bool_decide_unpack _).
  - by vm_compute.
  - done.
  - done.
Defined.

(** ** Zero-copy and buffered bodies *)

Lemma ptr_add_0 p : ptr_add p 0 = p.
Proof. destruct p. unfold ptr_add. simpl. by rewrite N.add_0_r. Qed.

Section BodyDecision.
Context `{Host}.
Variable w : nat.
Variable R : Type.
Variable bodyDone : Ptr -> list byte -> R -> R.

Lemma feed_loop_exit fuel (st : FramedMessage.t R) p bytes c :
  (c <? size bytes) && negb (FramedMessage.done st) = false ->
  FramedMessage.feed_loop w R bodyDone fuel st p bytes c = Some (st, c).
Proof. intros Hg. destruct fuel; simpl; by rewrite Hg. Qed.

Lemma feed_loop_step fuel (st : FramedMessage.t R) p bytes c :
  (c <? size bytes) && negb (FramedMessage.done st) = true ->
  FramedMessage.feed_loop w R bodyDone (S fuel) st p bytes c
  = match FramedMessage.iteration w R bodyDone st p bytes c with
    | Some (st', c') => FramedMessage.feed_loop w R bodyDone fuel st' p bytes c'
    | None => None
    end.
Proof. intros Hg. simpl. by rewrite Hg. Qed.

Lemma feed_done_noop (st : FramedMessage.t R) p bytes :
  FramedMessage.done st = true ->
  FramedMessage.feed w R bodyDone st p bytes = Some (st, 0).
Proof.
  intros Hd. apply feed_loop_exit. by rewrite Hd, andb_false_r.
Qed.

Lemma feed_empty (st : FramedMessage.t R) p :
  FramedMessage.feed w R bodyDone st p [] = Some (st, 0).
Proof. by apply feed_loop_exit. Qed.

Lemma body_decision_holds (st : FramedMessage.t R) p bytes :
  FramedMessage.state st = READING_BODY ->
  size (FramedMessage.buffer st) < UintMessage.value (FramedMessage.headerReader st) ->
  body_decision (FramedMessage.feed w R bodyDone) bodyDone st p bytes.
Proof.
  intros Hs Hinv. unfold body_decision.
  set (target := UintMessage.value (FramedMessage.headerReader st)) in *.
  assert (Hnd : FramedMessage.done st = false)
    by (unfold FramedMessage.done; by rewrite Hs).
  split.
  - (* the view into the caller's chunk *)
    intros [Hbuf Hrest].
    assert (Hpos : 0 < size bytes) by (rewrite Hbuf in Hinv; change (size []) with 0 in Hinv; lia).
    unfold FramedMessage.feed. change (2 + length bytes)%nat with (S (S (length bytes))).
    rewrite feed_loop_step
      by (rewrite Hnd, andb_true_r; by apply N.ltb_lt).
    unfold FramedMessage.iteration. rewrite Hs. fold target.
    rewrite N.sub_0_r, Hbuf.
    replace (target <=? size bytes) with true by (symmetry; by apply N.leb_le).
    rewrite bool_decide_eq_true_2 by done.
    cbn [andb]. rewrite feed_loop_exit by (by rewrite andb_false_r).
    eexists. split; [by rewrite N.add_0_l|]. simpl.
    by rewrite ndrop_0, ptr_add_0.
  - (* the owned buffer *)
    intros Hnot.
    set (toConsume := N.min (size bytes) (target - size (FramedMessage.buffer st))).
    destruct (decide (size bytes = 0)) as [Hz|Hnz].
    + apply size_0_nil in Hz as ->. rewrite feed_empty.
      exists st. unfold toConsume. change (size []) with 0.
      rewrite N.min_0_l. rewrite ntake_0, app_nil_r.
      split; [done|]. split; [done|]. rewrite Hs.
      split; [split; [done|lia]|]. split; [done|]. done.
    + unfold FramedMessage.feed.
      change (2 + length bytes)%nat with (S (S (length bytes))).
      rewrite feed_loop_step
        by (rewrite Hnd, andb_true_r; apply N.ltb_lt; lia).
      unfold FramedMessage.iteration. rewrite Hs. fold target.
      rewrite N.sub_0_r, ndrop_0.
      replace (bool_decide (FramedMessage.buffer st = []) && (target <=? size bytes))
        with false.
      2:{ symmetry. apply andb_false_iff.
          destruct (decide (FramedMessage.buffer st = [])) as [Hb|Hb].
          - right. apply N.leb_gt. destruct (N.le_gt_cases target (size bytes)); [|done].
            exfalso. by apply Hnot.
          - left. by apply bool_decide_eq_false_2. }
      fold toConsume. rewrite N.add_0_l.
      assert (Htc : size (ntake toConsume bytes) = toConsume)
        by (rewrite size_ntake; unfold toConsume; lia).
      destruct (size (FramedMessage.buffer st ++ ntake toConsume bytes) =? target)
        eqn:Hfull.
      * apply N.eqb_eq in Hfull.
        rewrite feed_loop_exit by (by rewrite andb_false_r).
        eexists. split; [reflexivity|]. simpl.
        split; [done|]. split; [done|]. split; [done|]. done.
      * apply N.eqb_neq in Hfull.
        rewrite feed_loop_exit.
        2:{ apply andb_false_iff. left. apply N.ltb_ge.
            rewrite size_app, Htc in Hfull. unfold toConsume in *. lia. }
        eexists. split; [reflexivity|]. simpl.
        split; [done|]. split; [split; [done|by intros ?]|].
        split; [done|]. done.
Qed.
End BodyDecision.

(** Every view [parseBody] pushes lies in the bytes it was given. *)
Lemma parseBody_loop_within p bytes start result :
  Forall (view_within p (size bytes)) result ->
  Forall (view_within p (size bytes)) (ArrayMessage.parseBody_loop p bytes start result).
Proof.
  funelim (ArrayMessage.parseBody_loop p bytes start result);
    intros Hres; clear Heqcall; [|done].
  apply H. apply Forall_app. split; [done|].
  destruct (memchr_Some _ _ _ Hfound) as (Hlt & _ & _).
  rewrite size_ndrop in Hlt.
  repeat constructor; simpl; lia.
Qed.

Lemma parseBody_within p bytes :
  Forall (view_within p (size bytes)) (ArrayMessage.parseBody p bytes []).
Proof. by apply parseBody_loop_within. Qed.

(** The header completed and the body decided in one [feed] call. *)
Section HeaderThenBody.
Context `{Host}.
Variable w : nat.
Hypothesis w_small : N.of_nat w < 256.

Lemma UintMessage_feed_prefix (m : UintMessage.t) data :
  N.of_nat w - UintMessage.consumed m <= size data ->
  UintMessage.feed w m (ntake (N.of_nat w - UintMessage.consumed m) data)
  = UintMessage.feed w m data.
Proof.
  intros Hle. unfold UintMessage.feed. rewrite size_ntake.
  replace (N.min (N.min (N.of_nat w - UintMessage.consumed m) (size data))
             (N.of_nat w - UintMessage.consumed m))
    with (N.of_nat w - UintMessage.consumed m) by lia.
  replace (N.min (size data) (N.of_nat w - UintMessage.consumed m))
    with (N.of_nat w - UintMessage.consumed m) by lia.
  rewrite (ntake_all _ (ntake _ data)) by (rewrite size_ntake; lia). done.
Qed.

Lemma UintMessage_feed_completes (m : UintMessage.t) data :
  UintMessage.consumed m < N.of_nat w ->
  N.of_nat w - UintMessage.consumed m <= size data ->
  exists m',
    UintMessage.feed w m data = (m', N.of_nat w - UintMessage.consumed m) /\
    UintMessage.done w m' = true.
Proof.
  intros Hlt Hle. unfold UintMessage.feed.
  replace (N.min (size data) (N.of_nat w - UintMessage.consumed m))
    with (N.of_nat w - UintMessage.consumed m) by lia.
  replace ((UintMessage.consumed m + (N.of_nat w - UintMessage.consumed m)) mod 256)
    with (N.of_nat w) by (rewrite N.mod_small; lia).
  replace (0 <? N.of_nat w - UintMessage.consumed m) with true
    by (symmetry; apply N.ltb_lt; lia).
  unfold UintMessage.done at 1. cbn [UintMessage.consumed andb].
  rewrite N.eqb_refl. eexists. split; [reflexivity|].
  unfold UintMessage.done. cbn [UintMessage.consumed]. apply N.eqb_refl.
Qed.

Variable R : Type.
Variable bodyDone : Ptr -> list byte -> R -> R.

Lemma body_decision_after_header_holds (st : FramedMessage.t R) p bytes :
  FramedMessage.state st = READING_HEADER ->
  UintMessage.consumed (FramedMessage.headerReader st) < N.of_nat w ->
  FramedMessage.buffer st = [] ->
  body_decision_after_header w (FramedMessage.feed w R bodyDone) bodyDone st p bytes.
Proof.
  intros Hs Hc Hbuf. unfold body_decision_after_header.
  set (missing := N.of_nat w - UintMessage.consumed (FramedMessage.headerReader st)).
  intros Hle.
  assert (Hpos : 0 < missing) by (unfold missing; lia).
  assert (Hnd : FramedMessage.done st = false)
    by (unfold FramedMessage.done; by rewrite Hs).
  destruct (UintMessage_feed_completes (FramedMessage.headerReader st) bytes Hc Hle)
    as (hr & Hfeed & Hdone).
  fold missing in Hfeed.
  pose proof (UintMessage_feed_prefix (FramedMessage.headerReader st) bytes Hle)
    as Hprefix. fold missing in Hprefix. rewrite Hfeed in Hprefix.
  assert (Hiter : forall data,
    UintMessage.feed w (FramedMessage.headerReader st) data = (hr, missing) ->
    exists st_h,
      FramedMessage.iteration w R bodyDone st p data 0 = Some (st_h, missing) /\
      FramedMessage.headerReader st_h = hr /\
      FramedMessage.buffer st_h = [] /\
      FramedMessage.result st_h = FramedMessage.result st /\
      FramedMessage.state st_h <> READING_HEADER /\
      (FramedMessage.state st_h = READING_BODY -> UintMessage.value hr <> 0) /\
      forall data',
        UintMessage.feed w (FramedMessage.headerReader st) data' = (hr, missing) ->
        FramedMessage.iteration w R bodyDone st p data' 0 = Some (st_h, missing)).
  { intros data Hdata. unfold FramedMessage.iteration. rewrite Hs, ndrop_0, Hdata, Hdone.
    rewrite N.add_0_l.
    destruct ((0 <? FramedMessage.maxSize st)
              && (FramedMessage.maxSize st <? UintMessage.value hr)) eqn:Hlarge;
      [|destruct (UintMessage.value hr =? 0) eqn:Hzero];
      (eexists; split; [reflexivity|]; cbn [FramedMessage.headerReader
         FramedMessage.buffer FramedMessage.result FramedMessage.state];
       split; [done|]; split; [done|]; split; [done|]; split; [done|];
       split; [first [done | by intros _; apply N.eqb_neq]|];
       intros data' Hdata'; rewrite ndrop_0, Hdata', Hdone, Hlarge, ?Hzero;
       by rewrite N.add_0_l). }
  destruct (Hiter bytes Hfeed) as (st_h & Hit & Hhr & Hbh & Hrh & Hnh & Hnz & Hsame).
  assert (Htake : size (ntake missing bytes) = missing) by (rewrite size_ntake; lia).
  exists st_h. split.
  { unfold FramedMessage.feed. cbn [Nat.add].
    rewrite feed_loop_step
      by (rewrite Hnd, andb_true_r; apply N.ltb_lt; lia).
    rewrite (Hsame _ Hprefix).
    apply feed_loop_exit. apply andb_false_iff. left. apply N.ltb_ge. lia. }
  intros Hbody. cbv zeta. rewrite Hhr.
  specialize (Hnz Hbody).
  split; [done|]. split; [lia|].
  assert (Hndh : FramedMessage.done st_h = false)
    by (unfold FramedMessage.done; by rewrite Hbody).
  split.
  - intros Htarget. rewrite size_ndrop in Htarget.
    unfold FramedMessage.feed. cbn [Nat.add].
    rewrite feed_loop_step
      by (rewrite Hnd, andb_true_r; apply N.ltb_lt; lia).
    rewrite Hit.
    rewrite feed_loop_step
      by (rewrite Hndh, andb_true_r; apply N.ltb_lt; lia).
    unfold FramedMessage.iteration. rewrite Hbody, Hhr, Hbh.
    rewrite bool_decide_eq_true_2 by done.
    replace (UintMessage.value hr <=? size bytes - missing) with true
      by (symmetry; apply N.leb_le; lia).
    cbn [andb].
    rewrite feed_loop_exit by (by rewrite andb_false_r).
    eexists. split; [reflexivity|].
    cbn [FramedMessage.state FramedMessage.buffer FramedMessage.result].
    by rewrite Hrh.
  - intros Htarget. rewrite size_ndrop in Htarget.
    unfold FramedMessage.feed. cbn [Nat.add].
    rewrite feed_loop_step
      by (rewrite Hnd, andb_true_r; apply N.ltb_lt; lia).
    rewrite Hit.
    destruct (decide (missing = size bytes)) as [Hall|Hmore].
    + rewrite feed_loop_exit
        by (apply andb_false_iff; left; apply N.ltb_ge; lia).
      exists st_h. rewrite Hall. split; [done|]. split; [done|]. split; [done|].
      split; [|done]. rewrite Hbh. symmetry. apply ndrop_all. lia.
    + rewrite feed_loop_step
        by (rewrite Hndh, andb_true_r; apply N.ltb_lt; lia).
      unfold FramedMessage.iteration. rewrite Hbody, Hhr, Hbh.
      replace (UintMessage.value hr <=? size bytes - missing) with false
        by (symmetry; apply N.leb_gt; lia).
      rewrite andb_false_r. change (size []) with 0. rewrite N.sub_0_r.
      replace (N.min (size bytes - missing) (UintMessage.value hr))
        with (size bytes - missing) by lia.
      cbn [app].
      rewrite (ntake_all _ (ndrop missing bytes)) by (rewrite size_ndrop; lia).
      replace (size (ndrop missing bytes) =? UintMessage.value hr) with false
        by (symmetry; apply N.eqb_neq; rewrite size_ndrop; lia).
      replace (missing + (size bytes - missing)) with (size bytes) by lia.
      rewrite feed_loop_exit
        by (apply andb_false_iff; left; apply N.ltb_ge; lia).
      eexists. split; [reflexivity|].
      cbn [FramedMessage.state FramedMessage.headerReader FramedMessage.buffer
             FramedMessage.result].
      done.
Qed.
End HeaderThenBody.

(** [parseBody] only adds views to the result, all within the bytes it was
    given. *)
Lemma parseBody_loop_appends p bytes start result :
  exists views,
    ArrayMessage.parseBody_loop p bytes start result = result ++ views /\
    Forall (view_within p (size bytes)) views.
Proof.
  funelim (ArrayMessage.parseBody_loop p bytes start result); clear Heqcall.
  - destruct H as (views & -> & Hviews).
    eexists (_ :: views).
    rewrite <- app_assoc. split; [reflexivity|].
    apply Forall_cons. split; [|done].
    destruct (memchr_Some _ _ _ Hfound) as (Hlt & _ & _).
    rewrite size_ndrop in Hlt.
    repeat constructor; simpl; lia.
  - exists []. by rewrite app_nil_r.
Qed.

(** C4. Zero-copy versus buffered body. While an ArrayMessage or a
    ScalarMessage is in ReadingBody at the start of [feed]: if its owned
    buffer is empty and the chunk holds at least the header's target
    length, the reader reaches Done, its result is made of views into the
    caller's chunk and its buffer stays empty; otherwise it appends
    min(chunk size, target - buffer size) bytes of the chunk to the owned
    buffer, and it reaches Done exactly when the buffer's length equals
    the target, with a result made of views into the owned buffer. When
    the header is completed within the same [feed] call, the same
    decision is made on the bytes of the chunk that remain after the
    header: with at least the target length remaining the result is made
    of views into the caller's chunk just after the header and nothing is
    buffered, otherwise all that remains goes to the owned buffer.
    [parseBody] only appends views that lie within the bytes it is given,
    and [setResult] is the view of those bytes. *)
Theorem zero_copy_or_buffered `{Host} (array : ArrayMessage.t)
    (scalar : ScalarMessage.t) (p : Ptr) (bytes : list byte) :
  FramedMessage.state array = READING_BODY ->
  size (FramedMessage.buffer array)
    < Uint16Message.value (FramedMessage.headerReader array) ->
  FramedMessage.state scalar = READING_BODY ->
  size (FramedMessage.buffer scalar)
    < Uint32Message.value (FramedMessage.headerReader scalar) ->
  body_decision ArrayMessage.feed ArrayMessage.parseBody array p bytes /\
  body_decision ScalarMessage.feed ScalarMessage.setResult scalar p bytes /\
  (forall q body,
     Forall (view_within q (size body)) (ArrayMessage.parseBody q body [])) /\
  (forall q body r,
     ScalarMessage.setResult q body r = mkStaticString q (size body)) /\
  (forall array0 : ArrayMessage.t,
     FramedMessage.state array0 = READING_HEADER ->
     UintMessage.consumed (FramedMessage.headerReader array0) < 2 ->
     FramedMessage.buffer array0 = [] ->
     body_decision_after_header 2 ArrayMessage.feed ArrayMessage.parseBody
       array0 p bytes) /\
  (forall scalar0 : ScalarMessage.t,
     FramedMessage.state scalar0 = READING_HEADER ->
     UintMessage.consumed (FramedMessage.headerReader scalar0) < 4 ->
     FramedMessage.buffer scalar0 = [] ->
     body_decision_after_header 4 ScalarMessage.feed ScalarMessage.setResult
       scalar0 p bytes) /\
  (forall q body result,
     exists views,
       ArrayMessage.parseBody q body result = result ++ views /\
       Forall (view_within q (size body)) views).
Proof.
  intros Ha Hia Hs His. split; [|split; [|split; [|split; [|split; [|split]]]]].
  - by apply body_decision_holds.
  - by apply body_decision_holds.
  - intros q body. apply parseBody_within.
  - done.
  - intros array0 Hstate Hconsumed Hbuffer.
    by apply (body_decision_after_header_holds 2).
  - intros scalar0 Hstate Hconsumed Hbuffer.
    by apply (body_decision_after_header_holds 4).
  - intros q body result. apply parseBody_loop_appends.
Qed.

Lemma zero_copy_or_buffered_witness :
  @body_decision little_endian_host _ (@ArrayMessage.feed little_endian_host)
     ArrayMessage.parseBody array_reader_at_body (mkPtr (Data 0) 2)
     [x61; NUL; x62; NUL] /\
  @body_decision little_endian_host _ (@ScalarMessage.feed little_endian_host)
     ScalarMessage.setResult scalar_reader_at_body (mkPtr (Data 0) 2)
     [x61; NUL; x62; NUL] /\
  (exists st',
     @ArrayMessage.feed little_endian_host (@ArrayMessage.new little_endian_host 0 0) (mkPtr (Data 0) 0)
       [x00; x04; x61; NUL; x62; NUL] = Some (st', 6) /\
     FramedMessage.state st' = DONE /\
     FramedMessage.buffer st' = [] /\
     FramedMessage.result st'
     = [mkStaticString (mkPtr (Data 0) 2) 1; mkStaticString (mkPtr (Data 0) 4) 1]) /\
  (exists st',
     @ScalarMessage.feed little_endian_host
       (@ScalarMessage.new little_endian_host 0 0 0)
       (mkPtr (Data 0) 0) [x00; x00; x00; x02; x61; x62; x63] = Some (st', 6) /\
     FramedMessage.state st' = DONE /\
     FramedMessage.buffer st' = [] /\
     FramedMessage.result st' = mkStaticString (mkPtr (Data 0) 4) 2).
Proof.
  destruct (@zero_copy_or_buffered little_endian_host array_reader_at_body
              scalar_reader_at_body (mkPtr (Data 0) 2) [x61; NUL; x62; NUL])
    as (Ha & Hs & _); [done|by vm_compute|done|by vm_compute|].
  split; [done|]. split; [done|]. split.
  - destruct (@zero_copy_or_buffered little_endian_host array_reader_at_body
                scalar_reader_at_body (mkPtr (Data 0) 0)
                [x00; x04; x61; NUL; x62; NUL])
      as (_ & _ & _ & _ & Harray & _); [done|by vm_compute|done|by vm_compute|].
    destruct (Harray (@ArrayMessage.new little_endian_host 0 0) eq_refl ltac:(by vm_compute) eq_refl
                ltac:(by vm_compute))
      as (st_h & Hheader & Hbody).
    vm_compute in Hheader. injection Hheader as <-.
    destruct (Hbody eq_refl) as (_ & _ & Hview & _).
    destruct (Hview ltac:(by vm_compute)) as (st' & Hfeed & Hstate & Hbuffer & Hresult).
    exists st'. split; [exact Hfeed|]. split; [exact Hstate|].
    split; [exact Hbuffer|]. rewrite Hresult. by vm_compute.
  - destruct (@zero_copy_or_buffered little_endian_host array_reader_at_body
                scalar_reader_at_body (mkPtr (Data 0) 0)
                [x00; x00; x00; x02; x61; x62; x63])
      as (_ & _ & _ & _ & _ & Hscalar & _); [done|by vm_compute|done|by vm_compute|].
    destruct (Hscalar (@ScalarMessage.new little_endian_host 0 0 0) eq_refl ltac:(by vm_compute) eq_refl
                ltac:(by vm_compute))
      as (st_h & Hheader & Hbody).
    vm_compute in Hheader. injection Hheader as <-.
    destruct (Hbody eq_refl) as (_ & _ & Hview & _).
    destruct (Hview ltac:(by vm_compute)) as (st' & Hfeed & Hstate & Hbuffer & Hresult).
    exists st'. split; [exact Hfeed|]. split; [exact Hstate|].
    split; [exact Hbuffer|]. rewrite Hresult. by vm_compute.
Defined.

(** ** Histories of chunks *)

Section History.
Context `{Host}.
Variable w : nat.
Hypothesis w_pos : 0 < N.of_nat w.
Hypothesis w_small : N.of_nat w < 256.
Variables (R C : Type).
Variable bodyDone : Ptr -> list byte -> R -> R.
Variable contents : Memory -> R -> C.
Variable denote : list byte -> C.
Variables (m e0 : N) (r0 : R).
Hypothesis bodyDone_denote : forall mem p bytes,
  read mem p (size bytes) = bytes ->
  contents mem (bodyDone p bytes r0) = denote bytes.
Variable fresh : FramedMessage.t R.
Hypothesis fresh_tracks : forall env,
  Tracking.tracks w R C contents denote m e0 r0 env [] fresh 0.
Hypothesis fresh_maxSize : FramedMessage.maxSize fresh = m.
Hypothesis fresh_result : FramedMessage.result fresh = r0.

Local Abbreviation W := (N.of_nat w).
Local Abbreviation T := (Tracking.tracks w R C contents denote m e0 r0).
Local Abbreviation feed := (FramedMessage.feed w R bodyDone).

(** After any chunks, one more [feed] returns and the reader tracks what
    was offered. *)
Lemma history_spec chunks c :
  let env := chunk_memory (chunks ++ [c]) in
  exists st total st' n,
    feed_chunks feed fresh 0 chunks = Some (st, total) /\
    T env (concat chunks) st total /\
    feed st (mkPtr (Data (size chunks)) 0) c = Some (st', n) /\
    n <= size c /\
    (FramedMessage.done st' = false -> n = size c) /\
    T env (concat chunks ++ c) st' (total + n).
Proof.
  intros env.
  destruct (feed_chunks_spec w w_pos w_small R C bodyDone contents denote m e0 r0
              bodyDone_denote env chunks 0 [] fresh 0)
    as (st & total & Hchunks & Htr); [|done|].
  { intros i c' Hi. rewrite N.add_0_l. apply read_chunk_memory.
    by apply lookup_app_l_Some. }
  rewrite app_nil_l, N.add_0_l in Htr.
  destruct (feed_spec w w_pos w_small R C bodyDone contents denote m e0 r0
              bodyDone_denote env (mkPtr (Data (size chunks)) 0) c)
    with (fed := concat chunks) (st := st) (total := total)
    as (st' & n & Hfeed & Hn & Hall & Htr'); [done| |done|].
  { apply read_chunk_memory.
    rewrite lookup_app_r by done. by rewrite Nat.sub_diag. }
  by exists st, total, st', n.
Qed.

Lemma tracks_total_le env fed st total :
  T env fed st total -> total <= message_end w m fed.
Proof.
  unfold message_end. intros [];
    repeat match goal with
           | |- context [_ <? _] => case_match
           | |- context [Tracking.too_large _ _] => case_match
           | Hx : (_ <? _) = true |- _ => apply N.ltb_lt in Hx
           | Hx : (_ <? _) = false |- _ => apply N.ltb_ge in Hx
           end; try (lia || congruence).
Qed.

Lemma consumes_only_needed_holds chunks c :
  consumes_only_needed w feed fresh chunks c.
Proof.
  destruct (history_spec chunks c)
    as (st & total & st' & n & Hchunks & _ & Hfeed & Hn & Hall & Htr').
  exists st, total, st', n. repeat split; try done.
  rewrite fresh_maxSize. by eapply tracks_total_le.
Qed.

Lemma enforces_ceiling_holds pre c :
  0 < m -> enforces_ceiling w feed fresh m pre c.
Proof.
  intros Hm. unfold enforces_ceiling. cbv zeta. intros Hlt Hge.
  destruct (history_spec pre c)
    as (st & total & st' & n & Hchunks & Htr & Hfeed & Hn & Hall & Htr').
  assert (Hst : FramedMessage.state st = READING_HEADER /\ total = size (concat pre)).
  { destruct Htr; try lia. done. }
  destruct Hst as [Hst ->].
  exists st, st', n. split; [done|]. split; [done|]. split; [done|].
  unfold FramedMessage.hasError, FramedMessage.errorCode.
  split; [|split].
  - intros Hhdr. apply bool_decide_eq_false_2. intros Herr.
    destruct Htr'; try congruence.
    unfold Tracking.too_large in *.
    rewrite Hhdr, N.ltb_irrefl, andb_false_r in *. done.
  - intros Hhdr.
    assert (Htl : Tracking.too_large m (Tracking.header_of w (concat pre ++ c)) = true).
    { rewrite Hhdr. unfold Tracking.too_large.
      apply andb_true_iff. split; apply N.ltb_lt; lia. }
    destruct (tracks_too_large w R C contents denote m e0 r0 _ _ _ _ Hge Htl Htr')
      as (Hs & Hn' & He & Hb & Hr).
    rewrite Hs, fresh_result. repeat split; try done. lia.
  - intros Herr%bool_decide_eq_true.
    destruct Htr'; try congruence.
    unfold Tracking.too_large in *.
    match goal with Htl : _ && _ = true |- _ =>
      apply andb_true_iff in Htl as [_ Htl%N.ltb_lt] end.
    repeat split; try done. lia.
Qed.
End History.

Section ReaderHistories.
Context `{Host}.

Lemma ArrayMessage_consumes_only_needed junk_val junk_error maxSize chunks c :
  consumes_only_needed 2 ArrayMessage.feed
    (ArrayMessage.setMaxSize maxSize (ArrayMessage.new junk_val junk_error))
    chunks c.
Proof.
  apply (consumes_only_needed_holds 2 ltac:(done) ltac:(done) _ _
           ArrayMessage.parseBody (fun mem views => map (bytes_of mem) views)
           (split_fields []) maxSize junk_error []
           (fun mem q bytes => parseBody_spec mem q bytes)); try done.
  intros env. apply array_tracks_new.
Qed.

Lemma ScalarMessage_consumes_only_needed junk_val junk_error maxSize chunks c :
  consumes_only_needed 4 ScalarMessage.feed
    (ScalarMessage.new maxSize junk_val junk_error) chunks c.
Proof.
  apply (consumes_only_needed_holds 4 ltac:(done) ltac:(done) _ _
           ScalarMessage.setResult bytes_of (fun body => body)
           maxSize junk_error emptyStaticString setResult_denote); try done.
  intros env. apply scalar_tracks_new.
Qed.

Lemma ArrayMessage_enforces_ceiling junk_val junk_error m pre c :
  0 < m ->
  enforces_ceiling 2 ArrayMessage.feed
    (ArrayMessage.setMaxSize m (ArrayMessage.new junk_val junk_error)) m pre c.
Proof.
  apply (enforces_ceiling_holds 2 ltac:(done) ltac:(done) _ _
           ArrayMessage.parseBody (fun mem views => map (bytes_of mem) views)
           (split_fields []) m junk_error []
           (fun mem q bytes => parseBody_spec mem q bytes)); try done.
  intros env. apply array_tracks_new.
Qed.

Lemma ScalarMessage_enforces_ceiling junk_val junk_error m pre c :
  0 < m ->
  enforces_ceiling 4 ScalarMessage.feed
    (ScalarMessage.setMaxSize m (ScalarMessage.new 0 junk_val junk_error)) m pre c.
Proof.
  apply (enforces_ceiling_holds 4 ltac:(done) ltac:(done) _ _
           ScalarMessage.setResult bytes_of (fun body => body)
           m junk_error emptyStaticString setResult_denote); try done.
  intros env. apply (scalar_tracks_new env junk_val junk_error m).
Qed.
End ReaderHistories.

(** C3. Ceiling enforcement: with a maximum size greater than 0 configured
    via [setMaxSize], when a [feed] call completes the header (whose first
    bytes may have come in earlier calls), a header equal to the maximum
    gives no error, and a header equal to the maximum plus one puts the
    reader in the Error state with [errorCode() == TOO_LARGE]; the reader
    is in error only if the completed header exceeds the maximum, and then
    the call has consumed the missing header bytes and nothing else, the
    buffer is empty and the result untouched: the body was never read. *)
Theorem ceiling_enforcement `{Host} (m_array m_scalar : N)
    (pre_array pre_scalar : list (list byte)) (c_array c_scalar : list byte)
    (junk_val junk_error : N) :
  0 < m_array -> 0 < m_scalar ->
  enforces_ceiling 2 ArrayMessage.feed
    (ArrayMessage.setMaxSize m_array (ArrayMessage.new junk_val junk_error))
    m_array pre_array c_array /\
  enforces_ceiling 4 ScalarMessage.feed
    (ScalarMessage.setMaxSize m_scalar (ScalarMessage.new 0 junk_val junk_error))
    m_scalar pre_scalar c_scalar.
Proof.
  intros Ha Hs. split.
  - by apply ArrayMessage_enforces_ceiling.
  - by apply ScalarMessage_enforces_ceiling.
Qed.

Lemma ceiling_enforcement_witness :
  (exists st st',
     feed_chunks (@ArrayMessage.feed little_endian_host)
       (ArrayMessage.setMaxSize 4 (@ArrayMessage.new little_endian_host 7 9))
       0 [[x00]] = Some (st, 1) /\
     @ArrayMessage.feed little_endian_host st (mkPtr (Data 1) 0) [x05; x61; x62]
       = Some (st', 1) /\
     FramedMessage.hasError st' = true /\
     FramedMessage.errorCode st' = TOO_LARGE) /\
  (exists st st' n,
     feed_chunks (@ScalarMessage.feed little_endian_host)
       (ScalarMessage.setMaxSize 5
          (@ScalarMessage.new little_endian_host 0 7 9))
       0 [[x00; x00]] = Some (st, 2) /\
     @ScalarMessage.feed little_endian_host st (mkPtr (Data 1) 0)
       [x00; x05; x68; x65] = Some (st', n) /\
     FramedMessage.hasError st' = false).
Proof.
  destruct (@ceiling_enforcement little_endian_host 4 5 [[x00]] [[x00; x00]]
              [x05; x61; x62] [x00; x05; x68; x65] 7 9) as [Ha Hs];
    [done|done|].
  destruct Ha as (st & st' & n & H1 & _ & H2 & _ & Herr & _);
    [by vm_compute|by vm_compute|].
  destruct Hs as (st2 & st2' & n2 & H3 & _ & H4 & Hok & _);
    [by vm_compute|by vm_compute|].
  destruct Herr as (He1 & He2 & -> & _); [by vm_compute|].
  split.
  - by exists st, st'.
  - exists st2, st2', n2. split; [done|]. split; [done|]. by apply Hok.
Defined.

(** C6. Consumption monotonicity and after-done no-op: [feed] of
    Uint16Message and Uint32Message consumes exactly
    min(size, width - consumed) bytes; [feed] of ArrayMessage and
    ScalarMessage, after any history of chunks, consumes no more than the
    chunk holds and no more than the message still needs; and once
    [done()] is true, [feed] of each of the four consumes 0 bytes and
    leaves the reader, with its stored value, as it was. *)
Theorem feed_consumption `{Host} :
  (forall m data,
     snd (Uint16Message.feed m data)
     = N.min (size data) (2 - UintMessage.consumed m)) /\
  (forall m data,
     snd (Uint32Message.feed m data)
     = N.min (size data) (4 - UintMessage.consumed m)) /\
  (forall junk_val junk_error maxSize chunks c,
     consumes_only_needed 2 ArrayMessage.feed
       (ArrayMessage.setMaxSize maxSize (ArrayMessage.new junk_val junk_error))
       chunks c) /\
  (forall junk_val junk_error maxSize chunks c,
     consumes_only_needed 4 ScalarMessage.feed
       (ScalarMessage.new maxSize junk_val junk_error) chunks c) /\
  (forall m data,
     Uint16Message.done m = true -> Uint16Message.feed m data = (m, 0)) /\
  (forall m data,
     Uint32Message.done m = true -> Uint32Message.feed m data = (m, 0)) /\
  (forall st p bytes,
     ArrayMessage.done st = true -> ArrayMessage.feed st p bytes = Some (st, 0)) /\
  (forall st p bytes,
     ScalarMessage.done st = true -> ScalarMessage.feed st p bytes = Some (st, 0)).
Proof.
  split; [intros; apply UintMessage_feed_consumes|].
  split; [intros; apply UintMessage_feed_consumes|].
  repeat split.
  - intros. apply ArrayMessage_consumes_only_needed.
  - intros. apply ScalarMessage_consumes_only_needed.
  - intros m data. by apply UintMessage_feed_done.
  - intros m data. by apply UintMessage_feed_done.
  - intros st p bytes. apply feed_done_noop.
  - intros st p bytes. apply feed_done_noop.
Qed.

Lemma feed_consumption_witness :
  @Uint16Message.feed little_endian_host
     {| UintMessage.val := [x03; x00]; UintMessage.consumed := 2 |} [x61; x62]
  = ({| UintMessage.val := [x03; x00]; UintMessage.consumed := 2 |}, 0) /\
  @ScalarMessage.feed little_endian_host
     (FramedMessage.mk 0 {| UintMessage.val := [x00; x00; x00; x00];
                            UintMessage.consumed := 4 |}
        DONE 0 [] emptyStaticString)
     (mkPtr (Data 0) 0) [x61; x62]
  = Some (FramedMessage.mk 0 {| UintMessage.val := [x00; x00; x00; x00];
                                UintMessage.consumed := 4 |}
            DONE 0 [] emptyStaticString, 0).
Proof.
  destruct (@feed_consumption little_endian_host)
    as (_ & _ & _ & _ & H16 & _ & _ & Hscalar).
  split.
  - by apply H16.
  - by apply Hscalar.
Defined.

(** ** Array bodies *)

Lemma array_body_nil fields tail : array_body fields ++ tail = [] -> fields = [].
Proof.
  destruct fields as [|f fields]; [done|].
  unfold array_body. simpl. rewrite <- !app_assoc.
  intros Hnil%app_eq_nil. by destruct Hnil as [_ ?].
Qed.

(** C5. Array body splitting drops a trailing unterminated fragment: the
    body of an array message, made of fields that each end in a NUL and of
    a trailing byte run without a NUL, is split by [parseBody] into views
    that denote the fields in order, the trailing run being dropped; and a
    fresh ArrayMessage fed the message in any chunks (through the
    caller's-chunk path or the owned buffer) reaches Done with those
    fields as its value. *)
Theorem array_body_splitting `{Host} (fields : list (list byte)) (tail : list byte)
    (chunks : list (list byte)) (junk_val junk_error : N) :
  let body := array_body fields ++ tail in
  Forall (fun f => NUL ∉ f) fields ->
  NUL ∉ tail ->
  size body <= 0xFFFF ->
  concat chunks = be_encode 2 (size body) ++ body ->
  (forall mem p,
     read mem p (size body) = body ->
     map (bytes_of mem) (ArrayMessage.parseBody p body []) = fields) /\
  exists st,
    feed_chunks ArrayMessage.feed (ArrayMessage.new junk_val junk_error) 0 chunks
    = Some (st, 2 + size body) /\
    FramedMessage.state st = DONE /\
    map (bytes_of (reader_memory (chunk_memory chunks) st)) (ArrayMessage.value st)
    = fields.
Proof.
  intros body Hfields Htail Hsize Hchunks. split.
  - intros mem p Hread. rewrite parseBody_spec by done.
    by apply split_fields_array_body.
  - destruct (ArrayMessage_feed_chunks_spec chunks 0 junk_error
                (ArrayMessage.new junk_val junk_error))
      as (st & n & Hfeed & Htr); [apply (array_tracks_new _ junk_val junk_error 0)|].
    rewrite Hchunks in Htr.
    replace (be_encode 2 (size body) ++ body)
      with (be_encode 2 (size body) ++ body ++ []) in Htr by (by rewrite app_nil_r).
    apply tracks_complete in Htr as (Hst & -> & _ & Hres);
      [|change (256 ^ N.of_nat 2) with 65536; lia|done|done].
    exists st. split; [done|]. split; [done|].
    unfold ArrayMessage.value, FramedMessage.value.
    case_decide as Hz.
    + rewrite Hres. apply size_0_nil in Hz.
      by rewrite (array_body_nil fields tail Hz).
    + rewrite Hres. by apply split_fields_array_body.
Qed.

Lemma array_body_splitting_witness :
  (* "a\0b\0c\0" gives a, b, c: in one piece, and cut inside the body *)
  (map (bytes_of (chunk_memory [[x61; NUL; x62; NUL; x63; NUL]]))
       (ArrayMessage.parseBody (mkPtr (Data 0) 0) [x61; NUL; x62; NUL; x63; NUL] [])
   = [[x61]; [x62]; [x63]] /\
   exists st,
     feed_chunks (@ArrayMessage.feed little_endian_host)
       (@ArrayMessage.new little_endian_host 7 9) 0
       [[x00; x06; x61; NUL; x62]; [NUL; x63; NUL]] = Some (st, 8) /\
     FramedMessage.state st = DONE /\
     map (bytes_of (reader_memory
                      (chunk_memory [[x00; x06; x61; NUL; x62]; [NUL; x63; NUL]]) st))
         (ArrayMessage.value st)
     = [[x61]; [x62]; [x63]]) /\
  (* "a\0b\0c" gives a, b: c is dropped *)
  (map (bytes_of (chunk_memory [[x61; NUL; x62; NUL; x63]]))
       (ArrayMessage.parseBody (mkPtr (Data 0) 0) [x61; NUL; x62; NUL; x63] [])
   = [[x61]; [x62]] /\
   exists st,
     feed_chunks (@ArrayMessage.feed little_endian_host)
       (@ArrayMessage.new little_endian_host 7 9) 0
       [[x00; x05; x61; NUL; x62; NUL; x63]] = Some (st, 7) /\
     FramedMessage.state st = DONE /\
     map (bytes_of (reader_memory
                      (chunk_memory [[x00; x05; x61; NUL; x62; NUL; x63]]) st))
         (ArrayMessage.value st)
     = [[x61]; [x62]]).
Proof.
  split.
  - destruct (@array_body_splitting little_endian_host [[x61]; [x62]; [x63]] []
                [[x00; x06; x61; NUL; x62]; [NUL; x63; NUL]] 7 9)
      as [Hparse Hfeed].
    + repeat constructor; by apply (bool_decide_unpack _).
    + by apply (bool_decide_unpack _).
    + by vm_compute.
    + done.
    + split; [|exact Hfeed].
      by apply (Hparse (chunk_memory [[x61; NUL; x62; NUL; x63; NUL]])
                       (mkPtr (Data 0) 0)).
  - destruct (@array_body_splitting little_endian_host [[x61]; [x62]] [x63]
                [[x00; x05; x61; NUL; x62; NUL; x63]] 7 9)
      as [Hparse Hfeed].
    + repeat constructor; by apply (bool_decide_unpack _).
    + by apply (bool_decide_unpack _).
    + by vm_compute.
    + done.
    + split; [|exact Hfeed].
      by apply (Hparse (chunk_memory [[x61; NUL; x62; NUL; x63]])
                       (mkPtr (Data 0) 0)).
Defined.

(** ** Scalar messages in several fragments *)

Section MultiFragment.
Context `{Host}.

Lemma generate_loop_throws data : forall i total output,
  Exists (fun d => 0xFFFFFFFF < len d) data ->
  ScalarMessage.generate_loop data i total output
  = inl (ArgumentException "Data size exceeds maximum size for scalar messages.").
Proof.
  induction data as [|d data IH]; intros i total output Hex.
  - by apply Exists_nil in Hex.
  - cbn [ScalarMessage.generate_loop].
    destruct (0xFFFFFFFF <? len d) eqn:Hd; [done|].
    apply N.ltb_ge in Hd. apply Exists_cons in Hex as [Hex|Hex]; [lia|].
    by apply IH.
Qed.

Lemma generate_loop_spec data : forall i total written todo,
  Forall (fun d => len d <= 0xFFFFFFFF) data ->
  size written = 1 + i ->
  size data <= size todo ->
  i + size data < 2 ^ 32 ->
  total < 2 ^ 32 ->
  ScalarMessage.generate_loop data i total (written ++ todo)
  = inr (uint32 (total + total_length data),
         written ++ data ++ ndrop (size data) todo).
Proof.
  induction data as [|d data IH]; intros i total written todo Hok Hw Htodo Hi Ht.
  - simpl. rewrite N.add_0_r, uint32_small by done. by rewrite ndrop_0.
  - apply Forall_cons in Hok as [Hd Hok]. rewrite size_cons in *.
    destruct todo as [|x todo]; [rewrite size_nil in Htodo; lia|].
    rewrite size_cons in Htodo.
    cbn [ScalarMessage.generate_loop].
    replace (0xFFFFFFFF <? len d) with false by (symmetry; apply N.ltb_ge; lia).
    rewrite (uint32_small (i + 1)) by lia.
    replace (N.to_nat (i + 1)) with (length written + 0)%nat
      by (unfold size in Hw; lia).
    rewrite insert_app_r. cbn [insert list_insert].
    replace (written ++ d :: todo) with ((written ++ [d]) ++ todo)
      by (by rewrite <- app_assoc).
    rewrite IH; [|done|rewrite size_app; change (size [d]) with 1; lia|lia|lia|].
    2:{ unfold uint32. apply N.mod_upper_bound. done. }
    rewrite <- app_assoc. simpl.
    replace (uint32 (uint32 (total + len d) + total_length data))
      with (uint32 (total + (len d + total_length data)))
      by (unfold uint32; rewrite N.Div0.add_mod_idemp_l; f_equal; lia).
    do 4 f_equal. unfold ndrop.
    by replace (N.to_nat (size data + 1)) with (S (N.to_nat (size data))) by lia.
Qed.

Lemma generate_multi_spec data output :
  Forall (fun d => len d <= 0xFFFFFFFF) data ->
  size data + 1 <= size output ->
  size data + 1 < 2 ^ 32 ->
  ScalarMessage.generate_multi data output
  = inr (be_encode 4 (total_length data mod 2 ^ 32),
         mkStaticString (mkPtr HeaderBuf 0) 4
           :: data ++ ndrop (size data + 1) output).
Proof.
  intros Hok Hout Hcount. unfold ScalarMessage.generate_multi.
  destruct output as [|x todo]; [rewrite size_nil in Hout; lia|].
  rewrite size_cons in Hout.
  change (x :: todo) with ([x] ++ todo).
  rewrite generate_loop_spec by (done || lia).
  rewrite N.add_0_l. unfold Uint32Message.generate.
  rewrite UintMessage_generate_be. simpl. do 3 f_equal.
  unfold ndrop.
  by replace (N.to_nat (size data + 1)) with (S (N.to_nat (size data))) by lia.
Qed.
End MultiFragment.

(** C7. Multi-fragment scalar generation: given count fragments and room
    for count + 1 views, [ScalarMessage::generate] throws the argument
    error when some fragment is by itself larger than 2^32 - 1 bytes, and
    only then; otherwise it writes as header the sum of the fragment
    lengths reduced modulo 2^32, in 4 big-endian bytes (the sum is checked
    against nothing), and produces exactly count + 1 views: the header,
    then the fragments in their given order; the rest of the output array
    is left alone. *)
Theorem scalar_multi_fragment_generate `{Host} (data output : list StaticString) :
  size data + 1 <= size output ->
  size data + 1 < 2 ^ 32 ->
  (Exists (fun d => 0xFFFFFFFF < len d) data ->
     ScalarMessage.generate_multi data output
     = inl (ArgumentException "Data size exceeds maximum size for scalar messages.")) /\
  (Forall (fun d => len d <= 0xFFFFFFFF) data ->
     exists headerBuf output',
       ScalarMessage.generate_multi data output = inr (headerBuf, output') /\
       size headerBuf = 4 /\
       be_decode headerBuf = total_length data mod 2 ^ 32 /\
       ntake (size data + 1) output'
       = mkStaticString (mkPtr HeaderBuf 0) 4 :: data /\
       ndrop (size data + 1) output' = ndrop (size data + 1) output).
Proof.
  intros Hout Hcount. split.
  - intros Hex. unfold ScalarMessage.generate_multi.
    by rewrite generate_loop_throws.
  - intros Hok. eexists _, _.
    split; [by apply generate_multi_spec|].
    split; [unfold size; by rewrite length_be_encode|].
    split.
    { rewrite be_decode_encode. apply N.mod_small.
      apply N.lt_le_trans with (2 ^ 32); [by apply N.mod_upper_bound|done]. }
    change (?h :: data ++ ?rest) with ((h :: data) ++ rest).
    split.
    + rewrite ntake_app_le by (rewrite size_cons; lia).
      apply ntake_all. rewrite size_cons. lia.
    + rewrite ndrop_app_ge by (rewrite size_cons; lia).
      rewrite size_cons, N.sub_diag. apply ndrop_0.
Qed.

Lemma scalar_multi_fragment_generate_witness :
  exists headerBuf output',
    @ScalarMessage.generate_multi little_endian_host large_fragments
       (replicate 3 emptyStaticString) = inr (headerBuf, output') /\
    be_decode headerBuf = 3 /\
    output' = mkStaticString (mkPtr HeaderBuf 0) 4 :: large_fragments.
Proof.
  destruct (@scalar_multi_fragment_generate little_endian_host large_fragments
              (replicate 3 emptyStaticString)) as [_ Hok];
    [by vm_compute|by vm_compute|].
  destruct Hok as (headerBuf & output' & Hgen & _ & Hdec & Htake & _).
  { repeat constructor; by vm_compute. }
  exists headerBuf, output'. split; [done|]. split; [done|].
  injection Hgen as _ <-. done.
Defined.

(** ** MultiLibeio *)

Section MultiLibeioFacts.
Import MultiLibeio.
Variable not_threadsafe : bool.

Lemma new_address_fresh (h : gmap nat Data) : h !! new_address h = None.
Proof. apply not_elem_of_dom. unfold new_address. apply is_fresh. Qed.

Lemma MAKE_REQUEST_rejected d ty pr s :
  MAKE_REQUEST d ty pr false s = (None, s).
Proof.
  unfold MAKE_REQUEST. cbn [eio_submit]. f_equal.
  destruct s as [g h e a tr]. cbn [globals heap engine asyncs trace].
  f_equal. apply delete_insert_id, new_address_fresh.
Qed.

Lemma MAKE_REQUEST_accepted d ty pr s :
  MAKE_REQUEST d ty pr true s
  = (Some (next_handle (engine s)),
     {| globals := globals s;
        heap := <[new_address (heap s) := d]> (heap s);
        engine := {| pending := pending (engine s)
                       ++ [mk_eio_req (next_handle (engine s)) ty pr
                             (new_address (heap s))];
                     ready := ready (engine s);
                     next_handle := S (next_handle (engine s)) |};
        asyncs := asyncs s; trace := trace s |}).
Proof. done. Qed.

Lemma submit_rejected l op pr cb s :
  submit not_threadsafe l op pr cb false s = (None, s).
Proof.
  destruct op; unfold submit, open, read, write, custom;
    destruct not_threadsafe; apply MAKE_REQUEST_rejected.
Qed.

(** An accepted submission allocates one context, which names the
    submitting reactor and the callback, and queues one request. *)
Lemma submit_accepted l op pr cb s :
  exists ty e,
    submit not_threadsafe l op pr cb true s
    = (Some (next_handle (engine s)),
       {| globals := globals s;
          heap := <[new_address (heap s) := mkData l cb e]> (heap s);
          engine := {| pending := pending (engine s)
                         ++ [mk_eio_req (next_handle (engine s)) ty pr
                               (new_address (heap s))];
                       ready := ready (engine s);
                       next_handle := S (next_handle (engine s)) |};
          asyncs := asyncs s; trace := trace s |}).
Proof.
  destruct op; unfold submit, open, read, write, custom;
    destruct not_threadsafe; eexists _, _; apply MAKE_REQUEST_accepted.
Qed.

(** [dispatch] invokes nothing: it schedules the callback on the reactor
    of the context and frees the context. *)
Lemma dispatch_effects h req es :
  dispatch h req = Some es ->
  exists d, h !! data req = Some d /\
            es = [RunAsync (libev d) (Completion (callback d) (handle req));
                  Delete (data req)].
Proof.
  unfold dispatch. destruct (h !! data req) as [d|]; [|done].
  intros [= <-]. by exists d.
Qed.

Lemma eio_poll_spec t reqs : forall s s',
  eio_poll t reqs s = Some s' ->
  (forall req, req ∈ reqs ->
     exists d, heap s !! data req = Some d /\
               Submitted (libev d) (handle req) (callback d) ∈ trace s) ->
  NoDup (data <$> reqs) ->
  trace s' = trace s /\ engine s' = engine s /\ globals s' = globals s /\
  (forall a, a ∉ data <$> reqs -> heap s' !! a = heap s !! a) /\
  (forall l code, (l, code) ∈ asyncs s' ->
     (l, code) ∈ asyncs s \/
     exists cb req, code = Completion cb req /\ Submitted l req cb ∈ trace s).
Proof.
  induction reqs as [|req reqs IH]; intros s s' Hpoll Hreqs Hnodup.
  - injection Hpoll as <-. repeat split; try done. by left.
  - cbn [eio_poll] in Hpoll.
    destruct (dispatch (heap s) req) as [es|] eqn:Hd; [|done].
    apply dispatch_effects in Hd as (d & Hlook & ->).
    destruct (Hreqs req) as (d' & Hlook' & Hsub); [by left|].
    rewrite Hlook in Hlook'. injection Hlook' as <-.
    rewrite fmap_cons in Hnodup. apply NoDup_cons in Hnodup as [Hnotin Hnodup].
    cbn [run_effects foldl run_effect] in Hpoll.
    apply IH in Hpoll as (Htr & He & Hg & Hheap & Hasync); simpl in *.
    + repeat split; try done.
      * intros a Ha. rewrite ?fmap_cons in Ha.
        apply not_elem_of_cons in Ha as [Hne Ha].
        rewrite Hheap by done. by apply lookup_delete_ne.
      * intros l code Hin. apply Hasync in Hin as [Hin|Hin]; [|by right].
        apply elem_of_app in Hin as [Hin|Hin]; [by left|].
        apply list_elem_of_singleton in Hin as [= -> ->]. right. by eexists _, _.
    + intros req' Hin. destruct (Hreqs req') as (d'' & Hl'' & Hs''); [by right|].
      exists d''. split; [|done]. rewrite lookup_delete_ne; [done|].
      intros Heq. apply Hnotin. rewrite Heq. by apply list_elem_of_fmap_2.
    + done.
Qed.

Lemma invariant_system0 : MultiLibeio_invariant system0.
Proof.
  unfold MultiLibeio_invariant, system0; simpl.
  repeat split; try (intros; exfalso; by eapply not_elem_of_nil).
  constructor.
Qed.

Lemma invariant_set_globals g s :
  MultiLibeio_invariant s -> MultiLibeio_invariant (set_globals g s).
Proof. done. Qed.

Lemma invariant_submit l op pr cb accepted s s' :
  exec not_threadsafe (DoSubmit l op pr cb accepted) s = Some s' ->
  MultiLibeio_invariant s -> MultiLibeio_invariant s'.
Proof.
  cbn [exec]. destruct accepted.
  - destruct (submit_accepted l op pr cb s) as (ty & e & ->).
    intros [= <-] (Hran & Hasync & Hreq & Hnodup & Hfresh & Huniq).
    unfold MultiLibeio_invariant. cbn [globals heap engine asyncs trace pending ready
      next_handle].
    pose proof (new_address_fresh (heap s)) as Hnew.
    split; [|split; [|split; [|split; [|split]]]].
    + intros t cb' req Hin. apply elem_of_app in Hin as [Hin|Hin].
      * destruct (Hran _ _ _ Hin) as (l' & ? & ?). exists l'.
        split; [|done]. apply elem_of_app. by left.
      * by apply list_elem_of_singleton in Hin.
    + intros l' code Hin. destruct (Hasync _ _ Hin) as (cb' & req & ? & ?).
      exists cb', req. split; [done|]. apply elem_of_app. by left.
    + intros req Hin. rewrite <- app_assoc in Hin.
      apply elem_of_app in Hin as [Hin|Hin];
        [|apply elem_of_app in Hin as [Hin|Hin]].
      * destruct (Hreq req) as (d & Hd & Hs); [apply elem_of_app; by left|].
        exists d. split; [|apply elem_of_app; by left].
        rewrite lookup_insert_ne; [done|]. intros Heq. by rewrite Heq, Hd in Hnew.
      * apply list_elem_of_singleton in Hin as ->. cbn [data handle].
        eexists. split; [apply lookup_insert_eq|].
        apply elem_of_app. right. by apply list_elem_of_singleton.
      * destruct (Hreq req) as (d & Hd & Hs); [apply elem_of_app; by right|].
        exists d. split; [|apply elem_of_app; by left].
        rewrite lookup_insert_ne; [done|]. intros Heq. by rewrite Heq, Hd in Hnew.
    + rewrite !fmap_app. cbn [fmap list_fmap data]. rewrite <- app_assoc.
      cbn [app]. rewrite fmap_app in Hnodup.
      apply NoDup_app in Hnodup as (Hp & Hdisj & Hr).
      apply NoDup_app. split; [done|]. split.
      * intros a Ha Hin. apply elem_of_cons in Hin as [->|Hin]; [|by eapply Hdisj].
        apply list_elem_of_fmap in Ha as (req & Hdata & Hin).
        destruct (Hreq req) as (d & Hd & _); [apply elem_of_app; by left|].
        congruence.
      * apply NoDup_cons. split; [|done]. intros Ha.
        apply list_elem_of_fmap in Ha as (req & Hdata & Hin).
        destruct (Hreq req) as (d & Hd & _); [apply elem_of_app; by right|].
        congruence.
    + intros l' req cb' Hin. apply elem_of_app in Hin as [Hin|Hin].
      * specialize (Hfresh _ _ _ Hin). lia.
      * apply list_elem_of_singleton in Hin as [= -> -> ->]. lia.
    + intros l1 l2 req cb1 cb2 Hin1 Hin2.
      apply elem_of_app in Hin1 as [Hin1|Hin1];
        apply elem_of_app in Hin2 as [Hin2|Hin2].
      * by eapply Huniq.
      * apply list_elem_of_singleton in Hin2 as [= -> -> ->].
        specialize (Hfresh _ _ _ Hin1). lia.
      * apply list_elem_of_singleton in Hin1 as [= -> -> ->].
        specialize (Hfresh _ _ _ Hin2). lia.
      * apply list_elem_of_singleton in Hin1 as [= -> -> ->].
        by apply list_elem_of_singleton in Hin2 as [= -> ->].
  - rewrite submit_rejected. by intros [= <-].
Qed.

Lemma invariant_work worker index s s' :
  work worker index s = Some s' ->
  MultiLibeio_invariant s -> MultiLibeio_invariant s'.
Proof.
  unfold work. destruct (pending (engine s) !! index) as [req|] eqn:Hidx; [|done].
  intros Hwork (Hran & Hasync & Hreq & Hnodup & Hfresh & Huniq).
  assert (Hperm : pending (engine s)
                  ≡ₚ req :: delete index (pending (engine s)))
    by (by apply delete_Permutation).
  assert (Hs1 : exists s1,
    (s1 = s \/ exists e, s1 = run_effects (WorkerThread worker) s
                                [Invoke (Execution e (handle req))]) /\
    s' = set_globals (wantPoll (globals s1))
           (set_engine {| pending := delete index (pending (engine s1));
                          ready := ready (engine s1) ++ [req];
                          next_handle := next_handle (engine s1) |} s1)).
  { destruct (type req).
    1-3: injection Hwork as <-; exists s; split; [by left|done].
    unfold executeWrapper in Hwork.
    destruct (heap s !! data req) as [d|]; [|done].
    destruct (execute d) as [e|]; [|done].
    injection Hwork as <-. eexists. split; [right; by exists e|done]. }
  destruct Hs1 as (s1 & Hs1 & ->).
  assert (Heq : heap s1 = heap s /\ engine s1 = engine s /\ asyncs s1 = asyncs s /\
                (forall ev, ev ∈ trace s -> ev ∈ trace s1) /\
                (forall t cb r, Ran t (Completion cb r) ∈ trace s1 ->
                   Ran t (Completion cb r) ∈ trace s)).
  { destruct Hs1 as [->|(e & ->)]; [done|].
    cbn. repeat split; try done.
    - intros ev Hin. apply elem_of_app. by left.
    - intros t cb r Hin. apply elem_of_app in Hin as [Hin|Hin]; [done|].
      by apply list_elem_of_singleton in Hin. }
  destruct Heq as (Hh & He & Ha & Hmono & Hcompl).
  unfold MultiLibeio_invariant.
  cbn [set_globals set_engine globals heap engine asyncs trace pending ready
    next_handle]. rewrite Hh, He, Ha.
  assert (Hmem : forall r, r ∈ delete index (pending (engine s))
                               ++ (ready (engine s) ++ [req]) ->
                           r ∈ pending (engine s) ++ ready (engine s)).
  { intros r Hin. apply elem_of_app in Hin as [Hin|Hin].
    - apply elem_of_app. left. by eapply list_elem_of_delete_inv.
    - apply elem_of_app in Hin as [Hin|Hin]; [apply elem_of_app; by right|].
      apply list_elem_of_singleton in Hin as ->.
      apply elem_of_app. left. by eapply list_elem_of_lookup_2. }
  assert (Hsubs : forall l r cb, Submitted l r cb ∈ trace s1 ->
                                 Submitted l r cb ∈ trace s).
  { intros l r cb Hin. destruct Hs1 as [->|(e & ->)]; [done|]. cbn in Hin.
    apply elem_of_app in Hin as [Hin|Hin]; [done|].
    by apply list_elem_of_singleton in Hin. }
  split; [|split; [|split; [|split; [|split]]]].
  - intros t cb r Hin. destruct (Hran _ _ _ (Hcompl _ _ _ Hin)) as (l & ? & ?).
    exists l. split; [by apply Hmono|done].
  - intros l code Hin. destruct (Hasync _ _ Hin) as (cb & r & ? & ?).
    exists cb, r. split; [done|by apply Hmono].
  - intros r Hin. destruct (Hreq r (Hmem r Hin)) as (d & ? & ?).
    exists d. split; [done|by apply Hmono].
  - rewrite Hperm in Hnodup.
    assert (HP : (req :: delete index (pending (engine s))) ++ ready (engine s)
                 ≡ₚ delete index (pending (engine s)) ++ ready (engine s) ++ [req]).
    { simpl. rewrite Permutation_cons_append. by rewrite <- app_assoc. }
    by rewrite HP in Hnodup.
  - intros l r cb Hin. eapply Hfresh. by apply Hsubs.
  - intros l1 l2 r cb1 cb2 Hin1 Hin2. eapply Huniq; by apply Hsubs.
Qed.

Lemma invariant_reactor index s s' :
  reactor_run index s = Some s' ->
  MultiLibeio_invariant s -> MultiLibeio_invariant s'.
Proof.
  unfold reactor_run.
  destruct (asyncs s !! index) as [[l code]|] eqn:Hidx; [|done].
  intros [= <-] (Hran & Hasync & Hreq & Hnodup & Hfresh & Huniq).
  destruct (Hasync l code) as (cb & req & -> & Hsub);
    [by eapply list_elem_of_lookup_2|].
  unfold MultiLibeio_invariant. cbn [globals heap engine asyncs trace].
  split; [|split; [|split; [|split; [|split]]]].
  - intros t cb' r Hin. apply elem_of_app in Hin as [Hin|Hin].
    + destruct (Hran _ _ _ Hin) as (l' & ? & ?). exists l'.
      split; [apply elem_of_app; by left|done].
    + apply list_elem_of_singleton in Hin as [= -> -> ->].
      exists l. split; [apply elem_of_app; by left|done].
  - intros l' code Hin. apply list_elem_of_delete_inv in Hin.
    destruct (Hasync _ _ Hin) as (cb' & r & ? & ?).
    exists cb', r. split; [done|apply elem_of_app; by left].
  - intros r Hin. destruct (Hreq r Hin) as (d & ? & ?).
    exists d. split; [done|apply elem_of_app; by left].
  - done.
  - intros l' r cb' Hin. apply elem_of_app in Hin as [Hin|Hin].
    + by eapply Hfresh.
    + by apply list_elem_of_singleton in Hin.
  - intros l1 l2 r cb1 cb2 Hin1 Hin2.
    apply elem_of_app in Hin1 as [Hin1|Hin1];
      [|by apply list_elem_of_singleton in Hin1].
    apply elem_of_app in Hin2 as [Hin2|Hin2];
      [|by apply list_elem_of_singleton in Hin2].
    by eapply Huniq.
Qed.

Lemma invariant_thread s s' :
  thread_move s = Some s' ->
  MultiLibeio_invariant s -> MultiLibeio_invariant s'.
Proof.
  unfold thread_move. destruct (thr (globals s)) as [pc|]; [|done].
  destruct (threadMain (globals s) pc) as [[| |]|]; try done;
    try (intros [= <-]; apply invariant_set_globals).
  destruct (eio_poll _ _ _) as [s2|] eqn:Hpoll; [|done].
  intros [= <-] (Hran & Hasync & Hreq & Hnodup & Hfresh & Huniq).
  rewrite fmap_app in Hnodup. apply NoDup_app in Hnodup as (Hp & Hdisj & Hr).
  apply eio_poll_spec in Hpoll as (Htr & He & Hg & Hheap & Hasync'); [|..|done].
  2:{ intros req Hin. apply Hreq. apply elem_of_app. by right. }
  cbn [set_engine globals heap engine asyncs trace] in *.
  unfold MultiLibeio_invariant.
  cbn [set_globals globals heap engine asyncs trace]. rewrite Htr, He.
  cbn [pending ready next_handle]. rewrite app_nil_r.
  split; [done|]. split; [|split; [|split; [|split]]].
  - intros l code Hin. apply Hasync' in Hin as [Hin|Hin]; [by apply Hasync|done].
  - intros req Hin. destruct (Hreq req) as (d & Hd & Hs); [apply elem_of_app; by left|].
    exists d. split; [|done]. rewrite Hheap; [done|].
    apply (Hdisj (data req)). by apply list_elem_of_fmap_2.
  - done.
  - done.
  - done.
Qed.

(** Every move of the process keeps the invariant. *)
Lemma invariant_exec label s s' :
  exec not_threadsafe label s = Some s' ->
  MultiLibeio_invariant s -> MultiLibeio_invariant s'.
Proof.
  destruct label.
  - intros [= <-]. apply invariant_set_globals.
  - intros [= <-]. apply invariant_set_globals.
  - cbn [exec]. destruct (shutdown_joined (globals s)); [|done].
    intros [= <-]. apply invariant_set_globals.
  - apply invariant_submit.
  - apply invariant_work.
  - apply invariant_thread.
  - apply invariant_reactor.
Qed.

Lemma invariant_run labels : forall s s',
  run not_threadsafe labels s = Some s' ->
  MultiLibeio_invariant s -> MultiLibeio_invariant s'.
Proof.
  induction labels as [|label labels IH]; intros s s' Hrun Hinv.
  - by injection Hrun as <-.
  - cbn [run] in Hrun.
    destruct (exec not_threadsafe label s) as [s1|] eqn:Hexec; [|done].
    eapply IH; [done|]. by eapply invariant_exec.
Qed.

Lemma invariant_reachable s :
  reachable not_threadsafe s -> MultiLibeio_invariant s.
Proof.
  intros (labels & Hrun). eapply invariant_run; [done|]. apply invariant_system0.
Qed.
End MultiLibeioFacts.

(** Membership in a list that is written out. *)
Ltac elem_of_listed :=
  cbn; repeat first [apply elem_of_cons; left; reflexivity
                    |apply elem_of_cons; right].

Section MultiLibeioClaims.
Import MultiLibeio.

Lemma one_cycle_run : run false one_cycle system0 = Some after_one_cycle.
Proof. vm_compute. reflexivity. Qed.

(** C8. Completion callbacks run only on the reactor thread: in every
    reachable state of the process, whatever the interleaving of
    submissions, workers, dispatcher thread and reactors, a completion
    callback that has run belongs to one accepted submission and was run
    by the thread of that submission's reactor, never by a worker or by
    the dispatcher thread; and the completion hook [dispatch] invokes
    nothing itself: it gives the callback to [runAsync] of the reactor
    stored in the context and frees the context. *)
Theorem completion_callbacks_on_reactor (not_threadsafe : bool) (s : System) :
  reachable not_threadsafe s ->
  (forall t cb req,
     Ran t (Completion cb req) ∈ trace s ->
     exists l,
       Submitted l req cb ∈ trace s /\
       t = ReactorThread l /\
       forall l' cb', Submitted l' req cb' ∈ trace s -> l' = l /\ cb' = cb) /\
  (forall h req es,
     dispatch h req = Some es ->
     exists d,
       h !! data req = Some d /\
       es = [RunAsync (libev d) (Completion (callback d) (handle req));
             Delete (data req)]).
Proof.
  intros (Hran & _ & _ & _ & _ & Huniq)%invariant_reachable. split.
  - intros t cb req Hin. destruct (Hran _ _ _ Hin) as (l & Hsub & ->).
    exists l. split; [done|]. split; [done|].
    intros l' cb' Hsub'. by eapply Huniq.
  - apply dispatch_effects.
Qed.

Lemma completion_callbacks_on_reactor_witness :
  Ran (ReactorThread 0) (Completion 5%nat 1%nat) ∈ trace after_one_cycle /\
  forall t, Ran t (Completion 5%nat 1%nat) ∈ trace after_one_cycle ->
            t = ReactorThread 0.
Proof.
  split; [elem_of_listed|].
  intros t Hin.
  destruct (completion_callbacks_on_reactor false after_one_cycle) as [Hran _];
    [exists one_cycle; vm_compute; reflexivity|].
  destruct (Hran t _ _ Hin) as (l & _ & -> & Huniq).
  destruct (Huniq 0%nat 5%nat) as [-> _]; [elem_of_listed|done].
Defined.

(** C9. Submission failure is synchronous and side-effect free: when the
    engine does not accept the request, [open], [read], [write] and
    [custom] return the failure indicator and leave the process exactly
    as it was: the context allocated for the submission is freed again
    and nothing is queued, scheduled or run; a completion callback runs
    in a reachable state only for a submission that was accepted; and
    when the engine accepts the request the call returns a handle. *)
Theorem submission_failure (not_threadsafe : bool) (l : nat) (op : Operation)
    (pri : Z) (cb : Callback) (s : System) :
  submit not_threadsafe l op pri cb false s = (None, s) /\
  exec not_threadsafe (DoSubmit l op pri cb false) s = Some s /\
  (exists req, (submit not_threadsafe l op pri cb true s).1 = Some req) /\
  (forall s', reachable not_threadsafe s' ->
     forall t cb' req, Ran t (Completion cb' req) ∈ trace s' ->
       exists l', Submitted l' req cb' ∈ trace s').
Proof.
  split; [apply submit_rejected|].
  split; [cbn [exec]; by rewrite submit_rejected|].
  split.
  - destruct (submit_accepted not_threadsafe l op pri cb s) as (ty & e & ->).
    by eexists.
  - intros s' (Hran & _)%invariant_reachable t cb' req Hin.
    destruct (Hran _ _ _ Hin) as (l' & Hsub & _). by exists l'.
Qed.

Lemma submission_failure_witness :
  Ran (ReactorThread 0) (Completion 5%nat 1%nat) ∈ trace after_one_cycle /\
  exists l', Submitted l' 1%nat 5%nat ∈ trace after_one_cycle.
Proof.
  split; [elem_of_listed|].
  destruct (submission_failure false 0%nat Open 0%Z 0%nat system0)
    as (_ & _ & _ & Hran).
  apply (Hran after_one_cycle) with (t := ReactorThread 0);
    [exists one_cycle; vm_compute; reflexivity|elem_of_listed].
Defined.

(** What [shutdown()] restores: the thread handle and [quit]; it leaves
    [shouldPoll] as it finds it. *)
Lemma shutdown_joined_globals g g' :
  shutdown_joined g = Some g' ->
  thr g' = None /\ quit g' = false /\ shouldPoll g' = shouldPoll g.
Proof.
  unfold shutdown_joined. destruct (thr g) as [[| |]|]; try done.
  by intros [= <-].
Qed.

(** Nothing but [wantPoll] writes [shouldPoll], and it writes [true]:
    once set, the flag stays set. *)
Lemma shouldPoll_stays_set not_threadsafe label s s' :
  exec not_threadsafe label s = Some s' ->
  shouldPoll (globals s) = true -> shouldPoll (globals s') = true.
Proof.
  destruct label; cbn [exec].
  - by intros [= <-].
  - by intros [= <-].
  - destruct (shutdown_joined (globals s)) as [g|] eqn:Hg; [|done].
    apply shutdown_joined_globals in Hg as (_ & _ & Hg).
    intros [= <-]. cbn. by rewrite Hg.
  - destruct accepted.
    + destruct (submit_accepted not_threadsafe libev0 op pri0 callback0 s)
        as (ty & e & ->). by intros [= <-].
    + rewrite submit_rejected. by intros [= <-].
  - unfold work. destruct (pending (engine s) !! index); [|done].
    destruct (match type e with EIO_CUSTOM => _ | _ => _ end); [|done].
    by intros [= <-].
  - unfold thread_move. destruct (thr (globals s)); [|done].
    destruct (threadMain (globals s) t) as [[| |]|]; try done;
      try by intros [= <-].
    destruct (eio_poll _ _ _) as [s2|] eqn:Hpoll; [|done].
    intros [= <-] Hset. cbn.
    assert (Hg : forall reqs s1 s2, eio_poll DispatcherThread reqs s1 = Some s2 ->
                   globals s2 = globals s1).
    { clear. induction reqs as [|req reqs IH]; intros s1 s2; cbn [eio_poll].
      - by intros [= <-].
      - destruct (dispatch (heap s1) req) as [es|] eqn:Hd; [|done].
        apply dispatch_effects in Hd as (d & _ & ->).
        intros Hp%IH. by rewrite Hp. }
    by rewrite (Hg _ _ _ Hpoll).
  - unfold reactor_run. destruct (asyncs s !! index) as [[l code]|]; [|done].
    by intros [= <-].
Qed.

(** C10. Dispatcher lifecycle repeatability, on the code: after one cycle
    of [init()], a submission that completes, and [shutdown()], the
    thread handle and the shutdown-requested flag are back at their
    initial values but the poll-requested flag is still set; a dispatcher
    thread started from the initial globals waits, one started by the
    next [init()] polls at once. *)
Theorem shutdown_leaves_shouldPoll_set :
  run false one_cycle system0 = Some after_one_cycle /\
  globals after_one_cycle = {| shouldPoll := true; thr := None; quit := false |} /\
  globals system0 = {| shouldPoll := false; thr := None; quit := false |} /\
  thread_move (set_globals (init (globals system0)) system0) = None /\
  is_Some (thread_move (set_globals (init (globals after_one_cycle)) after_one_cycle)).
Proof.
  split; [apply one_cycle_run|].
  split; [done|]. split; [done|]. split; [done|]. by eexists.
Qed.
End MultiLibeioClaims.

(** * Further properties of the code *)

(** ** The integer readers, fed in pieces *)

Lemma ntake_app {A} n (l1 l2 : list A) :
  ntake n (l1 ++ l2) = ntake n l1 ++ ntake (n - size l1) l2.
Proof.
  unfold ntake, size. rewrite take_app. do 2 f_equal. lia.
Qed.

Section UintChunks.
Context `{Host}.
Variable w : nat.
Hypothesis w_small : N.of_nat w < 256.

(** A reader that holds [hb] takes from the chunks what its integer still
    lacks, and nothing else. *)
Lemma UintMessage_feed_chunks_spec chunks : forall hb m,
  Tracking.header_fed w hb m ->
  let room := N.of_nat w - size hb in
  exists m',
    feed_pieces (UintMessage.feed w) m chunks = (m', N.min (size (concat chunks)) room) /\
    Tracking.header_fed w (hb ++ ntake room (concat chunks)) m'.
Proof.
  induction chunks as [|c chunks IH]; intros hb m Hfed room.
  - exists m. cbn [feed_pieces concat].
    unfold ntake. rewrite take_nil, app_nil_r. split; [|done].
    f_equal. change (size []) with 0. lia.
  - cbn [feed_pieces concat].
    destruct (UintMessage_feed_spec w w_small hb m c Hfed) as (m1 & Hf & Hfed1).
    rewrite Hf.
    destruct (IH _ _ Hfed1) as (m2 & Hrest & Hfed2). rewrite Hrest.
    exists m2.
    assert (Hhb : size hb <= N.of_nat w) by (destruct Hfed as (_ & _ & ? & _); done).
    fold room in Hfed2, Hrest |- *.
    set (n1 := N.min (size c) room) in *.
    assert (Hsz1 : size (hb ++ ntake n1 c) = size hb + n1).
    { rewrite size_app, size_ntake. unfold n1. lia. }
    rewrite Hsz1 in *.
    split.
    + f_equal. rewrite size_app. unfold n1, room. lia.
    + replace (hb ++ ntake room (c ++ concat chunks))
        with ((hb ++ ntake n1 c) ++ ntake (N.of_nat w - (size hb + n1)) (concat chunks));
        [done|].
      rewrite <- app_assoc. f_equal. rewrite ntake_app.
      destruct (decide (size c <= room)) as [Hle|Hgt].
      * replace n1 with (size c) by (unfold n1; lia).
        rewrite (ntake_all room c), (ntake_all (size c) c) by lia. do 2 f_equal. unfold room. lia.
      * replace n1 with room by (unfold n1; lia).
        replace (N.of_nat w - (size hb + room)) with 0 by (unfold room; lia).
        replace (room - size c) with 0 by lia. done.
Qed.

(** What the reader is after the chunks, from the fresh reader or from one
    that was reset. *)
Lemma UintMessage_feed_chunks_value chunks m :
  Tracking.header_fed w [] m ->
  let fed := concat chunks in
  exists m',
    feed_pieces (UintMessage.feed w) m chunks = (m', N.min (size fed) (N.of_nat w)) /\
    UintMessage.done w m' = bool_decide (N.of_nat w <= size fed) /\
    (N.of_nat w <= size fed ->
       UintMessage.value m' = be_decode (ntake (N.of_nat w) fed)).
Proof.
  intros Hfed fed.
  destruct (UintMessage_feed_chunks_spec chunks [] m Hfed) as (m' & Hf & Hfed').
  change (size []) with 0 in *. rewrite N.sub_0_r in *. simpl in Hfed'.
  fold fed in Hf, Hfed'.
  exists m'. split; [done|].
  assert (Hsz : size (ntake (N.of_nat w) fed) = N.min (N.of_nat w) (size fed))
    by apply size_ntake.
  split.
  - rewrite (header_fed_done w _ _ Hfed'), Hsz.
    apply bool_decide_ext. lia.
  - intros Hle. destruct Hfed' as (_ & _ & _ & Hv).
    rewrite Hsz in Hv.
    replace (N.min (N.of_nat w) (size fed) <? N.of_nat w) with false in Hv
      by (symmetry; apply N.ltb_ge; lia).
    done.
Qed.

(** [reset] makes a reader that has its storage take an integer anew. *)
Lemma header_fed_reset hb m :
  0 < N.of_nat w ->
  Tracking.header_fed w hb m -> Tracking.header_fed w [] (UintMessage.reset m).
Proof.
  intros Hw (Hlen & _). unfold Tracking.header_fed; simpl.
  change (size []) with 0.
  repeat split; [done|lia|].
  apply N.ltb_lt in Hw. by rewrite Hw.
Qed.
End UintChunks.

(** X1. Whatever the host's byte order and however the bytes are cut into
    chunks, a fresh Uint16Message (Uint32Message) takes the first 2 (4) of
    the bytes offered and no others, is done exactly when that many were
    offered, and then holds the number they spell most significant byte
    first. *)
Theorem uint_readers_fragmentation `{Host} (junk : N) (chunks : list (list byte)) :
  let fed := concat chunks in
  (exists m,
     feed_pieces Uint16Message.feed (Uint16Message.new junk) chunks
     = (m, N.min (size fed) 2) /\
     Uint16Message.done m = bool_decide (2 <= size fed) /\
     (2 <= size fed -> Uint16Message.value m = be_decode (ntake 2 fed))) /\
  (exists m,
     feed_pieces Uint32Message.feed (Uint32Message.new junk) chunks
     = (m, N.min (size fed) 4) /\
     Uint32Message.done m = bool_decide (4 <= size fed) /\
     (4 <= size fed -> Uint32Message.value m = be_decode (ntake 4 fed))).
Proof.
  intros fed. split.
  - apply (UintMessage_feed_chunks_value 2); [done|]. by apply header_fed_new.
  - apply (UintMessage_feed_chunks_value 4); [done|]. by apply header_fed_new.
Qed.

(** X2. The bytes [generate] writes for a number, fed back in any cut to a
    fresh reader of the same width, are all taken and leave the reader done
    with the number (reduced to the width of the integer type) as its
    value, on a host of either byte order. *)
Theorem uint_generate_feed_round_trip `{Host} (v junk : N) (chunks : list (list byte)) :
  (concat chunks = Uint16Message.generate v ->
   exists m,
     feed_pieces Uint16Message.feed (Uint16Message.new junk) chunks = (m, 2) /\
     Uint16Message.done m = true /\
     Uint16Message.value m = v mod 2 ^ 16) /\
  (concat chunks = Uint32Message.generate v ->
   exists m,
     feed_pieces Uint32Message.feed (Uint32Message.new junk) chunks = (m, 4) /\
     Uint32Message.done m = true /\
     Uint32Message.value m = v mod 2 ^ 32).
Proof.
  split; intros Hwire.
  - destruct (UintMessage_feed_chunks_value 2 ltac:(done) chunks
                (Uint16Message.new junk) (header_fed_new 2 ltac:(done) junk))
      as (m & Hf & Hd & Hv).
    unfold Uint16Message.generate in Hwire.
    rewrite Hwire, UintMessage_generate_be in Hf, Hd, Hv.
    exists m. split; [exact Hf|]. split; [exact Hd|].
    unfold Uint16Message.value. rewrite Hv by (vm_compute; done).
    rewrite ntake_all by (unfold size; rewrite length_be_encode; done).
    apply be_decode_encode.
  - destruct (UintMessage_feed_chunks_value 4 ltac:(done) chunks
                (Uint32Message.new junk) (header_fed_new 4 ltac:(done) junk))
      as (m & Hf & Hd & Hv).
    unfold Uint32Message.generate in Hwire.
    rewrite Hwire, UintMessage_generate_be in Hf, Hd, Hv.
    exists m. split; [exact Hf|]. split; [exact Hd|].
    unfold Uint32Message.value. rewrite Hv by (vm_compute; done).
    rewrite ntake_all by (unfold size; rewrite length_be_encode; done).
    apply be_decode_encode.
Qed.

(** X3. [reset] makes an integer reader start over, wherever it had got to:
    after it the reader takes the next 2 (4) bytes offered and holds their
    number, and nothing of the bytes it held before shows. *)
Theorem uint_reader_reset_reusable `{Host} (junk : N)
    (before chunks : list (list byte)) :
  let used16 := fst (feed_pieces Uint16Message.feed (Uint16Message.new junk) before) in
  let used32 := fst (feed_pieces Uint32Message.feed (Uint32Message.new junk) before) in
  let fed := concat chunks in
  (exists m,
     feed_pieces Uint16Message.feed (Uint16Message.reset used16) chunks
     = (m, N.min (size fed) 2) /\
     Uint16Message.done m = bool_decide (2 <= size fed) /\
     (2 <= size fed -> Uint16Message.value m = be_decode (ntake 2 fed))) /\
  (exists m,
     feed_pieces Uint32Message.feed (Uint32Message.reset used32) chunks
     = (m, N.min (size fed) 4) /\
     Uint32Message.done m = bool_decide (4 <= size fed) /\
     (4 <= size fed -> Uint32Message.value m = be_decode (ntake 4 fed))).
Proof.
  intros used16 used32 fed. split.
  - destruct (UintMessage_feed_chunks_spec 2 ltac:(done) before []
                (Uint16Message.new junk) (header_fed_new 2 ltac:(done) junk))
      as (m1 & Hf1 & Hfed1).
    assert (Hu : used16 = m1) by exact (f_equal fst Hf1).
    rewrite Hu. apply (UintMessage_feed_chunks_value 2); [done|].
    eapply header_fed_reset; first [exact Hfed1 | done].
  - destruct (UintMessage_feed_chunks_spec 4 ltac:(done) before []
                (Uint32Message.new junk) (header_fed_new 4 ltac:(done) junk))
      as (m1 & Hf1 & Hfed1).
    assert (Hu : used32 = m1) by exact (f_equal fst Hf1).
    rewrite Hu. apply (UintMessage_feed_chunks_value 4); [done|].
    eapply header_fed_reset; first [exact Hfed1 | done].
Qed.

(** ** What a reader keeps true *)

Section ReaderInvariant.
Context `{Host}.
Variable w : nat.
Hypothesis w_small : N.of_nat w < 256.
Variable R : Type.
Variable bodyDone : Ptr -> list byte -> R -> R.

Local Abbreviation iteration := (FramedMessage.iteration w R bodyDone).
Local Abbreviation feed_loop := (FramedMessage.feed_loop w R bodyDone).
Local Abbreviation feed := (FramedMessage.feed w R bodyDone).

Lemma length_memcpy_at raw off src :
  off + size src <= size raw -> length (memcpy_at raw off src) = length raw.
Proof.
  intros Hle. apply Nat2N.inj. fold (size (memcpy_at raw off src)). fold (size raw).
  unfold memcpy_at. rewrite !size_app, size_ntake, size_ndrop. lia.
Qed.

(** [feed] keeps the storage of an integer reader and its count in
    range. *)
Lemma UintMessage_feed_storage m data :
  length (UintMessage.val m) = w ->
  UintMessage.consumed m <= N.of_nat w ->
  length (UintMessage.val (UintMessage.feed w m data).1) = w /\
  UintMessage.consumed (UintMessage.feed w m data).1 <= N.of_nat w.
Proof.
  intros Hlen Hc. unfold UintMessage.feed. cbv zeta.
  set (n := N.min (size data) (N.of_nat w - UintMessage.consumed m)).
  assert (Hmod : (UintMessage.consumed m + n) mod 256 = UintMessage.consumed m + n)
    by (apply N.mod_small; lia).
  assert (Hcpy : length (memcpy_at (UintMessage.val m) (UintMessage.consumed m)
                           (ntake n data)) = w).
  { rewrite length_memcpy_at; [done|].
    rewrite size_ntake. assert (size (UintMessage.val m) = N.of_nat w) by (unfold size; by rewrite Hlen). lia. }
  cbn [fst]. case_match; cbn [UintMessage.val UintMessage.consumed];
    rewrite ?length_store, ?Hmod; (done || lia).
Qed.

Lemma load_lt raw : load raw < 256 ^ size raw.
Proof.
  unfold load. destruct little_endian; [|apply be_decode_lt].
  replace (size raw) with (size (rev raw)) by (unfold size; by rewrite length_rev).
  apply be_decode_lt.
Qed.

Lemma iteration_invariant st p bytes c st' c' :
  reader_invariant w st ->
  iteration st p bytes c = Some (st', c') ->
  reader_invariant w st' /\ FramedMessage.maxSize st' = FramedMessage.maxSize st.
Proof.
  intros (Hlen & Hc & Hbuf). unfold FramedMessage.iteration.
  destruct (FramedMessage.state st) eqn:Hst; [| |done|done].
  - pose proof (UintMessage_feed_storage (FramedMessage.headerReader st)
                  (ndrop c bytes) Hlen Hc) as [Hlen' Hc'].
    destruct (UintMessage.feed w _ _) as [hr n]. cbn [fst] in *.
    repeat case_match; intros [= <- <-]; (split; [|done]);
      unfold reader_invariant; cbn; rewrite ?Hst; repeat split; try done.
    + by left.
    + rewrite Hbuf. change (size []) with 0. lia.
  - destruct Hbuf as [Htl Hle].
    repeat case_match; intros [= <- <-]; (split; [|done]);
      unfold reader_invariant; cbn; rewrite ?Hst; repeat split; try done.
    + left. match goal with Hx : _ && _ = true |- _ =>
        apply andb_true_iff in Hx as [Hx%bool_decide_eq_true _]; done end.
    + right. split; [done|]. rewrite size_app, size_ntake. lia.
    + rewrite size_app, size_ntake. lia.
Qed.

Lemma feed_loop_invariant fuel : forall st p bytes c st' c',
  reader_invariant w st ->
  feed_loop fuel st p bytes c = Some (st', c') ->
  reader_invariant w st' /\ FramedMessage.maxSize st' = FramedMessage.maxSize st.
Proof.
  induction fuel as [|fuel IH]; intros st p bytes c st' c' Hinv; simpl;
    case_match; try done; try (by intros [= <- <-]).
  destruct (iteration st p bytes c) as [[st1 c1]|] eqn:Hit; [|done].
  intros Hloop.
  destruct (iteration_invariant _ _ _ _ _ _ Hinv Hit) as [Hinv1 Hm1].
  destruct (IH _ _ _ _ _ _ Hinv1 Hloop) as [Hinv' Hm']. split; [done|congruence].
Qed.

Lemma feed_chunks_invariant chunks : forall st k st' n,
  reader_invariant w st ->
  feed_chunks feed st k chunks = Some (st', n) ->
  reader_invariant w st' /\ FramedMessage.maxSize st' = FramedMessage.maxSize st.
Proof.
  induction chunks as [|c chunks IH]; intros st k st' n Hinv; simpl.
  - by intros [= <- <-].
  - destruct (feed st _ c) as [[st1 n1]|] eqn:Hf; [|done].
    destruct (feed_chunks feed st1 (k + 1) chunks) as [[st2 n2]|] eqn:Hr; [|done].
    intros [= <- <-].
    destruct (feed_loop_invariant _ _ _ _ _ _ _ Hinv Hf) as [Hinv1 Hm1].
    destruct (IH _ _ _ _ Hinv1 Hr) as [Hinv2 Hm2]. split; [done|congruence].
Qed.

(** What the invariant says of the owned buffer. *)
Lemma invariant_buffer_bound (st : FramedMessage.t R) :
  reader_invariant w st ->
  size (FramedMessage.buffer st) < 256 ^ N.of_nat w /\
  (0 < FramedMessage.maxSize st ->
   size (FramedMessage.buffer st) <= FramedMessage.maxSize st).
Proof.
  intros (Hlen & _ & Hbuf).
  pose proof (load_lt (UintMessage.val (FramedMessage.headerReader st))) as Hlt.
  unfold size at 1 in Hlt. rewrite Hlen in Hlt.
  fold (UintMessage.value (FramedMessage.headerReader st)) in Hlt.
  assert (Hpos : 0 < 256 ^ N.of_nat w) by (apply N.neq_0_lt_0, N.pow_nonzero; lia).
  assert (Hcase : FramedMessage.buffer st = [] \/
     (Tracking.too_large (FramedMessage.maxSize st)
        (UintMessage.value (FramedMessage.headerReader st)) = false /\
      size (FramedMessage.buffer st)
      <= UintMessage.value (FramedMessage.headerReader st))).
  { destruct (FramedMessage.state st); auto. }
  destruct Hcase as [->|[Htl Hle]].
  - change (size []) with 0. split; [done|lia].
  - split; [lia|]. intros Hm. unfold Tracking.too_large in Htl.
    apply N.ltb_lt in Hm. rewrite Hm in Htl. simpl in Htl.
    apply N.ltb_ge in Htl. lia.
Qed.
End ReaderInvariant.
(** ** Starting over, and what the ceiling decides *)

Section ReaderReuse.
Context `{Host}.
Variable w : nat.
Hypothesis w_pos : 0 < N.of_nat w.
Variables (R C : Type).
Variable contents : Memory -> R -> C.
Variable denote : list byte -> C.

Local Abbreviation T := (Tracking.tracks w R C contents denote).

(** The reader is in error exactly when a whole header was offered and
    says more than the ceiling allows. *)
Lemma tracks_hasError m e0 r0 env fed st n :
  T m e0 r0 env fed st n ->
  FramedMessage.hasError st = true <->
  N.of_nat w <= size fed /\ Tracking.too_large m (Tracking.header_of w fed) = true.
Proof.
  unfold FramedMessage.hasError.
  intros []; (split; [intros Herr%bool_decide_eq_true | intros [Hle Htl]]);
    try (exfalso; (lia || congruence)); try done.
  by apply bool_decide_eq_true.
Qed.

(** A reader put back to the start of a header has been offered
    nothing. *)
Lemma tracks_restart m e0 r0 env (hr : UintMessage.t) :
  length (UintMessage.val hr) = w ->
  T m e0 r0 env []
    {| FramedMessage.maxSize := m;
       FramedMessage.headerReader := UintMessage.reset hr;
       FramedMessage.state := READING_HEADER;
       FramedMessage.error := e0;
       FramedMessage.buffer := [];
       FramedMessage.result := r0 |} 0.
Proof.
  intros Hlen. apply Tracking.tracks_header; try done.
  unfold Tracking.header_fed; simpl. change (size []) with 0.
  repeat split; [done|lia|].
  apply N.ltb_lt in w_pos. by rewrite w_pos.
Qed.

(** Two readers with the same ceiling that were offered the same bytes
    agree, whatever [error] and [result] they started from; [result] is
    written only when a body that is not empty is complete. *)
Lemma tracks_agree_state m e0 e0' r0 r0' env1 env2 fed st1 st2 n1 n2 :
  T m e0 r0 env1 fed st1 n1 -> T m e0' r0' env2 fed st2 n2 ->
  FramedMessage.state st1 = FramedMessage.state st2 /\
  n1 = n2 /\
  (FramedMessage.state st1 = ERROR ->
     FramedMessage.error st1 = FramedMessage.error st2) /\
  (FramedMessage.state st1 = DONE -> Tracking.header_of w fed <> 0 ->
     contents (reader_memory env1 st1) (FramedMessage.result st1)
     = contents (reader_memory env2 st2) (FramedMessage.result st2)) /\
  (~ (FramedMessage.state st1 = DONE /\ Tracking.header_of w fed <> 0) ->
     FramedMessage.result st1 = r0 /\ FramedMessage.result st2 = r0').
Proof.
  intros [] []; try (exfalso; (lia || congruence));
    (split; [congruence|]); (split; [congruence|]);
    (split; [intros; congruence|]);
    (split; [intros; try congruence|]);
    try (intros _; by split).
  intros Hnot. exfalso. apply Hnot. by split.
Qed.
End ReaderReuse.

Section ReaderSetMaxSize.
Context `{Host}.
Variable w : nat.
Variable R : Type.
Variable bodyDone : Ptr -> list byte -> R -> R.

(** Past the header the ceiling is not looked at. *)
Lemma feed_loop_setMaxSize fuel : forall (st : FramedMessage.t R) p bytes c m,
  FramedMessage.state st <> READING_HEADER ->
  FramedMessage.feed_loop w R bodyDone fuel (FramedMessage.setMaxSize m st) p bytes c
  = (fun r => (FramedMessage.setMaxSize m r.1, r.2))
      <$> FramedMessage.feed_loop w R bodyDone fuel st p bytes c.
Proof.
  induction fuel as [|fuel IH]; intros st p bytes c m Hst;
    cbn [FramedMessage.feed_loop];
    change (FramedMessage.done (FramedMessage.setMaxSize m st))
      with (FramedMessage.done st);
    case_match; try done.
  unfold FramedMessage.iteration.
  cbn [FramedMessage.state FramedMessage.setMaxSize FramedMessage.buffer
       FramedMessage.headerReader FramedMessage.result FramedMessage.error
       FramedMessage.maxSize].
  destruct (FramedMessage.state st) eqn:Hstate; try done.
  destruct (bool_decide (FramedMessage.buffer st = []) && _);
    [|destruct (_ =? _)]; cbv beta iota;
    (rewrite <- IH by (cbn; congruence)); reflexivity.
Qed.
End ReaderSetMaxSize.
Section ReaderProperties.
Context `{Host}.

Lemma array_invariant_new jv je m :
  reader_invariant 2 (ArrayMessage.setMaxSize m (ArrayMessage.new jv je)).
Proof.
  unfold reader_invariant; cbn. rewrite length_store. repeat split; (done || lia).
Qed.

Lemma scalar_invariant_new jv je m :
  reader_invariant 4 (ScalarMessage.new m jv je).
Proof.
  unfold reader_invariant; cbn. rewrite length_store. repeat split; (done || lia).
Qed.

Lemma ArrayMessage_feed_chunks_invariant chunks st k st' n :
  reader_invariant 2 st ->
  feed_chunks ArrayMessage.feed st k chunks = Some (st', n) ->
  reader_invariant 2 st' /\ FramedMessage.maxSize st' = FramedMessage.maxSize st.
Proof. by apply feed_chunks_invariant. Qed.

Lemma ScalarMessage_feed_chunks_invariant chunks st k st' n :
  reader_invariant 4 st ->
  feed_chunks ScalarMessage.feed st k chunks = Some (st', n) ->
  reader_invariant 4 st' /\ FramedMessage.maxSize st' = FramedMessage.maxSize st.
Proof. by apply feed_chunks_invariant. Qed.

Lemma array_tracks_reset env (st : ArrayMessage.t) :
  reader_invariant 2 st ->
  array_tracks (FramedMessage.maxSize st) (FramedMessage.error st) env []
    (ArrayMessage.reset st) 0.
Proof. intros (Hlen & _). by apply tracks_restart. Qed.

(** The scalar reader against the wire format, from a [result] that need
    not be the empty view. *)
Lemma scalar_tracks_reset env zeroBuffer (st : ScalarMessage.t) :
  reader_invariant 4 st ->
  Tracking.tracks 4 StaticString (list byte) bytes_of (fun body => body)
    (FramedMessage.maxSize st) (FramedMessage.error st) (FramedMessage.result st)
    env [] (ScalarMessage.reset zeroBuffer st) 0.
Proof. intros (Hlen & _). by apply tracks_restart. Qed.

Lemma ScalarMessage_feed_chunks_spec_from r0 chunks m e0 st :
  Tracking.tracks 4 StaticString (list byte) bytes_of (fun body => body)
    m e0 r0 (chunk_memory chunks) [] st 0 ->
  exists st' n,
    feed_chunks ScalarMessage.feed st 0 chunks = Some (st', n) /\
    Tracking.tracks 4 StaticString (list byte) bytes_of (fun body => body)
      m e0 r0 (chunk_memory chunks) (concat chunks) st' n.
Proof.
  intros Htr.
  destruct (feed_chunks_spec 4 eq_refl eq_refl _ _ ScalarMessage.setResult
    bytes_of (fun body => body) m e0 r0 (fun mem p bytes Hrd => Hrd)
    (chunk_memory chunks) chunks 0 [] st 0) as (st' & n & Hf & Htr');
    [|done|by exists st', n].
  intros i c Hi. by apply read_chunk_memory.
Qed.
End ReaderProperties.

(** X4. A header that says zero ends the message at once: the reader has
    taken the header and nothing after it, is done without error, holds the
    empty result, and never touched its buffer, whatever the ceiling and
    however the bytes were cut. *)
Theorem zero_length_message `{Host} (chunks : list (list byte)) (rest : list byte)
    (junk_val junk_error maxSize : N) :
  (concat chunks = [x00; x00] ++ rest ->
   exists st,
     feed_chunks ArrayMessage.feed
       (ArrayMessage.setMaxSize maxSize (ArrayMessage.new junk_val junk_error))
       0 chunks = Some (st, 2) /\
     ArrayMessage.done st = true /\
     ArrayMessage.hasError st = false /\
     ArrayMessage.value st = [] /\
     FramedMessage.buffer st = []) /\
  (concat chunks = [x00; x00; x00; x00] ++ rest ->
   exists st,
     feed_chunks ScalarMessage.feed
       (ScalarMessage.new maxSize junk_val junk_error) 0 chunks = Some (st, 4) /\
     ScalarMessage.done st = true /\
     ScalarMessage.hasError st = false /\
     ScalarMessage.value st = emptyStaticString /\
     FramedMessage.buffer st = []).
Proof.
  split; intros Hwire.
  - destruct (ArrayMessage_feed_chunks_spec chunks maxSize junk_error _
                (array_tracks_new _ junk_val junk_error maxSize))
      as (st & n & Hf & Htr).
    rewrite Hwire in Htr.
    assert (Hh : Tracking.header_of 2 ([x00; x00] ++ rest) = 0) by done.
    assert (Hs : 2 <= size ([x00; x00] ++ rest)) by (rewrite size_app; change (size [x00; x00]) with 2; lia).
    unfold ArrayMessage.done, ArrayMessage.hasError, ArrayMessage.value,
      FramedMessage.done, FramedMessage.hasError, FramedMessage.value.
    destruct Htr as [| | | |]; rewrite ?Hh in *;
      try (exfalso; cbn in *; (lia || congruence)).
    + exfalso. unfold Tracking.too_large in *.
      match goal with Hx : _ && _ = true |- _ =>
        apply andb_true_iff in Hx as [_ Hx%N.ltb_lt]; lia end.
    + exists st. subst n. split; [exact Hf|].
      repeat match goal with Hx : FramedMessage.state st = _ |- _ =>
        rewrite Hx end. done.
  - destruct (ScalarMessage_feed_chunks_spec chunks maxSize junk_error _
                (scalar_tracks_new _ junk_val junk_error maxSize))
      as (st & n & Hf & Htr).
    rewrite Hwire in Htr.
    assert (Hh : Tracking.header_of 4 ([x00; x00; x00; x00] ++ rest) = 0) by done.
    assert (Hs : 4 <= size ([x00; x00; x00; x00] ++ rest))
      by (rewrite size_app; change (size [x00; x00; x00; x00]) with 4; lia).
    unfold ScalarMessage.done, ScalarMessage.hasError, ScalarMessage.value,
      FramedMessage.done, FramedMessage.hasError, FramedMessage.value.
    destruct Htr as [| | | |]; rewrite ?Hh in *;
      try (exfalso; cbn in *; (lia || congruence)).
    + exfalso. unfold Tracking.too_large in *.
      match goal with Hx : _ && _ = true |- _ =>
        apply andb_true_iff in Hx as [_ Hx%N.ltb_lt]; lia end.
    + exists st. subst n. split; [exact Hf|].
      repeat match goal with Hx : FramedMessage.state st = _ |- _ =>
        rewrite Hx end. done.
Qed.

(** X5. After any chunks a reader is in error exactly when a whole header
    was offered, a ceiling other than 0 is configured and the header says
    more than the ceiling; the error code is then TOO_LARGE. A ceiling of 0
    never gives an error. *)
Theorem error_exactly_above_ceiling `{Host} (chunks : list (list byte))
    (junk_val junk_error maxSize : N) :
  let fed := concat chunks in
  (exists st n,
     feed_chunks ArrayMessage.feed
       (ArrayMessage.setMaxSize maxSize (ArrayMessage.new junk_val junk_error))
       0 chunks = Some (st, n) /\
     (ArrayMessage.hasError st = true <->
      2 <= size fed /\ 0 < maxSize /\ maxSize < be_decode (ntake 2 fed)) /\
     (ArrayMessage.hasError st = true -> ArrayMessage.errorCode st = TOO_LARGE)) /\
  (exists st n,
     feed_chunks ScalarMessage.feed
       (ScalarMessage.new maxSize junk_val junk_error) 0 chunks = Some (st, n) /\
     (ScalarMessage.hasError st = true <->
      4 <= size fed /\ 0 < maxSize /\ maxSize < be_decode (ntake 4 fed)) /\
     (ScalarMessage.hasError st = true -> ScalarMessage.errorCode st = TOO_LARGE)).
Proof.
  intros fed.
  assert (Htl : forall v, Tracking.too_large maxSize v = true <-> 0 < maxSize /\ maxSize < v).
  { intros v. unfold Tracking.too_large. rewrite andb_true_iff, !N.ltb_lt. done. }
  split.
  - destruct (ArrayMessage_feed_chunks_spec chunks maxSize junk_error _
                (array_tracks_new _ junk_val junk_error maxSize))
      as (st & n & Hf & Htr).
    exists st, n. split; [exact Hf|]. split.
    + unfold ArrayMessage.hasError.
      rewrite (tracks_hasError 2 ltac:(done) _ _ _ _ _ _ _ _ _ _ _ Htr), Htl. done.
    + unfold ArrayMessage.hasError, ArrayMessage.errorCode, FramedMessage.hasError,
        FramedMessage.errorCode.
      intros Herr%bool_decide_eq_true. destruct Htr; congruence.
  - destruct (ScalarMessage_feed_chunks_spec chunks maxSize junk_error _
                (scalar_tracks_new _ junk_val junk_error maxSize))
      as (st & n & Hf & Htr).
    exists st, n. split; [exact Hf|]. split.
    + unfold ScalarMessage.hasError.
      rewrite (tracks_hasError 4 ltac:(done) _ _ _ _ _ _ _ _ _ _ _ Htr), Htl. done.
    + unfold ScalarMessage.hasError, ScalarMessage.errorCode, FramedMessage.hasError,
        FramedMessage.errorCode.
      intros Herr%bool_decide_eq_true. destruct Htr; congruence.
Qed.

(** X6. [ArrayMessage::reset] makes the reader as good as new, wherever it
    had got to (in the middle of a header or a body, done, or in error):
    what it does with the chunks that follow is what a fresh reader with
    the same ceiling does with them. *)
Theorem ArrayMessage_reset_reusable `{Host} (junk_val junk_error maxSize : N)
    (before chunks : list (list byte)) :
  let fresh := ArrayMessage.setMaxSize maxSize
                 (ArrayMessage.new junk_val junk_error) in
  exists used n0 again anew n,
    feed_chunks ArrayMessage.feed fresh 0 before = Some (used, n0) /\
    feed_chunks ArrayMessage.feed (ArrayMessage.reset used) 0 chunks
    = Some (again, n) /\
    feed_chunks ArrayMessage.feed fresh 0 chunks = Some (anew, n) /\
    FramedMessage.state again = FramedMessage.state anew /\
    (ArrayMessage.hasError again = true ->
       ArrayMessage.errorCode again = ArrayMessage.errorCode anew) /\
    map (bytes_of (reader_memory (chunk_memory chunks) again))
        (ArrayMessage.value again)
    = map (bytes_of (reader_memory (chunk_memory chunks) anew))
          (ArrayMessage.value anew).
Proof.
  intros fresh.
  destruct (ArrayMessage_feed_chunks_spec before maxSize junk_error fresh)
    as (used & n0 & Hbefore & _); [apply array_tracks_new|].
  destruct (ArrayMessage_feed_chunks_invariant _ _ _ _ _
              (array_invariant_new junk_val junk_error maxSize) Hbefore)
    as [Hinv Hmax].
  change (FramedMessage.maxSize (ArrayMessage.setMaxSize maxSize
            (ArrayMessage.new junk_val junk_error))) with maxSize in Hmax.
  pose proof (array_tracks_reset (chunk_memory chunks) used Hinv) as Hreset.
  rewrite Hmax in Hreset.
  destruct (ArrayMessage_feed_chunks_spec chunks maxSize _ _ Hreset)
    as (again & n & Hagain & Htr1).
  destruct (ArrayMessage_feed_chunks_spec chunks maxSize junk_error fresh)
    as (anew & n' & Hanew & Htr2); [apply array_tracks_new|].
  destruct (tracks_agree_state 2 ltac:(done) _ _ _ _ _ _ _ _ _ _ _ _ _ _ _ _ Htr1 Htr2)
    as (Hs & <- & He & Hc & Hr).
  exists used, n0, again, anew, n.
  split; [exact Hbefore|]. split; [exact Hagain|]. split; [exact Hanew|].
  split; [exact Hs|]. split.
  - unfold ArrayMessage.hasError, FramedMessage.hasError.
    intros Herr%bool_decide_eq_true. by apply He.
  - unfold ArrayMessage.value, FramedMessage.value.
    destruct (decide (FramedMessage.state again = DONE
                      /\ Tracking.header_of 2 (concat chunks) <> 0)) as [[Hd Hn]|Hnot].
    + by apply Hc.
    + destruct (Hr Hnot) as [-> ->]. done.
Qed.

(** X7. [ScalarMessage::reset] does not clear [result]. After it the reader
    goes through the same states and takes the same bytes as a fresh one,
    and a message with a body is decoded as by a fresh one; but until such
    a body is complete, and so also when the next message is done with an
    empty body, [value()] is still the view of the message before the
    reset, where a fresh reader has the empty view. *)
Theorem ScalarMessage_reset_keeps_result `{Host} (junk_val junk_error maxSize : N)
    (zeroBuffer : bool) (before chunks : list (list byte)) :
  let fresh := ScalarMessage.new maxSize junk_val junk_error in
  let header := be_decode (ntake 4 (concat chunks)) in
  exists used n0 again anew n,
    feed_chunks ScalarMessage.feed fresh 0 before = Some (used, n0) /\
    feed_chunks ScalarMessage.feed (ScalarMessage.reset zeroBuffer used) 0 chunks
    = Some (again, n) /\
    feed_chunks ScalarMessage.feed fresh 0 chunks = Some (anew, n) /\
    FramedMessage.state again = FramedMessage.state anew /\
    (FramedMessage.state again = DONE -> header <> 0 ->
       bytes_of (reader_memory (chunk_memory chunks) again) (ScalarMessage.value again)
       = bytes_of (reader_memory (chunk_memory chunks) anew) (ScalarMessage.value anew)) /\
    (~ (FramedMessage.state again = DONE /\ header <> 0) ->
       ScalarMessage.value again = ScalarMessage.value used /\
       ScalarMessage.value anew = emptyStaticString).
Proof.
  intros fresh header.
  destruct (ScalarMessage_feed_chunks_spec before maxSize junk_error fresh)
    as (used & n0 & Hbefore & _); [apply scalar_tracks_new|].
  destruct (ScalarMessage_feed_chunks_invariant _ _ _ _ _
              (scalar_invariant_new junk_val junk_error maxSize) Hbefore)
    as [Hinv Hmax].
  change (FramedMessage.maxSize (ScalarMessage.new maxSize junk_val junk_error))
    with maxSize in Hmax.
  pose proof (scalar_tracks_reset (chunk_memory chunks) zeroBuffer used Hinv) as Hreset.
  rewrite Hmax in Hreset.
  destruct (ScalarMessage_feed_chunks_spec_from _ chunks maxSize _ _ Hreset)
    as (again & n & Hagain & Htr1).
  destruct (ScalarMessage_feed_chunks_spec chunks maxSize junk_error fresh)
    as (anew & n' & Hanew & Htr2); [apply scalar_tracks_new|].
  destruct (tracks_agree_state 4 ltac:(done) _ _ _ _ _ _ _ _ _ _ _ _ _ _ _ _ Htr1 Htr2)
    as (Hs & <- & He & Hc & Hr).
  exists used, n0, again, anew, n.
  split; [exact Hbefore|]. split; [exact Hagain|]. split; [exact Hanew|].
  split; [exact Hs|]. split; [exact Hc|exact Hr].
Qed.

(** "hello", [reset()] and then an empty message: the reader is done and
    [value()] is still the five bytes at offset 4 of the caller's array. *)
Example ScalarMessage_stale_value :
  let hello := [x00; x00; x00; x05; x68; x65; x6c; x6c; x6f] in
  let empty := [x00; x00; x00; x00] in
  exists used st,
    @ScalarMessage.feed little_endian_host
      (@ScalarMessage.new little_endian_host 0 7 9) (mkPtr (Data 0) 0) hello
    = Some (used, 9) /\
    @ScalarMessage.feed little_endian_host
      (ScalarMessage.reset false used) (mkPtr (Data 0) 0) empty
    = Some (st, 4) /\
    ScalarMessage.done st = true /\
    ScalarMessage.value st = mkStaticString (mkPtr (Data 0) 4) 5.
Proof. do 2 eexists. split; [vm_compute; reflexivity|]. by vm_compute. Qed.

Section BackToBack.
Context `{Host}.

Lemma ArrayMessage_feed_invariant st p bytes st' n :
  reader_invariant 2 st ->
  ArrayMessage.feed st p bytes = Some (st', n) ->
  reader_invariant 2 st' /\ FramedMessage.maxSize st' = FramedMessage.maxSize st.
Proof. by apply feed_loop_invariant. Qed.

(** A whole message under the ceiling at [p], and whatever follows it:
    [feed] takes the message and leaves the reader done with the fields
    of its body. *)
Lemma ArrayMessage_feed_message env p m e0 (st : ArrayMessage.t) body rest :
  let msg := Uint16Message.generate (size body) ++ body in
  caller_owned p ->
  read env p (size (msg ++ rest)) = msg ++ rest ->
  size body <= 0xFFFF ->
  m = 0 \/ size body <= m ->
  array_tracks m e0 env [] st 0 ->
  exists st',
    ArrayMessage.feed st p (msg ++ rest) = Some (st', size msg) /\
    ArrayMessage.done st' = true /\
    ArrayMessage.hasError st' = false /\
    map (bytes_of (reader_memory env st')) (ArrayMessage.value st')
    = split_fields [] body.
Proof.
  intros msg Hp Hrd Hsz Hm Htr.
  destruct (ArrayMessage_feed_spec env p (msg ++ rest) m e0 [] st 0 Hp Hrd Htr)
    as (st' & n & Hf & _ & _ & Htr').
  rewrite app_nil_l, N.add_0_l in Htr'.
  unfold msg, Uint16Message.generate in Htr'.
  rewrite UintMessage_generate_be, <- app_assoc in Htr'.
  assert (Htl : Tracking.too_large m (size body) = false).
  { unfold Tracking.too_large. destruct Hm as [->|Hle]; [done|].
    apply andb_false_iff. right. apply N.ltb_ge. lia. }
  destruct (tracks_complete 2 _ _ _ _ m e0 [] env (size body) body rest st' n
              ltac:(change (256 ^ N.of_nat 2) with 65536; lia) eq_refl Htl Htr')
    as (Hs & -> & _ & Hres).
  assert (Hmsg : size msg = N.of_nat 2 + size body).
  { unfold msg, Uint16Message.generate.
    rewrite UintMessage_generate_be, size_app. unfold size at 1.
    by rewrite length_be_encode. }
  exists st'. rewrite Hmsg. split; [exact Hf|].
  unfold ArrayMessage.done, ArrayMessage.hasError, ArrayMessage.value,
    FramedMessage.done, FramedMessage.hasError, FramedMessage.value.
  rewrite Hs. split; [done|]. split; [done|].
  case_decide as Hv; [|exact Hres].
  rewrite Hres. apply size_0_nil in Hv. by rewrite Hv.
Qed.
End BackToBack.

(** X8. Two array messages one after the other in one array of the caller:
    [feed] on the whole array takes the first message exactly; after
    [reset()], [feed] on what is left, at [data + consumed], takes the
    second; each time the reader is done with the fields of that
    message. *)
Theorem ArrayMessage_back_to_back `{Host} (junk_val junk_error maxSize : N)
    (body1 body2 : list byte) :
  size body1 <= 0xFFFF -> size body2 <= 0xFFFF ->
  maxSize = 0 \/ (size body1 <= maxSize /\ size body2 <= maxSize) ->
  let msg1 := Uint16Message.generate (size body1) ++ body1 in
  let msg2 := Uint16Message.generate (size body2) ++ body2 in
  let wire := msg1 ++ msg2 in
  let p := mkPtr (Data 0) 0 in
  let env := chunk_memory [wire] in
  exists st1 st2,
    ArrayMessage.feed
      (ArrayMessage.setMaxSize maxSize (ArrayMessage.new junk_val junk_error))
      p wire = Some (st1, size msg1) /\
    ArrayMessage.done st1 = true /\
    ArrayMessage.hasError st1 = false /\
    map (bytes_of (reader_memory env st1)) (ArrayMessage.value st1)
    = split_fields [] body1 /\
    ArrayMessage.feed (ArrayMessage.reset st1) (ptr_add p (size msg1))
      (ndrop (size msg1) wire) = Some (st2, size msg2) /\
    ArrayMessage.done st2 = true /\
    ArrayMessage.hasError st2 = false /\
    map (bytes_of (reader_memory env st2)) (ArrayMessage.value st2)
    = split_fields [] body2.
Proof.
  intros Hsz1 Hsz2 Hm msg1 msg2 wire p env.
  destruct (ArrayMessage_feed_message env p maxSize junk_error
              (ArrayMessage.setMaxSize maxSize (ArrayMessage.new junk_val junk_error))
              body1 msg2)
    as (st1 & Hf1 & Hd1 & He1 & Hv1);
    [done|by apply (read_chunk_memory [wire] 0)|done|tauto|apply array_tracks_new|].
  destruct (ArrayMessage_feed_invariant _ _ _ _ _
              (array_invariant_new junk_val junk_error maxSize) Hf1)
    as [Hinv Hmax].
  change (FramedMessage.maxSize (ArrayMessage.setMaxSize maxSize
            (ArrayMessage.new junk_val junk_error))) with maxSize in Hmax.
  pose proof (array_tracks_reset env st1 Hinv) as Hreset. rewrite Hmax in Hreset.
  assert (Hleft : ndrop (size msg1) wire = msg2 ++ []).
  { unfold wire. rewrite ndrop_app_ge, N.sub_diag, ndrop_0, app_nil_r by lia. done. }
  destruct (ArrayMessage_feed_message env (ptr_add p (size msg1)) maxSize
              (FramedMessage.error st1) (ArrayMessage.reset st1) body2 [])
    as (st2 & Hf2 & Hd2 & He2 & Hv2); [done| |done|tauto|exact Hreset|].
  { fold msg2. rewrite <- Hleft. unfold read, ptr_add, env; cbn.
    rewrite N.add_0_l. apply ntake_all. lia. }
  fold msg2 in Hf2. rewrite <- Hleft in Hf2.
  exists st1, st2. done.
Qed.

Lemma ArrayMessage_back_to_back_witness :
  let msg1 := [x00; x02; x61; NUL] in
  let wire := msg1 ++ [x00; x04; x62; NUL; x63; NUL] in
  let env := chunk_memory [wire] in
  exists st1 st2,
    @ArrayMessage.feed little_endian_host
      (ArrayMessage.setMaxSize 0 (@ArrayMessage.new little_endian_host 7 9))
      (mkPtr (Data 0) 0) wire = Some (st1, 4) /\
    map (bytes_of (reader_memory env st1)) (ArrayMessage.value st1) = [[x61]] /\
    @ArrayMessage.feed little_endian_host (ArrayMessage.reset st1)
      (mkPtr (Data 0) 4) (ndrop 4 wire) = Some (st2, 6) /\
    map (bytes_of (reader_memory env st2)) (ArrayMessage.value st2)
    = [[x62]; [x63]].
Proof.
  intros msg1 wire env.
  destruct (@ArrayMessage_back_to_back little_endian_host 7 9 0
              [x61; NUL] [x62; NUL; x63; NUL])
    as (st1 & st2 & Hf1 & _ & _ & Hv1 & Hf2 & _ & _ & Hv2);
    [by vm_compute|by vm_compute|by left|].
  exists st1, st2. split; [exact Hf1|]. split; [exact Hv1|].
  split; [exact Hf2|exact Hv2].
Defined.

(** X9. Past the header the ceiling is not looked at: [setMaxSize] on a
    reader that has read the header of a message changes nothing of what
    [feed] does for that message. *)
Theorem setMaxSize_after_header `{Host} (array : ArrayMessage.t)
    (scalar : ScalarMessage.t) (maxSize : N) (p : Ptr) (bytes : list byte) :
  FramedMessage.state array <> READING_HEADER ->
  FramedMessage.state scalar <> READING_HEADER ->
  ArrayMessage.feed (ArrayMessage.setMaxSize maxSize array) p bytes
  = (fun r => (ArrayMessage.setMaxSize maxSize r.1, r.2))
      <$> ArrayMessage.feed array p bytes /\
  ScalarMessage.feed (ScalarMessage.setMaxSize maxSize scalar) p bytes
  = (fun r => (ScalarMessage.setMaxSize maxSize r.1, r.2))
      <$> ScalarMessage.feed scalar p bytes.
Proof.
  intros Ha Hs. split; by apply feed_loop_setMaxSize.
Qed.

Lemma setMaxSize_after_header_witness :
  @ArrayMessage.feed little_endian_host
    (ArrayMessage.setMaxSize 1 array_reader_at_body) (mkPtr (Data 0) 2)
    [x61; NUL; x62; NUL]
  = (fun r => (ArrayMessage.setMaxSize 1 r.1, r.2))
      <$> @ArrayMessage.feed little_endian_host array_reader_at_body
            (mkPtr (Data 0) 2) [x61; NUL; x62; NUL] /\
  @ScalarMessage.feed little_endian_host
    (ScalarMessage.setMaxSize 1 scalar_reader_at_body) (mkPtr (Data 0) 2)
    [x61; NUL; x62; NUL]
  = (fun r => (ScalarMessage.setMaxSize 1 r.1, r.2))
      <$> @ScalarMessage.feed little_endian_host scalar_reader_at_body
            (mkPtr (Data 0) 2) [x61; NUL; x62; NUL].
Proof.
  apply (@setMaxSize_after_header little_endian_host array_reader_at_body
           scalar_reader_at_body 1); done.
Defined.

(** X10. The reader's own buffer never holds more than the header of the
    message allows: after any chunks it is no longer than the largest
    length the header can say and, with a ceiling other than 0, no longer
    than the ceiling. *)
Theorem owned_buffer_bounded `{Host} (chunks : list (list byte))
    (junk_val junk_error maxSize : N) :
  (exists st n,
     feed_chunks ArrayMessage.feed
       (ArrayMessage.setMaxSize maxSize (ArrayMessage.new junk_val junk_error))
       0 chunks = Some (st, n) /\
     size (FramedMessage.buffer st) <= 0xFFFF /\
     (0 < maxSize -> size (FramedMessage.buffer st) <= maxSize)) /\
  (exists st n,
     feed_chunks ScalarMessage.feed
       (ScalarMessage.new maxSize junk_val junk_error) 0 chunks = Some (st, n) /\
     size (FramedMessage.buffer st) <= 0xFFFFFFFF /\
     (0 < maxSize -> size (FramedMessage.buffer st) <= maxSize)).
Proof.
  split.
  - destruct (ArrayMessage_feed_chunks_spec chunks maxSize junk_error _
                (array_tracks_new _ junk_val junk_error maxSize))
      as (st & n & Hf & _).
    destruct (ArrayMessage_feed_chunks_invariant _ _ _ _ _
                (array_invariant_new junk_val junk_error maxSize) Hf) as [Hinv Hmax].
    destruct (invariant_buffer_bound 2 ltac:(done) _ st Hinv) as [Hlt Hle].
    rewrite Hmax in Hle. change (256 ^ N.of_nat 2) with 65536 in Hlt.
    exists st, n. split; [exact Hf|]. split; [lia|exact Hle].
  - destruct (ScalarMessage_feed_chunks_spec chunks maxSize junk_error _
                (scalar_tracks_new _ junk_val junk_error maxSize))
      as (st & n & Hf & _).
    destruct (ScalarMessage_feed_chunks_invariant _ _ _ _ _
                (scalar_invariant_new junk_val junk_error maxSize) Hf) as [Hinv Hmax].
    destruct (invariant_buffer_bound 4 ltac:(done) _ st Hinv) as [Hlt Hle].
    rewrite Hmax in Hle. change (256 ^ N.of_nat 4) with 4294967296 in Hlt.
    exists st, n. split; [exact Hf|]. split; [lia|exact Hle].
Qed.

(** ** The generators: what is checked, and what is not *)

Section GenerateOutcome.
Context `{Host}.

(** The first loop of [ArrayMessage::generate] adds up in [unsigned int]:
    it computes the body length modulo 2^32. *)
Lemma generate_size_wraps args : forall acc,
  acc < 2 ^ 32 ->
  fold_left (fun sz a => uint32 (sz + (len a + 1))) args acc
  = uint32 (acc + body_length args).
Proof.
  induction args as [|a args IH]; intros acc Hacc; cbn [fold_left].
  - change (body_length []) with 0. rewrite N.add_0_r. symmetry. by apply uint32_small.
  - change (body_length (a :: args)) with (len a + 1 + body_length args).
    rewrite IH by (apply N.mod_upper_bound; done).
    unfold uint32. rewrite N.Div0.add_mod_idemp_l. f_equal. lia.
Qed.
End GenerateOutcome.

(** X11. [ArrayMessage::generate] looks at [outCount] first and throws
    when it is under 2 * argsCount + 1; then it throws when the body
    length, every item and its NUL added up in [unsigned int], is above
    65535; otherwise it writes that length as the header and the views of
    the header, the items and their NULs, and leaves the rest of [out]
    alone. The sum wraps at 2^32: a body of 2^32 bytes or more is let
    through when its length modulo 2^32 is at most 65535. *)
Theorem ArrayMessage_generate_outcome `{Host} (args out : list StaticString) :
  size args < 2 ^ 31 ->
  let count := 2 * size args + 1 in
  let length := uint32 (body_length args) in
  ArrayMessage.generate args out
  = if size out <? count then inl (ArgumentException "outCount too small.")
    else if 0xFFFF <? length then
      inl (ArgumentException "Data size exceeds maximum size for array messages.")
    else inr (be_encode 2 length,
              mkStaticString (mkPtr HeaderBuf 0) 2
                :: item_views args ++ ndrop count out).
Proof.
  intros Hn count length.
  unfold ArrayMessage.generate, ArrayMessage.outputSize.
  rewrite uint32_small by lia.
  replace (size args * 2 + 1) with count by (unfold count; lia).
  destruct (size out <? count) eqn:Hout; [done|]. apply N.ltb_ge in Hout.
  rewrite generate_size_wraps by done. rewrite N.add_0_l. fold length.
  destruct (65535 <? length) eqn:Hlen; [done|].
  unfold Uint16Message.generate. rewrite UintMessage_generate_be.
  destruct out as [|x todo]; [unfold count in Hout; rewrite size_nil in Hout; lia|].
  unfold count in *. rewrite size_cons in Hout. cbn [insert list_insert].
  change (?h :: todo) with ([h] ++ todo).
  rewrite generate_out_spec by (done || lia). simpl. do 3 f_equal.
  unfold ndrop. by replace (N.to_nat (2 * size args + 1))
    with (S (N.to_nat (2 * size args))) by lia.
Qed.

Lemma ArrayMessage_generate_outcome_witness :
  @ArrayMessage.generate little_endian_host
    [mkStaticString (mkPtr (Data 1) 0) (2 ^ 32 - 1)]
    (replicate 3 emptyStaticString)
  = inr ([x00; x00],
         [mkStaticString (mkPtr HeaderBuf 0) 2;
          mkStaticString (mkPtr (Data 1) 0) (2 ^ 32 - 1);
          mkStaticString (mkPtr NulLiteral 0) 1]).
Proof.
  rewrite (@ArrayMessage_generate_outcome little_endian_host
             [mkStaticString (mkPtr (Data 1) 0) (2 ^ 32 - 1)]
             (replicate 3 emptyStaticString)) by (by vm_compute).
  by vm_compute.
Defined.

Section MultiFragmentRoundTrip.
Context `{Host}.

Lemma size_payload mem data :
  Forall (valid_view mem) data ->
  size (concat (map (bytes_of mem) data)) = total_length data.
Proof.
  induction 1 as [|d data Hd _ IH]; [done|].
  cbn [map concat]. rewrite size_app, IH, Hd. done.
Qed.

(** A scalar message of several fragments written out and read back by a
    fresh reader: the reader gets as many bytes as the header says. *)
Lemma ScalarMessage_multi_round_trip mem data output junk_val junk_error :
  size data + 1 <= size output ->
  size data + 1 < 2 ^ 32 ->
  Forall (fun d => len d <= 0xFFFFFFFF) data ->
  Forall (valid_view mem) data ->
  Forall outside_headerBuf data ->
  let payload := concat (map (bytes_of mem) data) in
  let v := total_length data mod 2 ^ 32 in
  exists headerBuf output',
    ScalarMessage.generate_multi data output = inr (headerBuf, output') /\
    let mem' := write_region mem HeaderBuf headerBuf in
    let wire := concat (map (bytes_of mem') (ntake (size data + 1) output')) in
    wire = headerBuf ++ payload /\
    exists st,
      ScalarMessage.feed (ScalarMessage.new 0 junk_val junk_error)
        (mkPtr (Data 0) 0) wire = Some (st, 4 + v) /\
      ScalarMessage.done st = true /\
      ScalarMessage.hasError st = false /\
      bytes_of (reader_memory (chunk_memory [wire]) st) (ScalarMessage.value st)
      = ntake v payload.
Proof.
  intros Hout Hcount Hok Hvalid Houtside payload v.
  eexists _, _. split; [by apply generate_multi_spec|].
  fold v. intros mem' wire.
  assert (Hwire : wire = be_encode 4 v ++ payload).
  { unfold wire, mem'. rewrite take_views by lia.
    cbn [map concat]. rewrite map_bytes_of_outside by done. by f_equal. }
  split; [exact Hwire|].
  assert (Hsz : size payload = total_length data) by by apply size_payload.
  assert (Hv : v <= size payload).
  { rewrite Hsz. unfold v. apply N.Div0.mod_le. }
  assert (Hv32 : v < 2 ^ 32) by (apply N.mod_upper_bound; done).
  destruct (ScalarMessage_feed_spec (chunk_memory [wire]) (mkPtr (Data 0) 0)
              wire 0 junk_error [] (ScalarMessage.new 0 junk_val junk_error) 0)
    as (st & n & Hfeed & _ & _ & Htr).
  { done. }
  { by apply (read_chunk_memory [wire] 0). }
  { apply (scalar_tracks_new _ junk_val junk_error 0). }
  rewrite app_nil_l, N.add_0_l in Htr.
  rewrite Hwire, <- (ntake_ndrop v payload) in Htr.
  apply tracks_complete in Htr as (Hst & Hn & _ & Hres);
    [|change (256 ^ N.of_nat 4) with 4294967296; lia
     |rewrite size_ntake; lia|done].
  exists st. rewrite Hfeed, Hn. split; [done|].
  unfold ScalarMessage.done, ScalarMessage.hasError, FramedMessage.done,
    FramedMessage.hasError. rewrite Hst. split; [done|]. split; [done|].
  unfold ScalarMessage.value, FramedMessage.value.
  case_decide as Hz.
  - rewrite Hres, Hz. done.
  - rewrite ntake_ndrop in Hres. rewrite <- Hwire in Hres. exact Hres.
Qed.
End MultiFragmentRoundTrip.

(** X12. A scalar message generated from several fragments, written out
    and fed to a fresh reader: the wire holds the 4 header bytes and then
    the fragments' bytes in order; the reader takes the header and as many
    bytes as the header says, the summed length modulo 2^32, and is done
    with those bytes as its value. That is the whole payload when the
    summed length is under 2^32, and a payload cut short otherwise. *)
Theorem scalar_multi_fragment_round_trip `{Host} (mem : Memory)
    (data output : list StaticString) (junk_val junk_error : N) :
  size data + 1 <= size output ->
  size data + 1 < 2 ^ 32 ->
  Forall (fun d => len d <= 0xFFFFFFFF) data ->
  Forall (valid_view mem) data ->
  Forall outside_headerBuf data ->
  let payload := concat (map (bytes_of mem) data) in
  let v := total_length data mod 2 ^ 32 in
  exists headerBuf output',
    ScalarMessage.generate_multi data output = inr (headerBuf, output') /\
    let mem' := write_region mem HeaderBuf headerBuf in
    let wire := concat (map (bytes_of mem') (ntake (size data + 1) output')) in
    wire = headerBuf ++ payload /\
    (exists st,
       ScalarMessage.feed (ScalarMessage.new 0 junk_val junk_error)
         (mkPtr (Data 0) 0) wire = Some (st, 4 + v) /\
       ScalarMessage.done st = true /\
       ScalarMessage.hasError st = false /\
       bytes_of (reader_memory (chunk_memory [wire]) st) (ScalarMessage.value st)
       = ntake v payload) /\
    (total_length data < 2 ^ 32 -> 4 + v = size wire /\ ntake v payload = payload).
Proof.
  intros Hout Hcount Hok Hvalid Houtside payload v.
  destruct (ScalarMessage_multi_round_trip mem data output junk_val junk_error
              Hout Hcount Hok Hvalid Houtside)
    as (headerBuf & output' & Hgen & Hwire & Hfeed).
  exists headerBuf, output'. split; [exact Hgen|].
  intros mem' wire. split; [exact Hwire|]. split; [exact Hfeed|].
  intros Hfit.
  assert (Hv : v = total_length data) by (by apply N.mod_small).
  pose proof (size_payload mem data Hvalid) as Hsz.
  assert (Hhb : size headerBuf = 4).
  { rewrite (generate_multi_spec data output Hok Hout Hcount) in Hgen.
    assert (headerBuf = be_encode 4 v) as -> by (injection Hgen as <- _; reflexivity).
    unfold size. by rewrite length_be_encode. }
  split.
  - unfold wire, mem'. rewrite Hwire, size_app, Hsz, Hv, Hhb. done.
  - apply ntake_all. unfold payload. lia.
Qed.

Lemma scalar_multi_fragment_round_trip_witness :
  exists st,
    @ScalarMessage.feed little_endian_host
      (@ScalarMessage.new little_endian_host 0 7 9) (mkPtr (Data 0) 0)
      [x00; x00; x00; x07; x61; x62; x68; x65; x6c; x6c; x6f] = Some (st, 11) /\
    bytes_of (reader_memory
                (chunk_memory [[x00; x00; x00; x07; x61; x62; x68; x65; x6c; x6c; x6f]])
                st) (ScalarMessage.value st)
    = [x61; x62; x68; x65; x6c; x6c; x6f].
Proof.
  destruct (@scalar_multi_fragment_round_trip little_endian_host sample_memory
              [sample_item; sample_payload] (replicate 3 emptyStaticString) 7 9)
    as (headerBuf & output' & Hgen & Hrest);
    [by vm_compute|by vm_compute|repeat constructor; by vm_compute
    |repeat constructor|repeat constructor; by vm_compute|].
  assert (Hout : headerBuf = [x00; x00; x00; x07] /\
                 output' = [mkStaticString (mkPtr HeaderBuf 0) 4;
                            sample_item; sample_payload]).
  { vm_compute in Hgen. by injection Hgen as <- <-. }
  destruct Hout as [-> ->].
  destruct Hrest as (_ & (st & Hfeed & _ & _ & Hval) & _).
  exists st. split; [exact Hfeed|exact Hval].
Defined.

(** ** Reading an array message and writing it out again *)

(** Every field and its NUL, put together again, is the body up to the
    last NUL. *)
Lemma array_body_split_fields s : forall acc,
  array_body (split_fields acc (s ++ [NUL])) = acc ++ s ++ [NUL].
Proof.
  unfold array_body.
  induction s as [|b s IH]; intros acc; cbn [app split_fields].
  - case_decide; [|done]. simpl. by rewrite app_nil_r.
  - case_decide as Hb.
    + subst b. cbn [map concat]. rewrite IH. by rewrite <- app_assoc.
    + rewrite IH. by rewrite <- app_assoc.
Qed.

Lemma array_body_split_fields_body fields :
  array_body (split_fields [] (array_body fields)) = array_body fields.
Proof.
  destruct fields as [|f fields] using rev_ind; [done|].
  unfold array_body at 2 3. rewrite map_app, concat_app. cbn [map concat].
  rewrite app_nil_r, !app_assoc. apply (array_body_split_fields _ []).
Qed.

Lemma view_within_valid mem q bytes v :
  read mem q (size bytes) = bytes ->
  view_within q (size bytes) v ->
  valid_view mem v.
Proof.
  intros Hrd (Hreg & Hlo & Hhi). unfold valid_view, bytes_of.
  assert (Hv : data v = ptr_add q (offset (data v) - offset q)).
  { destruct v as [[r o] l]; destruct q as [qr qo]; unfold ptr_add; simpl in *.
    f_equal; [done|lia]. }
  rewrite Hv, (read_within mem q bytes) by (done || lia).
  rewrite size_ntake, size_ndrop. lia.
Qed.

Section ArrayViews.
Context `{Host}.
Variable env : Memory.

(** The result is empty until the reader is done, and its views are then
    whole in memory and outside the header scratch buffer. *)
Local Abbreviation views_ok := (fun st : ArrayMessage.t =>
  (FramedMessage.state st <> DONE -> FramedMessage.result st = []) /\
  Forall (fun v => valid_view (reader_memory env st) v /\ outside_headerBuf v)
    (FramedMessage.result st)).

Lemma parseBody_views_ok mem q bytes :
  read mem q (size bytes) = bytes ->
  region q <> HeaderBuf ->
  Forall (fun v => valid_view mem v /\ outside_headerBuf v)
    (ArrayMessage.parseBody q bytes []).
Proof.
  intros Hrd Hq.
  eapply Forall_impl; [apply parseBody_within|].
  intros v Hv. split; [by eapply view_within_valid|].
  destruct Hv as (Hreg & _). unfold outside_headerBuf. by rewrite Hreg.
Qed.

Lemma iteration_views_ok st p chunk c st' c' :
  caller_owned p -> region p <> HeaderBuf ->
  read env p (size chunk) = chunk ->
  c <= size chunk ->
  views_ok st ->
  FramedMessage.iteration 2 _ ArrayMessage.parseBody st p chunk c = Some (st', c') ->
  views_ok st'.
Proof.
  intros Hp Hhb Hrd Hc [Hempty _]. unfold FramedMessage.iteration.
  destruct (FramedMessage.state st) eqn:Hst; [| |done|done];
    specialize (Hempty ltac:(done)).
  - destruct (UintMessage.feed 2 _ _) as [hr n].
    repeat case_match; intros [= <- <-]; cbn; rewrite Hempty; by split.
  - destruct (bool_decide (FramedMessage.buffer st = []) && _) eqn:Hzero.
    + apply andb_true_iff in Hzero as [_ Hle%N.leb_le].
      intros [= <- <-]. cbn. rewrite Hempty. split; [done|].
      apply parseBody_views_ok; [|done].
      rewrite read_reader_memory by done.
      rewrite size_ntake, size_ndrop.
      rewrite (read_within env p chunk) by (done || lia).
      f_equal. lia.
    + destruct (_ =? _); intros [= <- <-]; cbn; rewrite Hempty;
        [|by split].
      split; [done|]. apply parseBody_views_ok; [|done].
      apply (read_own_buffer env
               (FramedMessage.mk _ _ _ _ (FramedMessage.buffer st ++ _) _)).
Qed.

Lemma feed_loop_views_ok p chunk :
  caller_owned p -> region p <> HeaderBuf ->
  read env p (size chunk) = chunk ->
  forall fuel st c st' c',
    views_ok st ->
    FramedMessage.feed_loop 2 _ ArrayMessage.parseBody fuel st p chunk c
    = Some (st', c') ->
    views_ok st'.
Proof.
  intros Hp Hhb Hrd.
  induction fuel as [|fuel IH]; intros st c st' c' Hok; simpl;
    destruct ((c <? size chunk) && _) eqn:Hguard;
    try done; try (by intros [= <- <-]).
  apply andb_true_iff in Hguard as [Hlt%N.ltb_lt _].
  destruct (FramedMessage.iteration 2 _ _ st p chunk c) as [[st1 c1]|] eqn:Hit;
    [|done].
  apply IH. eapply iteration_views_ok; try eassumption. lia.
Qed.

Lemma feed_chunks_views_ok chunks : forall k st st' n,
  (forall i c, chunks !! i = Some c ->
     read env (mkPtr (Data (k + N.of_nat i)) 0) (size c) = c) ->
  views_ok st ->
  feed_chunks ArrayMessage.feed st k chunks = Some (st', n) ->
  views_ok st'.
Proof.
  induction chunks as [|c chunks IH]; intros k st st' n Hmem Hok; simpl.
  - by intros [= <- <-].
  - destruct (ArrayMessage.feed st _ c) as [[st1 n1]|] eqn:Hf; [|done].
    destruct (feed_chunks ArrayMessage.feed st1 (k + 1) chunks)
      as [[st2 n2]|] eqn:Hr; [|done].
    intros [= <- <-].
    apply (IH (k + 1) st1 st2 n2); [|  |exact Hr].
    + intros i c' Hi. specialize (Hmem (S i) c' Hi).
      by replace (k + 1 + N.of_nat i) with (k + N.of_nat (S i)) by lia.
    + eapply (feed_loop_views_ok (mkPtr (Data k) 0) c); try eassumption; try done.
      specialize (Hmem 0%nat c eq_refl). by rewrite N.add_0_r in Hmem.
Qed.
End ArrayViews.

(** X13. An array message whose body is a run of NUL-terminated fields,
    read by a fresh reader in any cut: the views the reader ends with,
    given to [generate], make the very bytes that were read. *)
Theorem ArrayMessage_decode_encode `{Host} (fields : list (list byte))
    (chunks : list (list byte)) (out : list StaticString)
    (junk_val junk_error maxSize : N) :
  let body := array_body fields in
  size body <= 0xFFFF ->
  maxSize = 0 \/ size body <= maxSize ->
  concat chunks = Uint16Message.generate (size body) ++ body ->
  exists st,
    feed_chunks ArrayMessage.feed
      (ArrayMessage.setMaxSize maxSize (ArrayMessage.new junk_val junk_error))
      0 chunks = Some (st, size (concat chunks)) /\
    ArrayMessage.done st = true /\
    ArrayMessage.hasError st = false /\
    let views := ArrayMessage.value st in
    let mem := reader_memory (chunk_memory chunks) st in
    (2 * size views + 1 <= size out ->
     exists headerBuf out',
       ArrayMessage.generate views out = inr (headerBuf, out') /\
       concat (map (bytes_of (write_region mem HeaderBuf headerBuf))
                 (ntake (2 * size views + 1) out'))
       = concat chunks).
Proof.
  intros body Hsz Hm Hwire.
  set (fresh := ArrayMessage.setMaxSize maxSize (ArrayMessage.new junk_val junk_error)).
  destruct (ArrayMessage_feed_chunks_spec chunks maxSize junk_error fresh)
    as (st & n & Hf & Htr); [apply array_tracks_new|].
  assert (Hviews : Forall (fun v => valid_view (reader_memory (chunk_memory chunks) st) v
                                    /\ outside_headerBuf v) (FramedMessage.result st)).
  { eapply (feed_chunks_views_ok (chunk_memory chunks) chunks 0 fresh st n);
      [|by split|exact Hf].
    intros i c Hi. rewrite N.add_0_l. by apply read_chunk_memory. }
  apply Forall_and in Hviews as [Hvalid Houtside].
  rewrite Hwire in Htr. unfold Uint16Message.generate in Htr, Hwire.
  rewrite UintMessage_generate_be in Htr, Hwire.
  replace (be_encode 2 (size body) ++ body)
    with (be_encode 2 (size body) ++ body ++ []) in Htr by (by rewrite app_nil_r).
  assert (Htl : Tracking.too_large maxSize (size body) = false).
  { unfold Tracking.too_large. destruct Hm as [->|Hle]; [done|].
    apply andb_false_iff. right. apply N.ltb_ge. lia. }
  apply tracks_complete in Htr as (Hst & Hn & _ & Hres);
    [|change (256 ^ N.of_nat 2) with 65536; lia|done|done].
  assert (Hcontents : map (bytes_of (reader_memory (chunk_memory chunks) st))
                        (FramedMessage.result st) = split_fields [] body).
  { case_decide as Hz; [|exact Hres].
    rewrite Hres. apply size_0_nil in Hz. by rewrite Hz. }
  exists st.
  assert (Hsize : size (concat chunks) = n).
  { rewrite Hwire, size_app, Hn. unfold size at 1. by rewrite length_be_encode. }
  rewrite Hsize. split; [exact Hf|].
  unfold ArrayMessage.done, ArrayMessage.hasError, ArrayMessage.value,
    FramedMessage.done, FramedMessage.hasError, FramedMessage.value.
  rewrite Hst. split; [done|]. split; [done|].
  set (views := FramedMessage.result st) in *.
  set (mem := reader_memory (chunk_memory chunks) st) in *.
  intros Hout.
  assert (Hlen : body_length views = size body).
  { rewrite <- (size_array_body mem views Hvalid).
    rewrite Hcontents. unfold body. by rewrite array_body_split_fields_body. }
  eexists _, _.
  split; [apply ArrayMessage_generate_spec; [lia|exact Hout]|].
  rewrite (take_views _ (item_views views)) by (rewrite size_item_views; lia).
  cbn [map concat]. rewrite item_views_bytes, map_bytes_of_outside by done.
  rewrite Hcontents, Hlen, Hwire. unfold body.
  rewrite array_body_split_fields_body. by f_equal.
Qed.

Lemma ArrayMessage_decode_encode_witness :
  exists st,
    feed_chunks (@ArrayMessage.feed little_endian_host)
      (ArrayMessage.setMaxSize 0 (@ArrayMessage.new little_endian_host 7 9))
      0 [[x00]; [x04; x61]; [NUL; x62; NUL]] = Some (st, 6) /\
    exists headerBuf out',
      @ArrayMessage.generate little_endian_host (ArrayMessage.value st)
        (replicate 5 emptyStaticString) = inr (headerBuf, out') /\
      concat (map (bytes_of (write_region
                     (reader_memory (chunk_memory [[x00]; [x04; x61]; [NUL; x62; NUL]]) st)
                     HeaderBuf headerBuf)) (ntake 5 out'))
      = [x00; x04; x61; NUL; x62; NUL].
Proof.
  destruct (@ArrayMessage_decode_encode little_endian_host [[x61]; [x62]]
              [[x00]; [x04; x61]; [NUL; x62; NUL]]
              (replicate 5 emptyStaticString) 7 9 0)
    as (st & Hf & _ & _ & Hgen); [by vm_compute|by left|by vm_compute|].
  exists st. split; [exact Hf|].
  assert (Hst : size (ArrayMessage.value st) = 2).
  { vm_compute in Hf. by injection Hf as <-. }
  cbv zeta in Hgen. rewrite Hst in Hgen. apply Hgen. by vm_compute.
Defined.

(** ** MultiLibeio: requests and contexts *)

Section MultiLibeioAccountingFacts.
Import MultiLibeio.
Variable not_threadsafe : bool.

Lemma submitted_app tr1 tr2 : submitted (tr1 ++ tr2) = submitted tr1 ++ submitted tr2.
Proof. apply omap_app. Qed.

Lemma completed_app tr1 tr2 : completed (tr1 ++ tr2) = completed tr1 ++ completed tr2.
Proof. apply omap_app. Qed.

Lemma elem_of_submitted tr req :
  req ∈ submitted tr <-> exists l cb, Submitted l req cb ∈ tr.
Proof.
  unfold submitted. rewrite list_elem_of_omap. split.
  - intros ([l r cb|t [cb r|e r]] & Hin & Heq); try done.
    injection Heq as ->. by exists l, cb.
  - intros (l & cb & Hin). by exists (Submitted l req cb).
Qed.

(** What kind of request a submission makes, and with what context. *)
Lemma submit_accepted_kind l op pr cb s :
  exists ty e,
    submit not_threadsafe l op pr cb true s
    = (Some (next_handle (engine s)),
       {| globals := globals s;
          heap := <[new_address (heap s) := mkData l cb e]> (heap s);
          engine := {| pending := pending (engine s)
                         ++ [mk_eio_req (next_handle (engine s)) ty pr
                               (new_address (heap s))];
                       ready := ready (engine s);
                       next_handle := S (next_handle (engine s)) |};
          asyncs := asyncs s; trace := trace s |}) /\
    (ty = EIO_CUSTOM <-> is_Some e) /\
    (not_threadsafe = true -> ty = EIO_OPEN \/ ty = EIO_CUSTOM).
Proof.
  destruct op; unfold submit, open, read, write, custom;
    destruct not_threadsafe; eexists _, _;
    (split; [apply MAKE_REQUEST_accepted|]);
    (split; [split; [intros ?; first [done | by eexists] | intros [? ?]; done]|]);
    intros ?; first [done | by left | by right].
Qed.

(** [eio_poll] hands every request to [dispatch]: each one is scheduled
    and its context is freed. *)
Lemma eio_poll_exact t reqs : forall s s',
  eio_poll t reqs s = Some s' ->
  trace s' = trace s /\ engine s' = engine s /\ globals s' = globals s /\
  heap s' = foldl (fun h req => delete (data req) h) (heap s) reqs /\
  (fun scheduled => code_request scheduled.2) <$> asyncs s'
  = ((fun scheduled => code_request scheduled.2) <$> asyncs s) ++ (handle <$> reqs).
Proof.
  induction reqs as [|req reqs IH]; intros s s' Hpoll.
  - injection Hpoll as <-. by rewrite app_nil_r.
  - cbn [eio_poll] in Hpoll.
    destruct (dispatch (heap s) req) as [es|] eqn:Hd; [|done].
    apply dispatch_effects in Hd as (d & Hlook & ->).
    cbn [run_effects foldl run_effect] in Hpoll.
    apply IH in Hpoll as (Htr & He & Hg & Hheap & Hasync); simpl in *.
    repeat split; try done.
    rewrite Hasync, fmap_app. cbn. by rewrite <- app_assoc.
Qed.

Lemma lookup_foldl_delete (h : gmap nat Data) reqs a :
  foldl (fun h req => delete (data req) h) h reqs !! a
  = if decide (a ∈ data <$> reqs) then None else h !! a.
Proof.
  revert h; induction reqs as [|req reqs IH]; intros h; cbn [foldl].
  - rewrite decide_False; [done|]. apply not_elem_of_nil.
  - rewrite IH, fmap_cons. destruct (decide (a = data req)) as [->|Hne].
    + rewrite lookup_delete_eq. rewrite (decide_True (P := _ ∈ _ :: _)) by (by left).
      by case_decide.
    + rewrite lookup_delete_ne by done.
      destruct (decide (a ∈ data <$> reqs)) as [Hin|Hnin].
      * by rewrite decide_True by (by right).
      * rewrite decide_False; [done|]. by intros [?|?]%elem_of_cons.
Qed.

(** [eio_poll] goes through when every request has its context, of its
    own. *)
Lemma eio_poll_succeeds t reqs : forall s,
  (forall req, req ∈ reqs -> is_Some (heap s !! data req)) ->
  NoDup (data <$> reqs) ->
  is_Some (eio_poll t reqs s).
Proof.
  induction reqs as [|req reqs IH]; intros s Hctx Hnodup; [done|].
  cbn [eio_poll]. unfold dispatch.
  destruct (Hctx req) as [d Hd]; [by left|]. rewrite Hd.
  rewrite fmap_cons in Hnodup. apply NoDup_cons in Hnodup as [Hnotin Hnodup].
  apply IH; [|done].
  intros req' Hin. cbn. rewrite lookup_delete_ne; [apply Hctx; by right|].
  intros Heq. apply Hnotin. rewrite Heq. by apply list_elem_of_fmap_2.
Qed.

Lemma elem_of_snoc_mid {A} (x r : A) P R :
  x ∈ (P ++ [r]) ++ R <-> x = r \/ x ∈ P ++ R.
Proof. rewrite !elem_of_app, list_elem_of_singleton. tauto. Qed.

Lemma accounting_system0 : MultiLibeio_accounting not_threadsafe system0.
Proof.
  unfold MultiLibeio_accounting, system0; cbn.
  split; [|split; [|split; [|split]]].
  - intros a [d Hd]. by rewrite lookup_empty in Hd.
  - intros req d Hin. by apply not_elem_of_nil in Hin.
  - intros _ req Hin. by apply not_elem_of_nil in Hin.
  - done.
  - constructor.
Qed.

Lemma accounting_set_globals g s :
  MultiLibeio_accounting not_threadsafe s ->
  MultiLibeio_accounting not_threadsafe (set_globals g s).
Proof. done. Qed.

Lemma accounting_submit l op pr cb accepted s s' :
  exec not_threadsafe (DoSubmit l op pr cb accepted) s = Some s' ->
  MultiLibeio_invariant s ->
  MultiLibeio_accounting not_threadsafe s ->
  MultiLibeio_accounting not_threadsafe s'.
Proof.
  cbn [exec]. destruct accepted.
  - destruct (submit_accepted_kind l op pr cb s) as (ty & e & -> & Hkind & Hplat).
    intros [= <-] (_ & _ & Hreq & _ & Hfresh & _)
      (Hown & Htyped & Hnt & Hperm & Hnodup).
    pose proof (new_address_fresh (heap s)) as Hnew.
    assert (Hold : forall req, req ∈ pending (engine s) ++ ready (engine s) ->
                     data req <> new_address (heap s)).
    { intros req Hin Heq. destruct (Hreq req Hin) as (d & Hd & _).
      by rewrite Heq, Hnew in Hd. }
    unfold MultiLibeio_accounting, whereabouts in *.
    cbn [globals heap engine asyncs trace pending ready next_handle].
    split; [|split; [|split; [|split]]].
    + intros a [d Ha]. apply list_elem_of_fmap.
      destruct (decide (a = new_address (heap s))) as [->|Hne].
      * eexists. split; [|apply elem_of_snoc_mid; by left]. done.
      * rewrite lookup_insert_ne in Ha by done.
        specialize (Hown a ltac:(by exists d)).
        apply list_elem_of_fmap in Hown as (req & -> & Hin').
        exists req. split; [done|]. apply elem_of_snoc_mid. by right.
    + intros req d Hin Hd. apply elem_of_snoc_mid in Hin as [->|Hin].
      * cbn [data type] in *. rewrite lookup_insert_eq in Hd.
        injection Hd as <-. exact Hkind.
      * rewrite lookup_insert_ne in Hd by (symmetry; by apply Hold).
        by apply Htyped.
    + intros Ht req Hin. apply elem_of_snoc_mid in Hin as [->|Hin].
      * by apply Hplat.
      * by apply Hnt.
    + rewrite submitted_app, completed_app, fmap_app. cbn.
      rewrite app_nil_r, <- Hperm. solve_Permutation.
    + rewrite submitted_app. cbn. apply NoDup_app. split; [done|].
      split; [|apply NoDup_singleton].
      intros x Hx ->%list_elem_of_singleton.
      apply elem_of_submitted in Hx as (l' & cb' & Hin).
      specialize (Hfresh _ _ _ Hin). lia.
  - rewrite submit_rejected. by intros [= <-].
Qed.

(** What a worker does to the process. *)
Lemma work_spec worker index s s' :
  work worker index s = Some s' ->
  exists req ran,
    pending (engine s) !! index = Some req /\
    (ran = [] \/
     exists e, ran = [Ran (WorkerThread worker) (Execution e (handle req))]) /\
    s' = {| globals := wantPoll (globals s);
            heap := heap s;
            engine := {| pending := delete index (pending (engine s));
                         ready := ready (engine s) ++ [req];
                         next_handle := next_handle (engine s) |};
            asyncs := asyncs s;
            trace := trace s ++ ran |}.
Proof.
  unfold work. destruct (pending (engine s) !! index) as [req|] eqn:Hidx; [|done].
  intros Hwork. exists req.
  destruct (type req).
  1-3: injection Hwork as <-; exists []; split; [done|]; split; [by left|];
       destruct s; cbn; by rewrite app_nil_r.
  unfold executeWrapper in Hwork.
  destruct (heap s !! data req) as [d|]; [|done].
  destruct (execute d) as [e|]; [|done].
  injection Hwork as <-. eexists. split; [done|]. split; [right; by exists e|done].
Qed.

Lemma accounting_work worker index s s' :
  work worker index s = Some s' ->
  MultiLibeio_accounting not_threadsafe s ->
  MultiLibeio_accounting not_threadsafe s'.
Proof.
  intros (req & ran & Hidx & Hran & ->)%work_spec (Hown & Htyped & Hnt & Hperm & Hnodup).
  assert (HP : delete index (pending (engine s)) ++ ready (engine s) ++ [req]
               ≡ₚ pending (engine s) ++ ready (engine s)).
  { rewrite (delete_Permutation (pending (engine s)) index req Hidx) at 2.
    solve_Permutation. }
  assert (Hsub : submitted (trace s ++ ran) = submitted (trace s)).
  { rewrite submitted_app. destruct Hran as [->|(e & ->)]; cbn; by rewrite app_nil_r. }
  assert (Hcom : completed (trace s ++ ran) = completed (trace s)).
  { rewrite completed_app. destruct Hran as [->|(e & ->)]; cbn; by rewrite app_nil_r. }
  unfold MultiLibeio_accounting, whereabouts in *.
  cbn [globals heap engine asyncs trace pending ready next_handle].
  rewrite Hsub, Hcom.
  split; [|split; [|split; [|split]]].
  - intros a Ha. rewrite HP. by apply Hown.
  - intros r d Hin. rewrite HP in Hin. by apply Htyped.
  - intros Ht r Hin. rewrite HP in Hin. by apply Hnt.
  - rewrite <- Hperm.
    rewrite (delete_Permutation (pending (engine s)) index req Hidx) at 2.
    rewrite !fmap_app, fmap_cons. cbn. solve_Permutation.
  - done.
Qed.

Lemma accounting_reactor index s s' :
  reactor_run index s = Some s' ->
  MultiLibeio_invariant s ->
  MultiLibeio_accounting not_threadsafe s ->
  MultiLibeio_accounting not_threadsafe s'.
Proof.
  unfold reactor_run.
  destruct (asyncs s !! index) as [[l code]|] eqn:Hidx; [|done].
  intros [= <-] (_ & Hasync & _) (Hown & Htyped & Hnt & Hperm & Hnodup).
  destruct (Hasync l code) as (cb & req & -> & Hsub);
    [by eapply list_elem_of_lookup_2|].
  unfold MultiLibeio_accounting, whereabouts in *.
  cbn [globals heap engine asyncs trace pending ready next_handle].
  rewrite submitted_app, completed_app. cbn. rewrite app_nil_r.
  split; [done|]. split; [done|]. split; [done|]. split; [|done].
  rewrite <- Hperm.
  rewrite (delete_Permutation (asyncs s) index _ Hidx) at 2.
  rewrite fmap_cons. cbn. solve_Permutation.
Qed.

Lemma accounting_thread s s' :
  thread_move s = Some s' ->
  MultiLibeio_invariant s ->
  MultiLibeio_accounting not_threadsafe s ->
  MultiLibeio_accounting not_threadsafe s'.
Proof.
  unfold thread_move. destruct (thr (globals s)) as [pc|]; [|done].
  destruct (threadMain (globals s) pc) as [[| |]|]; try done;
    try (intros [= <-] _; apply accounting_set_globals).
  destruct (eio_poll _ _ _) as [s2|] eqn:Hpoll; [|done].
  intros [= <-] (_ & _ & _ & Hnd & _) (Hown & Htyped & Hnt & Hperm & Hnodup).
  apply eio_poll_exact in Hpoll as (Htr & He & Hg & Hheap & Hasync).
  cbn [set_engine globals heap engine asyncs trace] in *.
  rewrite fmap_app in Hnd. apply NoDup_app in Hnd as (_ & Hdisj & _).
  unfold MultiLibeio_accounting, whereabouts in *.
  cbn [set_globals globals heap engine asyncs trace]. rewrite Htr, He, Hheap, Hasync.
  cbn [pending ready next_handle]. rewrite app_nil_r.
  split; [|split; [|split; [|split]]].
  - intros a [d Ha]. rewrite lookup_foldl_delete in Ha.
    case_decide as Hin; [done|].
    specialize (Hown a ltac:(by exists d)).
    rewrite fmap_app in Hown. by apply elem_of_app in Hown as [?|?].
  - intros req d Hin Hd. rewrite lookup_foldl_delete in Hd.
    case_decide; [done|]. apply Htyped; [|done]. apply elem_of_app. by left.
  - intros Ht req Hin. apply Hnt; [done|]. apply elem_of_app. by left.
  - rewrite <- Hperm. cbn. solve_Permutation.
  - done.
Qed.

(** Every move of the process keeps the account. *)
Lemma accounting_exec label s s' :
  exec not_threadsafe label s = Some s' ->
  MultiLibeio_invariant s ->
  MultiLibeio_accounting not_threadsafe s ->
  MultiLibeio_accounting not_threadsafe s'.
Proof.
  destruct label.
  - intros [= <-] _. apply accounting_set_globals.
  - intros [= <-] _. apply accounting_set_globals.
  - cbn [exec]. destruct (shutdown_joined (globals s)); [|done].
    intros [= <-] _. apply accounting_set_globals.
  - apply accounting_submit.
  - intros Hw _. eapply accounting_work. exact Hw.
  - apply accounting_thread.
  - apply accounting_reactor.
Qed.

Lemma accounting_run labels : forall s s',
  run not_threadsafe labels s = Some s' ->
  MultiLibeio_invariant s ->
  MultiLibeio_accounting not_threadsafe s ->
  MultiLibeio_accounting not_threadsafe s'.
Proof.
  induction labels as [|label labels IH]; intros s s' Hrun Hinv Hacc.
  - by injection Hrun as <-.
  - cbn [run] in Hrun.
    destruct (exec not_threadsafe label s) as [s1|] eqn:Hexec; [|done].
    eapply IH; [done|by eapply invariant_exec|by eapply accounting_exec].
Qed.

Lemma accounting_reachable s :
  reachable not_threadsafe s -> MultiLibeio_accounting not_threadsafe s.
Proof.
  intros (labels & Hrun).
  eapply accounting_run; [done|apply invariant_system0|apply accounting_system0].
Qed.
End MultiLibeioAccountingFacts.

Section MultiLibeioFurther.
Import MultiLibeio.

(** X14. The casts of [dispatch] and [executeWrapper] never go wrong: in
    every reachable state each request the engine holds has its context on
    the heap, and a custom request has a [CustomData] with its execute
    callback; so a worker can run any pending request and the dispatcher
    thread can make any move [threadMain] allows. *)
Theorem contexts_are_there (not_threadsafe : bool) (s : System) :
  reachable not_threadsafe s ->
  (forall req, req ∈ pending (engine s) ++ ready (engine s) ->
     is_Some (dispatch (heap s) req) /\
     (type req = EIO_CUSTOM -> is_Some (executeWrapper (heap s) req))) /\
  (forall worker index,
     is_Some (pending (engine s) !! index) ->
     is_Some (exec not_threadsafe (DoWork worker index) s)) /\
  (forall pc,
     thr (globals s) = Some pc -> is_Some (threadMain (globals s) pc) ->
     is_Some (exec not_threadsafe DoThread s)).
Proof.
  intros Hreach.
  pose proof (invariant_reachable _ _ Hreach) as (_ & _ & Hreq & Hnodup & _).
  pose proof (accounting_reachable _ _ Hreach) as (_ & Htyped & _).
  assert (Hctx : forall req, req ∈ pending (engine s) ++ ready (engine s) ->
            is_Some (dispatch (heap s) req) /\
            (type req = EIO_CUSTOM -> is_Some (executeWrapper (heap s) req))).
  { intros req Hin. destruct (Hreq req Hin) as (d & Hd & _).
    unfold dispatch, executeWrapper. rewrite Hd. split; [done|].
    intros Hty. apply (Htyped req d Hin Hd) in Hty as [e ->]. done. }
  split; [exact Hctx|]. split.
  - intros worker index [req Hidx]. cbn [exec]. unfold work. rewrite Hidx.
    assert (Hin : req ∈ pending (engine s) ++ ready (engine s)).
    { apply elem_of_app. left. by eapply list_elem_of_lookup_2. }
    destruct (Hctx req Hin) as [_ Hcustom].
    destruct (type req); try done.
    by destruct (Hcustom eq_refl) as [es ->].
  - intros pc Hthr [pc' Hmove]. cbn [exec]. unfold thread_move.
    rewrite Hthr, Hmove. destruct pc'; try done.
    destruct (eio_poll_succeeds DispatcherThread (ready (engine s))
                (set_engine {| pending := pending (engine s); ready := [];
                               next_handle := next_handle (engine s) |} s))
      as [s2 ->]; [| |done].
    + intros req Hin. cbn. destruct (Hreq req) as (d & -> & _); [|done].
      apply elem_of_app. by right.
    + rewrite fmap_app in Hnodup. by apply NoDup_app in Hnodup as (_ & _ & ?).
Qed.

Lemma contexts_are_there_witness :
  exists s,
    run false one_submission system0 = Some s /\
    is_Some (exec false (DoWork 0 0) s).
Proof.
  eexists. split; [vm_compute; reflexivity|].
  eapply (contexts_are_there false).
  - exists one_submission. vm_compute. reflexivity.
  - by eexists.
Defined.

(** X15. No context is lost and none is shared: in every reachable state
    the contexts on the heap are exactly the contexts of the requests the
    engine holds, one for each request. *)
Theorem contexts_belong_to_requests (not_threadsafe : bool) (s : System) :
  reachable not_threadsafe s ->
  (forall a, is_Some (heap s !! a) <->
     exists req, req ∈ pending (engine s) ++ ready (engine s) /\ data req = a) /\
  NoDup (data <$> (pending (engine s) ++ ready (engine s))).
Proof.
  intros Hreach.
  pose proof (invariant_reachable _ _ Hreach) as (_ & _ & Hreq & Hnodup & _).
  pose proof (accounting_reachable _ _ Hreach) as (Hown & _).
  split; [|done]. intros a. split.
  - intros Ha. apply Hown in Ha.
    apply list_elem_of_fmap in Ha as (req & -> & Hin). by exists req.
  - intros (req & Hin & <-). destruct (Hreq req Hin) as (d & -> & _). done.
Qed.

Lemma contexts_belong_to_requests_witness :
  exists s,
    run false one_submission system0 = Some s /\
    (forall a, is_Some (heap s !! a) <->
       exists req, req ∈ pending (engine s) ++ ready (engine s) /\ data req = a) /\
    length (pending (engine s)) = 1%nat.
Proof.
  eexists. split; [vm_compute; reflexivity|]. split; [|done].
  eapply (contexts_belong_to_requests false).
  exists one_submission. vm_compute. reflexivity.
Defined.

(** X16. Where [pread] and [pwrite] are not thread-safe, [read] and
    [write] are [custom] with [lockedPread] and [lockedPwrite] as the
    execute callback, and in every reachable state the engine holds no
    read and no write request of its own. *)
Theorem reads_and_writes_are_locked (s : System) :
  reachable true s ->
  (forall req, req ∈ pending (engine s) ++ ready (engine s) ->
     type req <> EIO_READ /\ type req <> EIO_WRITE) /\
  (forall l fd length offset pri cb accepted s0,
     read true l fd length offset pri cb accepted s0
     = custom l (lockedPread fd length offset) pri cb accepted s0 /\
     write true l fd length offset pri cb accepted s0
     = custom l (lockedPwrite fd length offset) pri cb accepted s0).
Proof.
  intros Hreach.
  pose proof (accounting_reachable _ _ Hreach) as (_ & _ & Hnt & _).
  split; [|done].
  intros req Hin. destruct (Hnt eq_refl req Hin) as [-> | ->]; done.
Qed.

Lemma reads_and_writes_are_locked_witness :
  exists s,
    run true [DoInit; DoSubmit 0%nat (Read 3%Z 10 0%Z) 0%Z 5%nat true] system0
    = Some s /\
    forall req, req ∈ pending (engine s) ++ ready (engine s) ->
      type req <> EIO_READ /\ type req <> EIO_WRITE.
Proof.
  eexists. split; [vm_compute; reflexivity|].
  eapply (reads_and_writes_are_locked).
  exists [DoInit; DoSubmit 0%nat (Read 3%Z 10 0%Z) 0%Z 5%nat true].
  vm_compute. reflexivity.
Defined.

(** X17. Every accepted request is in exactly one place: with the engine,
    scheduled on a reactor, or completed. So no request is lost, and no
    completion callback runs twice. *)
Theorem completion_at_most_once (not_threadsafe : bool) (s : System) :
  reachable not_threadsafe s ->
  whereabouts s ≡ₚ submitted (trace s) /\
  NoDup (whereabouts s) /\
  NoDup (completed (trace s)).
Proof.
  intros Hreach.
  pose proof (accounting_reachable _ _ Hreach) as (_ & _ & _ & Hperm & Hnodup).
  split; [done|].
  assert (Hnd : NoDup (whereabouts s)) by (by rewrite Hperm).
  split; [done|].
  unfold whereabouts in Hnd.
  apply NoDup_app in Hnd as (_ & _ & Hnd).
  apply NoDup_app in Hnd as (_ & _ & Hnd).
  by apply NoDup_app in Hnd as (_ & _ & Hnd).
Qed.

Lemma completion_at_most_once_witness :
  whereabouts after_one_cycle = [1%nat] /\
  submitted (trace after_one_cycle) = [1%nat] /\
  NoDup (completed (trace after_one_cycle)).
Proof.
  split; [done|]. split; [done|].
  apply (completion_at_most_once false after_one_cycle).
  exists one_cycle. vm_compute. reflexivity.
Defined.

(** X18. When [shutdown()] has set [quit] while the dispatcher thread is
    at the head of its loop, holding the lock or waiting on the
    condition, the thread returns with its next move and does not call
    [eio_poll()], also when [shouldPoll] is set and requests are ready:
    [quit] is tested first. [shutdown()] then resets [thr] and [quit],
    and whatever was ready in the engine is still there, not dispatched,
    with its context still allocated. (Nothing is said of a thread that
    had left the head of the loop for [eio_poll()] before [quit] was
    set.) *)
Theorem quit_stops_dispatching (not_threadsafe : bool) (s : System) :
  quit (globals s) = true ->
  thr (globals s) = Some AtLoop ->
  exists s',
    exec not_threadsafe DoThread s = Some s' /\
    thr (globals s') = Some Returned /\
    heap s' = heap s /\ engine s' = engine s /\ asyncs s' = asyncs s /\
    trace s' = trace s /\
    exec not_threadsafe DoThread s' = None /\
    exists s'',
      exec not_threadsafe DoShutdownJoined s' = Some s'' /\
      thr (globals s'') = None /\ quit (globals s'') = false /\
      shouldPoll (globals s'') = shouldPoll (globals s) /\
      heap s'' = heap s /\ engine s'' = engine s /\ asyncs s'' = asyncs s /\
      trace s'' = trace s.
Proof.
  intros Hq Hthr.
  destruct s as [[sp th q] h e a tr]. cbn in Hq, Hthr. subst q th.
  eexists. split; [reflexivity|].
  split; [done|]. split; [done|]. split; [done|]. split; [done|]. split; [done|].
  split; [done|]. eexists. split; [reflexivity|]. done.
Qed.

Lemma quit_stops_dispatching_witness :
  exists s,
    run false ready_at_shutdown system0 = Some s /\
    shouldPoll (globals s) = true /\
    length (ready (engine s)) = 1%nat /\
    exists s' s'',
      exec false DoThread s = Some s' /\
      exec false DoShutdownJoined s' = Some s'' /\
      thr (globals s'') = None /\
      engine s'' = engine s /\ heap s'' = heap s /\ asyncs s'' = asyncs s.
Proof.
  eexists. split; [vm_compute; reflexivity|]. split; [done|]. split; [done|].
  match goal with |- context [engine _ = engine ?s] =>
    destruct (quit_stops_dispatching false s eq_refl eq_refl)
      as (s' & Hmove & _ & _ & _ & _ & _ & _ & s'' & Hjoin & Hthr & _ & _ & Hh & He & Ha & _)
  end.
  exists s', s''. done.
Defined.

(** X19. Nothing ever clears [shouldPoll]: in any run, once it is set it
    stays set, through [shutdown()] and the next [init()] too; and from
    then on a dispatcher thread at the head of its loop does not wait on
    the condition, it goes to [eio_poll()], unless told to quit. *)
Theorem shouldPoll_never_cleared (not_threadsafe : bool) (labels : list Label)
    (s s' : System) :
  run not_threadsafe labels s = Some s' ->
  shouldPoll (globals s) = true ->
  shouldPoll (globals s') = true /\
  (quit (globals s') = false -> threadMain (globals s') AtLoop = Some Polling).
Proof.
  intros Hrun Hset.
  assert (Hset' : shouldPoll (globals s') = true).
  { revert s Hrun Hset. induction labels as [|label labels IH]; intros s Hrun Hset.
    - by injection Hrun as <-.
    - cbn [run] in Hrun.
      destruct (exec not_threadsafe label s) as [s1|] eqn:Hexec; [|done].
      eapply IH; [exact Hrun|]. by eapply shouldPoll_stays_set. }
  split; [done|]. intros Hq. unfold threadMain. by rewrite Hq, Hset'.
Qed.

Lemma shouldPoll_never_cleared_witness :
  shouldPoll (globals after_one_cycle) = true /\
  threadMain (globals after_one_cycle) AtLoop = Some Polling.
Proof.
  destruct (shouldPoll_never_cleared false
              [DoThread; DoThread; DoReactor 0%nat; DoShutdownSignal; DoThread;
               DoShutdownJoined]
              {| globals := {| shouldPoll := true; thr := Some AtLoop; quit := false |};
                 heap := {[ 0%nat := mkData 0 5%nat (Some (UserExecute 0)) ]};
                 engine := {| pending := [];
                              ready := [mk_eio_req 1 EIO_CUSTOM 0 0];
                              next_handle := 2 |};
                 asyncs := [];
                 trace := [Submitted 0 1 5%nat;
                           Ran (WorkerThread 0) (Execution (UserExecute 0) 1)] |}
              after_one_cycle) as [Hset Hpoll];
    [vm_compute; reflexivity|done|].
  split; [exact Hset|]. by apply Hpoll.
Defined.
End MultiLibeioFurther.

(** ** More on the generators and on waiting for the engine *)

(** X20. The two overloads of [ScalarMessage::generate] agree on one
    fragment: the one-payload overload throws exactly when the payload is
    longer than 2^32 - 1 bytes, and the fragment overload, given that
    payload as its only fragment, throws the same exception or else
    writes the same header bytes and the same two views. *)
Theorem ScalarMessage_generate_overloads_agree `{Host} (payload x y : StaticString) :
  (ScalarMessage.generate payload
   = inl (ArgumentException "Data size exceeds maximum size for scalar messages.")
   <-> 0xFFFFFFFF < len payload) /\
  ScalarMessage.generate_multi [payload] [x; y]
  = match ScalarMessage.generate payload with
    | inl e => inl e
    | inr (headerBuf, (header, body)) => inr (headerBuf, [header; body])
    end.
Proof.
  unfold ScalarMessage.generate, ScalarMessage.generate_multi.
  cbn [ScalarMessage.generate_loop].
  destruct (4294967295 <? len payload) eqn:Hlen.
  - apply N.ltb_lt in Hlen. done.
  - apply N.ltb_ge in Hlen. split; [split; [done|lia]|].
    rewrite N.add_0_l, !uint32_small by lia. done.
Qed.

Section MultiLibeioIdleFacts.
Import MultiLibeio.


End MultiLibeioIdleFacts.

(** ** passenger_native_support.c: splitting into a Hash *)

Section SplitByNull.
Import NativeSupport.

Lemma rb_str_substr_snoc data begin current c rest :
  begin <= current ->
  ndrop current data = c :: rest ->
  rb_str_substr data begin (current + 1 - begin)
  = rb_str_substr data begin (current - begin) ++ [c].
Proof.
  intros Hle Hrest. unfold rb_str_substr.
  replace (current + 1 - begin) with (current - begin + 1) by lia.
  rewrite ntake_add, <- ndrop_add. do 2 f_equal.
  replace (begin + (current - begin)) with current by lia.
  rewrite Hrest. done.
Qed.

Lemma ndrop_succ {A} (l : list A) n c rest :
  ndrop n l = c :: rest -> ndrop (n + 1) l = rest.
Proof. intros Hn. rewrite ndrop_add, Hn. done. Qed.

(** The two loops, by the fields of the bytes they go through: [run] is
    the part of the key or of the value that lies behind [current]. *)
Lemma split_loops data rest : forall begin current result,
  begin <= current ->
  ndrop current data = rest ->
  let run := rb_str_substr data begin (current - begin) in
  split_outer data rest begin current result
  = set_pairs result (pair_up (split_fields run rest)) /\
  forall key,
    split_inner data rest key begin current result
    = match split_fields run rest with
      | [] => result
      | value :: fields =>
          set_pairs (rb_hash_aset result key value) (pair_up fields)
      end.
Proof.
  induction rest as [|c rest IH]; intros begin current result Hle Hrest run.
  - done.
  - cbn [split_outer split_inner split_fields].
    pose proof (ndrop_succ _ _ _ _ Hrest) as Hnext.
    assert (Hempty : rb_str_substr data (current + 1) (current + 1 - (current + 1)) = []).
    { unfold rb_str_substr. by rewrite N.sub_diag. }
    case_decide as Hc.
    + destruct (IH (current + 1) (current + 1) result ltac:(lia) Hnext) as [_ Hinner].
      split.
      * rewrite Hinner, Hempty. cbn zeta.
        destruct (split_fields [] rest) as [|value fields] eqn:Hf; [done|].
        cbn [pair_up set_pairs foldl fst snd]. done.
      * intros key.
        destruct (IH (current + 1) (current + 1)
                    (rb_hash_aset result key
                       (rb_str_substr data begin (current - begin)))
                    ltac:(lia) Hnext) as [Houter _].
        rewrite Houter, Hempty. done.
    + destruct (IH begin (current + 1) result ltac:(lia) Hnext) as [Houter Hinner].
      rewrite (rb_str_substr_snoc data begin current c rest Hle Hrest)
        in Houter, Hinner.
      split; [exact Houter|exact Hinner].
Qed.

Lemma split_by_null_into_hash_fields data :
  split_by_null_into_hash data = set_pairs ∅ (pair_up (split_fields [] data)).
Proof.
  unfold split_by_null_into_hash.
  destruct (split_loops data data 0 0 ∅ ltac:(lia) eq_refl) as [Houter _].
  exact Houter.
Qed.

Lemma pair_up_flat_map {A} (pairs : list (A * A)) :
  pair_up (flat_map (fun kv => [kv.1; kv.2]) pairs) = pairs.
Proof.
  induction pairs as [|[k v] pairs IH]; [done|]. cbn. by rewrite IH.
Qed.

Lemma set_pairs_lookup pairs : forall hash key,
  set_pairs hash pairs !! key
  = match list_find (fun kv => kv.1 = key) (reverse pairs) with
    | Some (_, kv) => Some kv.2
    | None => hash !! key
    end.
Proof.
  induction pairs as [|[k v] pairs IH] using rev_ind; intros hash key; [done|].
  unfold set_pairs. rewrite foldl_app. cbn [foldl fst snd].
  rewrite reverse_app. cbn [reverse rev_append app list_find].
  change (rev_append [] [(k, v)]) with [(k, v)]. cbn [app list_find fst].
  unfold rb_hash_aset. destruct (decide (k = key)) as [->|Hne].
  - by rewrite lookup_insert_eq.
  - rewrite lookup_insert_ne by done.
    fold (set_pairs hash pairs). rewrite IH.
    destruct (list_find _ (reverse pairs)) as [[i p]|]; done.
Qed.
End SplitByNull.

(** X22. [split_by_null_into_hash] takes the NUL-terminated fields of the
    data two by two, as key and value, and sets them in order, a later
    value for the same key in place of the earlier one; a key whose value
    is not terminated, and what follows the last NUL, make no entry. *)
Theorem split_by_null_into_hash_pairs (data : list byte) :
  NativeSupport.split_by_null_into_hash data
  = set_pairs ∅ (pair_up (split_fields [] data)) /\
  forall key,
    NativeSupport.split_by_null_into_hash data !! key
    = match list_find (fun kv => kv.1 = key)
              (reverse (pair_up (split_fields [] data))) with
      | Some (_, kv) => Some kv.2
      | None => None
      end.
Proof.
  split; [apply split_by_null_into_hash_fields|].
  intros key. rewrite split_by_null_into_hash_fields, set_pairs_lookup.
  by destruct (list_find _ _) as [[i p]|].
Qed.

(** X23. Keys and values without a NUL in them, written out each with its
    NUL and split again, give back every pair; with the keys all
    different that is the Hash of the pairs, and what follows the last
    NUL changes nothing. *)
Theorem split_by_null_into_hash_round_trip (pairs : list (list byte * list byte))
    (tail : list byte) :
  Forall (fun kv => (NUL ∉ kv.1) /\ (NUL ∉ kv.2)) pairs ->
  NUL ∉ tail ->
  NativeSupport.split_by_null_into_hash (keys_and_values pairs ++ tail)
  = set_pairs ∅ pairs /\
  (NoDup (pairs.*1) ->
   NativeSupport.split_by_null_into_hash (keys_and_values pairs ++ tail)
   = list_to_map pairs).
Proof.
  intros Hnul Htail.
  assert (Hsplit : NativeSupport.split_by_null_into_hash (keys_and_values pairs ++ tail)
                   = set_pairs ∅ pairs).
  { rewrite split_by_null_into_hash_fields. unfold keys_and_values.
    rewrite split_fields_array_body, pair_up_flat_map; [done| |done].
    induction Hnul as [|[k v] pairs [Hk Hv] _ IH]; [done|].
    cbn. by repeat constructor. }
  split; [exact Hsplit|].
  intros Hnodup. rewrite Hsplit. apply map_eq. intros key.
  rewrite set_pairs_lookup, lookup_empty.
  destruct (list_find _ (reverse pairs)) as [[i [k v]]|] eqn:Hfind.
  - apply list_find_Some in Hfind as (Hi & Hk & _). cbn in Hk. subst k.
    symmetry. apply elem_of_list_to_map; [done|].
    apply elem_of_reverse. by eapply list_elem_of_lookup_2.
  - symmetry. apply not_elem_of_list_to_map. intros Hin.
    apply list_elem_of_fmap in Hin as ([k v] & -> & Hin).
    apply elem_of_reverse in Hin.
    eapply list_find_None in Hfind. rewrite Forall_forall in Hfind.
    by apply (Hfind _ Hin).
Qed.

Lemma split_by_null_into_hash_round_trip_witness :
  NativeSupport.split_by_null_into_hash
    [x61; NUL; x62; NUL; x63; NUL; x64; NUL; x65]
  = {[ [x61] := [x62]; [x63] := [x64] ]}.
Proof.
  destruct (split_by_null_into_hash_round_trip
              [([x61], [x62]); ([x63], [x64])] [x65]) as [_ Hmap].
  - repeat constructor; by apply (bool_decide_unpack _).
  - by apply (bool_decide_unpack _).
  - etransitivity; [apply Hmap|by vm_compute].
    repeat constructor; by apply (bool_decide_unpack _).
Defined.

(** ** passenger_native_support.c: what is left of a group to write *)

Section UpdateGroup.
Import NativeSupport.
Variable mem : Memory.

(** A vector whose bytes are all there. *)
Local Abbreviation whole := (fun vec : iovec => size (iovec_bytes mem vec) = iov_len vec).

Lemma iovec_total_app pre vecs :
  iovec_total (pre ++ vecs) = iovec_total pre + iovec_total vecs.
Proof.
  induction pre as [|vec pre IH]; [done|].
  cbn [app iovec_total foldr] in *. fold (iovec_total (pre ++ vecs)).
  fold (iovec_total pre). rewrite IH. lia.
Qed.

Lemma size_group_bytes vecs :
  Forall whole vecs -> size (group_bytes mem vecs) = iovec_total vecs.
Proof.
  induction 1 as [|vec vecs Hvec _ IH]; [done|].
  unfold group_bytes in *. cbn [map concat iovec_total foldr].
  fold (iovec_total vecs). rewrite size_app, IH, Hvec. done.
Qed.

(** The part of a vector that is left after its first bytes. *)
Lemma iovec_bytes_left vec left :
  whole vec -> left <= iov_len vec ->
  iovec_bytes mem {| iov_base := ptr_add (iov_base vec) (iov_len vec - left);
                     iov_len := left |}
  = ndrop (iov_len vec - left) (iovec_bytes mem vec).
Proof.
  intros Hvec Hleft. unfold iovec_bytes at 1. cbn [iov_base iov_len].
  rewrite (read_within mem (iov_base vec) (iovec_bytes mem vec));
    [|by rewrite Hvec|rewrite Hvec; lia].
  apply ntake_all. rewrite size_ndrop, Hvec. lia.
Qed.

Lemma update_loop_spec group bytes_written :
  count group = size (io_vectors group) ->
  count group < 2 ^ 32 ->
  iovec_total (io_vectors group) < 2 ^ 63 ->
  (0 <= bytes_written < 2 ^ 63)%Z ->
  forall vecs pre,
    io_vectors group = pre ++ vecs ->
    iovec_total pre <= Z.to_N bytes_written ->
    let skip := Z.to_N bytes_written - iovec_total pre in
    match update_loop group bytes_written vecs (size pre) (iovec_total pre) with
    | Some group' =>
        vecs <> [] /\ skip <= iovec_total vecs /\
        iovec_total (io_vectors group') = iovec_total vecs - skip /\
        count group' = size (io_vectors group') /\
        count group' <= count group /\
        total_size group' = (total_size group - bytes_written)%Z /\
        (Forall whole vecs ->
         Forall whole (io_vectors group') /\
         group_bytes mem (io_vectors group') = ndrop skip (group_bytes mem vecs))
    | None => vecs = [] \/ iovec_total vecs < skip
    end.
Proof.
  intros Hcount Hc32 Htotal Hbw.
  assert (Hcast : size_t bytes_written = Z.to_N bytes_written).
  { unfold size_t. rewrite Z.mod_small by lia. done. }
  induction vecs as [|vec vecs IH]; intros pre Hsplit Hpre skip.
  - cbn [update_loop]. destruct (size pre <? count group); by left.
  - cbn [update_loop].
    assert (Htot : iovec_total (io_vectors group)
                   = iovec_total pre + (iov_len vec + iovec_total vecs)).
    { rewrite Hsplit, iovec_total_app. done. }
    assert (Hsize : size (io_vectors group) = size pre + (1 + size vecs)).
    { rewrite Hsplit, size_app, size_cons. lia. }
    replace (size pre <? count group) with true by (symmetry; apply N.ltb_lt; lia).
    rewrite N.mod_small by lia. rewrite Hcast.
    assert (Hdrop : ndrop (size pre + 1) (io_vectors group) = vecs).
    { rewrite Hsplit, ndrop_app_ge by lia.
      replace (size pre + 1 - size pre) with 1 by lia. done. }
    assert (Hbytes : group_bytes mem (vec :: vecs)
                     = iovec_bytes mem vec ++ group_bytes mem vecs) by done.
    change (iovec_total (vec :: vecs)) with (iov_len vec + iovec_total vecs).
    destruct (iovec_total pre + iov_len vec =? Z.to_N bytes_written) eqn:Heq.
    + apply N.eqb_eq in Heq. cbn [io_vectors count total_size].
      rewrite Hdrop. unfold uint32. rewrite (N.mod_small (size pre + 1)) by lia.
      split; [done|]. split; [unfold skip; lia|].
      assert (Hcnt : (count group + 2 ^ 32 - (size pre + 1)) mod 2 ^ 32 = size vecs).
      { replace (count group + 2 ^ 32 - (size pre + 1))
          with (size vecs + 1 * 2 ^ 32) by lia.
        rewrite N.Div0.mod_add. apply N.mod_small. lia. }
      rewrite Hcnt.
      split; [unfold skip; lia|]. split; [done|]. split; [lia|]. split; [done|].
      intros [Hvec Hwhole]%Forall_cons. split; [done|].
      rewrite Hbytes, ndrop_app_ge by (rewrite Hvec; unfold skip; lia).
      rewrite Hvec. replace (skip - iov_len vec) with 0 by (unfold skip; lia). done.
    + apply N.eqb_neq in Heq.
      destruct (Z.to_N bytes_written <? iovec_total pre + iov_len vec) eqn:Hlt.
      * apply N.ltb_lt in Hlt. cbn [io_vectors count total_size].
        rewrite Hdrop.
        replace ((iovec_total pre + iov_len vec + 2 ^ 64 - Z.to_N bytes_written)
                 mod 2 ^ 64) with (iov_len vec - skip).
        2:{ replace (iovec_total pre + iov_len vec + 2 ^ 64 - Z.to_N bytes_written)
              with (iov_len vec - skip + 1 * 2 ^ 64) by (unfold skip; lia).
            rewrite N.Div0.mod_add. symmetry. apply N.mod_small. lia. }
        split; [done|]. split; [unfold skip; lia|]. split.
        { change (iovec_total (?v :: vecs)) with (iov_len v + iovec_total vecs).
          cbn [iov_len]. unfold skip. lia. }
        assert (Hcnt : (count group + 2 ^ 32 - size pre) mod 2 ^ 32 = size vecs + 1).
        { replace (count group + 2 ^ 32 - size pre)
            with (size vecs + 1 + 1 * 2 ^ 32) by lia.
          rewrite N.Div0.mod_add. apply N.mod_small. lia. }
        rewrite Hcnt, size_cons.
        split; [done|]. split; [lia|]. split; [done|].
        intros [Hvec Hwhole]%Forall_cons.
        assert (Hleft : iovec_bytes mem
                  {| iov_base := ptr_add (iov_base vec)
                                   (iov_len vec - (iov_len vec - skip));
                     iov_len := iov_len vec - skip |}
                = ndrop skip (iovec_bytes mem vec)).
        { rewrite iovec_bytes_left by (done || lia). f_equal. unfold skip. lia. }
        split.
        { apply Forall_cons. split; [|done].
          rewrite Hleft, size_ndrop, Hvec. done. }
        change (group_bytes mem (?v :: vecs))
          with (iovec_bytes mem v ++ group_bytes mem vecs).
        rewrite Hleft, ndrop_app_le by (rewrite Hvec; unfold skip; lia). done.
      * apply N.ltb_ge in Hlt.
        assert (Hnext : iovec_total (pre ++ [vec]) = iovec_total pre + iov_len vec).
        { rewrite iovec_total_app. cbn. lia. }
        specialize (IH (pre ++ [vec])).
        rewrite size_app, Hnext in IH. change (size [vec]) with 1 in IH.
        unfold uint32. rewrite (N.mod_small (size pre + 1)) by lia.
        specialize (IH ltac:(by rewrite <- app_assoc) ltac:(lia)).
        cbv zeta in IH.
        destruct (update_loop group bytes_written vecs _ _) as [group'|].
        -- destruct IH as (Hne & Hle & Ht & Hc & Hcle & Hs & Hmem).
           split; [done|]. split; [unfold skip; lia|].
           split; [rewrite Ht; unfold skip; lia|].
           split; [done|]. split; [done|]. split; [done|].
           intros [Hvec Hwhole]%Forall_cons.
           destruct (Hmem Hwhole) as [Hw Hb]. split; [done|].
           rewrite Hb, Hbytes, ndrop_app_ge by (rewrite Hvec; unfold skip; lia).
           rewrite Hvec. f_equal. unfold skip. lia.
        -- right. destruct IH as [->|IH].
           ++ change (iovec_total []) with 0. unfold skip. lia.
           ++ unfold skip. lia.
Qed.
End UpdateGroup.

(** X24. [update_group_written_info] under the guard of its caller, fewer
    bytes written than the group holds: it does not raise, and the group
    it leaves spans exactly the bytes that were not written, in order,
    with [count] and [total_size] in step with its vectors. *)
Theorem update_group_written_info_leaves_the_rest (mem : Memory)
    (group : NativeSupport.IOVectorGroup) (bytes_written : Z) :
  group_wf group ->
  Forall (fun vec => size (iovec_bytes mem vec) = NativeSupport.iov_len vec)
    (NativeSupport.io_vectors group) ->
  (0 <= bytes_written < NativeSupport.total_size group)%Z ->
  exists group',
    NativeSupport.update_group_written_info group bytes_written = Some group' /\
    group_wf group' /\
    Forall (fun vec => size (iovec_bytes mem vec) = NativeSupport.iov_len vec)
      (NativeSupport.io_vectors group') /\
    group_bytes mem (NativeSupport.io_vectors group')
    = ndrop (Z.to_N bytes_written) (group_bytes mem (NativeSupport.io_vectors group)) /\
    NativeSupport.total_size group'
    = (NativeSupport.total_size group - bytes_written)%Z /\
    (0 < NativeSupport.total_size group')%Z.
Proof.
  intros (Hcount & Hc32 & Hsize & Htotal) Hwhole Hbw.
  pose proof (update_loop_spec mem group bytes_written Hcount Hc32 Htotal
                ltac:(lia) (NativeSupport.io_vectors group) [] eq_refl) as Hloop.
  change (size []) with 0 in Hloop. change (iovec_total []) with 0 in Hloop.
  specialize (Hloop ltac:(lia)). cbv zeta in Hloop. rewrite N.sub_0_r in Hloop.
  unfold NativeSupport.update_group_written_info.
  destruct (NativeSupport.update_loop _ _ _ _ _) as [group'|].
  - destruct Hloop as (_ & Hle & Ht & Hc & Hcle & Hs & Hmem).
    destruct (Hmem Hwhole) as [Hw Hb].
    exists group'. split; [done|]. split.
    { unfold group_wf. rewrite Hs, Ht, Hsize. repeat split; try (done || lia). }
    split; [done|]. split; [done|]. split; [done|]. lia.
  - exfalso. destruct Hloop as [Hnil|Hlt]; [|lia].
    rewrite Hnil in Hsize. cbn in Hsize. lia.
Qed.

Lemma update_group_written_info_leaves_the_rest_witness :
  exists group',
    NativeSupport.update_group_written_info sample_group 3 = Some group' /\
    NativeSupport.io_vectors group'
    = [NativeSupport.mk_iovec (mkPtr (Data 2) 1) 4] /\
    group_bytes sample_memory (NativeSupport.io_vectors group')
    = [x65; x6c; x6c; x6f].
Proof.
  destruct (update_group_written_info_leaves_the_rest sample_memory sample_group 3)
    as (group' & Hupdate & _ & _ & Hbytes & _).
  - unfold group_wf. by vm_compute.
  - by repeat constructor.
  - by vm_compute.
  - exists group'. split; [exact Hupdate|]. split; [|exact Hbytes].
    vm_compute in Hupdate. by injection Hupdate as <-.
Defined.

(** X25. For any count of bytes written that is not negative,
    [update_group_written_info] raises exactly when the group has no
    vector or holds fewer bytes than were written; when every byte of
    the group was written it leaves a group of no bytes. *)
Theorem update_group_written_info_raises (group : NativeSupport.IOVectorGroup)
    (bytes_written : Z) :
  group_wf group ->
  (0 <= bytes_written < 2 ^ 63)%Z ->
  (NativeSupport.update_group_written_info group bytes_written = None <->
   NativeSupport.io_vectors group = [] \/
   (NativeSupport.total_size group < bytes_written)%Z) /\
  (forall group',
     NativeSupport.update_group_written_info group bytes_written = Some group' ->
     group_wf group' /\
     NativeSupport.total_size group'
     = (NativeSupport.total_size group - bytes_written)%Z).
Proof.
  intros (Hcount & Hc32 & Hsize & Htotal) Hbw.
  pose proof (update_loop_spec (fun _ => []) group bytes_written Hcount Hc32 Htotal
                Hbw (NativeSupport.io_vectors group) [] eq_refl) as Hloop.
  change (size []) with 0 in Hloop. change (iovec_total []) with 0 in Hloop.
  specialize (Hloop ltac:(lia)). cbv zeta in Hloop. rewrite N.sub_0_r in Hloop.
  unfold NativeSupport.update_group_written_info.
  destruct (NativeSupport.update_loop _ _ _ _ _) as [group'|].
  - destruct Hloop as (Hne & Hle & Ht & Hc & Hcle & Hs & _). split.
    + split; [done|]. intros [Hnil|Hlt]; [done|lia].
    + intros g [= <-]. split; [|done].
      unfold group_wf. rewrite Hs, Ht, Hsize. repeat split; try (done || lia).
  - split; [|done]. split; [intros _|done].
    destruct Hloop as [Hnil|Hlt]; [by left|right; lia].
Qed.

Lemma update_group_written_info_raises_witness :
  NativeSupport.update_group_written_info sample_group 8 = None /\
  exists group',
    NativeSupport.update_group_written_info sample_group 7 = Some group' /\
    NativeSupport.total_size group' = 0%Z.
Proof.
  destruct (update_group_written_info_raises sample_group 8) as [Hraise _];
    [unfold group_wf; by vm_compute|lia|].
  split; [apply Hraise; right; by vm_compute|].
  destruct (update_group_written_info_raises sample_group 7) as [_ Hrest];
    [unfold group_wf; by vm_compute|lia|].
  eexists. split; [vm_compute; reflexivity|].
  by apply Hrest.
Defined.


(** ** passenger_native_support.c: writing everything *)

Section WritevGroups.
Import NativeSupport.

Lemma uint32_add_idemp a b : uint32 (uint32 a + b) = uint32 (a + b).
Proof. unfold uint32. by rewrite N.Div0.add_mod_idemp_l. Qed.

Lemma uint32_add_idemp_r a b : uint32 (a + uint32 b) = uint32 (a + b).
Proof. unfold uint32. by rewrite N.Div0.add_mod_idemp_r. Qed.

Lemma uint32_lt n : uint32 n < 2 ^ 32.
Proof. by apply N.mod_upper_bound. Qed.

Lemma count_components_wraps arrays : forall acc,
  acc < 2 ^ 32 ->
  fold_left (fun total_components (components : list iovec) =>
               uint32 (total_components + uint32 (size components))) arrays acc
  = uint32 (acc + size (concat arrays)).
Proof.
  induction arrays as [|components arrays IH]; intros acc Hacc; cbn [fold_left concat].
  - change (size []) with 0. rewrite N.add_0_r. symmetry. by apply uint32_small.
  - rewrite IH by apply uint32_lt.
    rewrite uint32_add_idemp_r, uint32_add_idemp, size_app. f_equal. lia.
Qed.

Lemma count_components_size arrays :
  size (concat arrays) < 2 ^ 32 ->
  count_components arrays = size (concat arrays).
Proof.
  intros Hlt. unfold count_components.
  rewrite count_components_wraps by done. by apply uint32_small.
Qed.

Lemma distribute_concat arrays groups0 :
  distribute arrays groups0
  = foldl put {| groups := groups0; total := 0; group_offset := 0;
                 vector_offset := 0 |} (concat arrays).
Proof.
  unfold distribute. generalize (mkFill groups0 0 0 0).
  induction arrays as [|components arrays IH]; intros st; [done|].
  cbn [foldl concat]. by rewrite foldl_app, IH.
Qed.

Lemma iovec_total_snoc vecs vec :
  iovec_total (vecs ++ [vec]) = iovec_total vecs + iov_len vec.
Proof.
  induction vecs as [|v vecs IH]; cbn [app iovec_total foldr] in *; [lia|].
  fold (iovec_total (vecs ++ [vec])). fold (iovec_total vecs). rewrite IH. lia.
Qed.

Lemma sum_replicate k n : foldr N.add 0 (replicate k n) = N.of_nat k * n.
Proof. induction k as [|k IH]; cbn [replicate foldr]; [lia|]. rewrite IH. lia. Qed.

Lemma map_replicate {A B} (f : A -> B) k x :
  map f (replicate k x) = replicate k (f x).
Proof. induction k as [|k IH]; cbn [replicate map]; [done|]. by rewrite IH. Qed.

Lemma split_by_concat {A} sizes : forall l : list A,
  size l = foldr N.add 0 sizes -> concat (split_by sizes l) = l.
Proof.
  induction sizes as [|n sizes IH]; intros l Hsize; cbn [split_by concat foldr] in *.
  - symmetry. by apply size_0_nil.
  - rewrite IH by (rewrite size_ndrop; lia). apply ntake_ndrop.
Qed.

Lemma split_by_sizes {A} sizes : forall l : list A,
  size l = foldr N.add 0 sizes -> map size (split_by sizes l) = sizes.
Proof.
  induction sizes as [|n sizes IH]; intros l Hsize; cbn [split_by map foldr] in *;
    [done|].
  rewrite IH by (rewrite size_ndrop; lia). f_equal. rewrite size_ntake. lia.
Qed.

Lemma split_by_part {A} sizes : forall (l c : list A),
  c ∈ split_by sizes l -> exists pre post, l = pre ++ c ++ post.
Proof.
  induction sizes as [|n sizes IH]; intros l c Hc; cbn [split_by] in Hc.
  - by apply elem_of_nil in Hc.
  - apply elem_of_cons in Hc as [->|Hc].
    + exists [], (ndrop n l). cbn [app]. symmetry. apply ntake_ndrop.
    + destruct (IH _ _ Hc) as (pre & post & Hl).
      exists (ntake n l ++ pre), post.
      rewrite <- app_assoc, <- Hl. symmetry. apply ntake_ndrop.
Qed.

Variable junk : iovec.

(** A group of which the first vectors have been written. *)
Local Abbreviation partial := (fun (filled : list iovec) (n : N) =>
  {| io_vectors := filled ++ replicate (N.to_nat (n - size filled)) junk;
     count := n;
     total_size := Z.of_N (iovec_total filled) |}).

Lemma new_group_partial n : n < 2 ^ 32 -> new_group junk n = partial [] n.
Proof.
  intros Hn. unfold new_group. rewrite uint32_small by done.
  change (size []) with 0. by rewrite N.sub_0_r.
Qed.

Lemma partial_full vecs : partial vecs (size vecs) = group_of vecs.
Proof. unfold group_of. by rewrite N.sub_diag, app_nil_r. Qed.

(** The vectors [strs] fill up the group at [group_offset]. *)
Lemma put_fills strs : forall before after filled n sum,
  n < 2 ^ 32 ->
  size before < 2 ^ 32 - 1 ->
  size filled + size strs = n ->
  strs <> [] ->
  foldl put {| groups := before ++ partial filled n :: after; total := sum;
               group_offset := size before; vector_offset := size filled |} strs
  = {| groups := before ++ group_of (filled ++ strs) :: after;
       total := uint32 (sum + iovec_total strs);
       group_offset := size before + 1; vector_offset := 0 |}.
Proof.
  induction strs as [|str strs IH]; intros before after filled n sum Hn Hbefore Hsize Hne;
    [done|].
  rewrite size_cons in Hsize. cbn [foldl].
  assert (Hput : put {| groups := before ++ partial filled n :: after; total := sum;
                        group_offset := size before; vector_offset := size filled |} str
          = if size filled + 1 =? n then
              {| groups := before ++ partial (filled ++ [str]) n :: after;
                 total := uint32 (sum + iov_len str);
                 group_offset := size before + 1; vector_offset := 0 |}
            else
              {| groups := before ++ partial (filled ++ [str]) n :: after;
                 total := uint32 (sum + iov_len str);
                 group_offset := size before;
                 vector_offset := size (filled ++ [str]) |}).
  { unfold put. cbn [groups total group_offset vector_offset].
    assert (Hb : N.to_nat (size before) = (length before + 0)%nat)
      by (unfold size; lia).
    assert (Hf : N.to_nat (size filled) = (length filled + 0)%nat)
      by (unfold size; lia).
    rewrite Hb, Hf, alter_app_r. cbn [alter list_alter].
    rewrite lookup_app_r by lia.
    replace (length before + 0 - length before)%nat with 0%nat by lia.
    cbn [lookup list_lookup io_vectors count total_size].
    rewrite insert_app_r.
    replace (N.to_nat (n - size filled))
      with (S (N.to_nat (n - size (filled ++ [str]))))
      by (rewrite size_app; unfold size in *; cbn [length]; lia).
    cbn [replicate insert list_insert].
    rewrite iovec_total_snoc, N2Z.inj_add, uint32_add_idemp_r.
    rewrite (uint32_small (size filled + 1)) by lia.
    rewrite (uint32_small (size before + 1)) by lia.
    rewrite <- app_assoc. cbn [app].
    destruct (size filled + 1 =? n); [done|].
    by rewrite size_app. }
  rewrite Hput. destruct (size filled + 1 =? n) eqn:Hfull.
  - apply N.eqb_eq in Hfull.
    assert (strs = []) as -> by (apply size_0_nil; lia).
    cbn [foldl]. replace n with (size (filled ++ [str]))
      by (rewrite size_app; change (size [str]) with 1; lia).
    rewrite partial_full.
    change (iovec_total [str]) with (iov_len str + 0). by rewrite N.add_0_r.
  - apply N.eqb_neq in Hfull.
    rewrite (IH before after (filled ++ [str]) n); try done.
    + rewrite <- app_assoc. cbn [app]. f_equal.
      rewrite uint32_add_idemp.
      change (iovec_total (str :: strs)) with (iov_len str + iovec_total strs).
      f_equal. lia.
    + rewrite size_app. change (size [str]) with 1. lia.
    + intros ->. rewrite size_nil in Hsize. lia.
Qed.

Lemma put_distributes sizes : forall before strs sum,
  Forall (fun n => 0 < n < 2 ^ 32) sizes ->
  size before + size sizes < 2 ^ 32 ->
  size strs = foldr N.add 0 sizes ->
  sum < 2 ^ 32 ->
  foldl put {| groups := before ++ map (new_group junk) sizes; total := sum;
               group_offset := size before; vector_offset := 0 |} strs
  = {| groups := before ++ map group_of (split_by sizes strs);
       total := uint32 (sum + iovec_total strs);
       group_offset := size before + size sizes; vector_offset := 0 |}.
Proof.
  induction sizes as [|n sizes IH]; intros before strs sum Hsizes Hbefore Hsize Hsum.
  - cbn [foldr] in Hsize. apply size_0_nil in Hsize as ->.
    cbn [foldl map split_by]. change (iovec_total []) with 0.
    change (size (@nil N)) with 0. rewrite !N.add_0_r. by rewrite uint32_small.
  - apply Forall_cons in Hsizes as [Hn Hsizes]. cbn [foldr] in Hsize.
    rewrite size_cons in Hbefore.
    cbn [map split_by]. rewrite new_group_partial by lia.
    assert (Htake : size (ntake n strs) = n) by (rewrite size_ntake; lia).
    assert (Hdrop : size (ndrop n strs) = foldr N.add 0 sizes)
      by (rewrite size_ndrop; lia).
    assert (Hgen : forall strs1 strs2,
      size strs1 = n -> size strs2 = foldr N.add 0 sizes ->
      foldl put {| groups := before ++ partial [] n :: map (new_group junk) sizes;
                   total := sum; group_offset := size before; vector_offset := 0 |}
            (strs1 ++ strs2)
      = {| groups := before ++ group_of strs1 :: map group_of (split_by sizes strs2);
           total := uint32 (sum + iovec_total (strs1 ++ strs2));
           group_offset := size before + size (n :: sizes); vector_offset := 0 |}).
    { intros strs1 strs2 Hstrs1 Hstrs2. rewrite foldl_app.
      assert (Hfill :
        foldl put {| groups := before ++ partial [] n :: map (new_group junk) sizes;
                     total := sum; group_offset := size before; vector_offset := 0 |}
              strs1
        = {| groups := before ++ group_of strs1 :: map (new_group junk) sizes;
             total := uint32 (sum + iovec_total strs1);
             group_offset := size before + 1; vector_offset := 0 |}).
      { apply (put_fills strs1 before (map (new_group junk) sizes) [] n sum);
          try (done || lia).
        intros ->. rewrite size_nil in Hstrs1. lia. }
      rewrite Hfill.
      pose proof (IH (before ++ [group_of strs1]) strs2
                    (uint32 (sum + iovec_total strs1))) as Hrest.
      rewrite size_app in Hrest. change (size [_]) with 1 in Hrest.
      rewrite <- !app_assoc in Hrest. cbn [app] in Hrest.
      rewrite Hrest; try done.
      - rewrite uint32_add_idemp, size_cons. f_equal; [|lia].
        by rewrite <- N.add_assoc, <- iovec_total_app.
      - lia.
      - apply uint32_lt. }
    pose proof (Hgen (ntake n strs) (ndrop n strs) Htake Hdrop) as Hall.
    rewrite ntake_ndrop in Hall. exact Hall.
Qed.

Variable IOV_MAX : N.
Hypothesis IOV_MAX_pos : 0 < IOV_MAX.
Hypothesis IOV_MAX_small : IOV_MAX < 2 ^ 32.

Lemma group_sizes_bounds total :
  Forall (fun n => 0 < n <= IOV_MAX) (group_sizes IOV_MAX total).
Proof.
  unfold group_sizes. apply Forall_app. split.
  - apply Forall_replicate. lia.
  - destruct (total mod IOV_MAX =? 0) eqn:Hmod; [done|].
    apply N.eqb_neq in Hmod. apply Forall_singleton.
    pose proof (N.mod_upper_bound total IOV_MAX ltac:(lia)). cbv beta.
    generalize dependent (total mod IOV_MAX). intros; lia.
Qed.

(** Quotient and remainder of the number of components, as the proofs
    below use them. *)
Lemma div_mod_IOV_MAX total :
  total < 2 ^ 32 ->
  exists q r,
    total / IOV_MAX = q /\ total mod IOV_MAX = r /\
    total = IOV_MAX * q + r /\ r < IOV_MAX /\ q <= total /\
    (r <> 0 -> q < 2 ^ 31).
Proof.
  intros Htotal. exists (total / IOV_MAX), (total mod IOV_MAX).
  pose proof (N.div_mod total IOV_MAX ltac:(lia)) as Hdiv.
  pose proof (N.mod_upper_bound total IOV_MAX ltac:(lia)) as Hmod.
  generalize dependent (total mod IOV_MAX). generalize dependent (total / IOV_MAX).
  intros q r Hdiv Hr. repeat split; try done; nia.
Qed.

Lemma group_sizes_sum total : foldr N.add 0 (group_sizes IOV_MAX total) = total.
Proof.
  unfold group_sizes. rewrite foldr_app.
  assert (Hshift : forall l a, foldr N.add a l = foldr N.add 0 l + a).
  { induction l as [|x l IH]; intros a; cbn [foldr]; [lia|]. rewrite IH. lia. }
  rewrite Hshift, sum_replicate, N2Nat.id.
  pose proof (N.div_mod total IOV_MAX ltac:(lia)) as Hdiv.
  generalize dependent (total mod IOV_MAX). generalize dependent (total / IOV_MAX).
  intros q r Hdiv.
  destruct (r =? 0) eqn:Hzero; cbn [foldr].
  - apply N.eqb_eq in Hzero. lia.
  - lia.
Qed.

Lemma group_sizes_size total :
  size (group_sizes IOV_MAX total)
  = total / IOV_MAX + (if total mod IOV_MAX =? 0 then 0 else 1).
Proof.
  unfold group_sizes. rewrite size_app. unfold size at 1.
  rewrite length_replicate, N2Nat.id. by destruct (_ =? _).
Qed.

Lemma group_sizes_count total :
  0 < total < 2 ^ 32 -> 0 < size (group_sizes IOV_MAX total) < 2 ^ 32.
Proof.
  intros Htotal. rewrite group_sizes_size.
  destruct (div_mod_IOV_MAX total) as (q & r & -> & -> & Hdiv & Hr & Hq & Hq31); [lia|].
  destruct (r =? 0) eqn:Hzero.
  - apply N.eqb_eq in Hzero. nia.
  - apply N.eqb_neq in Hzero. specialize (Hq31 Hzero). lia.
Qed.

Lemma allocate_groups_sizes total :
  total < 2 ^ 32 ->
  allocate_groups IOV_MAX junk total = map (new_group junk) (group_sizes IOV_MAX total).
Proof.
  intros Htotal. unfold allocate_groups, group_sizes.
  destruct (div_mod_IOV_MAX total) as (q & r & -> & -> & Hdiv & Hr & Hq & Hq31); [lia|].
  rewrite map_app, map_replicate.
  destruct (r =? 0) eqn:Hzero.
  - rewrite uint32_small by lia. cbn [map]. by rewrite app_nil_r.
  - apply N.eqb_neq in Hzero. specialize (Hq31 Hzero).
    rewrite uint32_small by lia.
    replace (q + 1 - 1) with q by lia. done.
Qed.

Lemma distribute_chunks arrays :
  0 < size (concat arrays) < 2 ^ 32 ->
  distribute arrays (allocate_groups IOV_MAX junk (count_components arrays))
  = {| groups := map group_of
                   (split_by (group_sizes IOV_MAX (size (concat arrays))) (concat arrays));
       total := uint32 (iovec_total (concat arrays));
       group_offset := size (group_sizes IOV_MAX (size (concat arrays)));
       vector_offset := 0 |}.
Proof.
  intros Hsize. rewrite distribute_concat, count_components_size by lia.
  rewrite allocate_groups_sizes by lia.
  pose proof (put_distributes (group_sizes IOV_MAX (size (concat arrays))) []
                (concat arrays) 0) as Hput.
  change (size []) with 0 in Hput. cbn [app] in Hput.
  rewrite !N.add_0_l in Hput. apply Hput.
  - eapply Forall_impl; [apply group_sizes_bounds|]. intros n Hn. cbv beta in Hn. lia.
  - apply group_sizes_count. lia.
  - by rewrite group_sizes_sum.
  - done.
Qed.
End WritevGroups.

Section WritevLoop.
Import NativeSupport.
Variable mem : Memory.
Variable TRAP_BEG : bool.
Variable waits_on_old_errno : bool.

Local Abbreviation whole := (fun vec : iovec => size (iovec_bytes mem vec) = iov_len vec).

Lemma group_bytes_app vecs1 vecs2 :
  group_bytes mem (vecs1 ++ vecs2) = group_bytes mem vecs1 ++ group_bytes mem vecs2.
Proof. unfold group_bytes. by rewrite map_app, concat_app. Qed.

Lemma size_group_bytes_whole vecs :
  Forall whole vecs -> size (group_bytes mem vecs) = iovec_total vecs.
Proof.
  induction 1 as [|vec vecs Hvec _ IH]; [done|].
  change (group_bytes mem (vec :: vecs))
    with (iovec_bytes mem vec ++ group_bytes mem vecs).
  change (iovec_total (vec :: vecs)) with (iov_len vec + iovec_total vecs).
  by rewrite size_app, Hvec, IH.
Qed.

(** What [update_group_written_info] leaves when fewer bytes were written
    than the group holds. *)
Lemma update_group_rest group n :
  group_wf group ->
  Forall whole (io_vectors group) ->
  (Z.of_N n < total_size group)%Z ->
  exists group',
    update_group_written_info group (Z.of_N n) = Some group' /\
    group_wf group' /\
    Forall whole (io_vectors group') /\
    group_bytes mem (io_vectors group') = ndrop n (group_bytes mem (io_vectors group)) /\
    0 < count group' <= count group.
Proof.
  intros (Hcount & Hc32 & Hsize & Htotal) Hwhole Hn.
  pose proof (update_loop_spec mem group (Z.of_N n) Hcount Hc32 Htotal
                ltac:(lia) (io_vectors group) [] eq_refl) as Hloop.
  change (size []) with 0 in Hloop. change (iovec_total []) with 0 in Hloop.
  specialize (Hloop ltac:(lia)). cbv zeta in Hloop.
  rewrite N.sub_0_r, N2Z.id in Hloop.
  unfold update_group_written_info.
  destruct (update_loop _ _ _ _ _) as [group'|].
  - destruct Hloop as (_ & Hle & Ht & Hc & Hcle & Hs & Hmem).
    destruct (Hmem Hwhole) as [Hw Hb].
    exists group'. split; [done|]. split.
    { unfold group_wf. rewrite Hs, Ht, Hsize. repeat split; try (done || lia). }
    split; [done|]. split; [done|]. split; [|done].
    rewrite Hc. destruct (io_vectors group') as [|vec vecs].
    + change (iovec_total []) with 0 in Ht. lia.
    + rewrite size_cons. lia.
  - exfalso. destruct Hloop as [Hnil|Hlt]; [|lia].
    rewrite Hnil in Hsize. cbn in Hsize. lia.
Qed.

Lemma writev_group group n :
  group_wf group ->
  writev mem (io_vectors group) (count group) n
  = ntake n (group_bytes mem (io_vectors group)).
Proof.
  intros (Hcount & _). unfold writev.
  rewrite (ntake_all (count group) (io_vectors group)) by lia. done.
Qed.

Lemma ret_of_kept n :
  count_kept TRAP_BEG (Wrote n) -> ret_of TRAP_BEG n = Z.of_N n.
Proof.
  unfold count_kept, ret_of, int_of_VALUE. intros [->|Hn]; [done|].
  destruct TRAP_BEG; [done|]. rewrite Z.mod_small by lia. lia.
Qed.

(** The loop for one group, when the counts of bytes written reach [ret]
    as they are: what it writes is a prefix of the bytes of the group,
    all of them when the loop is left, and the only ways not to leave it
    are an error of [writev()] and no result yet. *)
Lemma write_group_spec results : forall group fd,
  Forall (count_kept TRAP_BEG) results ->
  group_wf group ->
  Forall whole (io_vectors group) ->
  0 < count group ->
  exists out results' bytes calls,
    write_group TRAP_BEG waits_on_old_errno mem group results fd
    = (out, results', {| written := written fd ++ bytes;
                         iovcnts := iovcnts fd ++ calls |}) /\
    Forall (count_kept TRAP_BEG) results' /\
    bytes `prefix_of` group_bytes mem (io_vectors group) /\
    Forall (fun iovcnt => 0 < iovcnt <= count group) calls /\
    (out = None \/ out = Some StillWriting \/ out = Some (Raises SystemCallError)) /\
    (out = None -> bytes = group_bytes mem (io_vectors group)).
Proof.
  induction results as [|ret results IH]; intros group fd Hkept Hwf Hwhole Hcount.
  - exists (Some StillWriting), [], [], []. cbn [write_group].
    rewrite !app_nil_r. destruct fd. split; [done|]. split; [done|].
    split; [apply prefix_nil|]. split; [done|]. split; [by right; left|done].
  - apply Forall_cons in Hkept as [Hret Hkept].
    cbn [write_group]. destruct ret as [n| |].
    + rewrite writev_group by done. rewrite (ret_of_kept n Hret).
      replace (Z.of_N n =? -1)%Z with false by (symmetry; apply Z.eqb_neq; lia).
      destruct (Z.of_N n <? total_size group)%Z eqn:Hlt.
      * apply Z.ltb_lt in Hlt.
        destruct (update_group_rest group n Hwf Hwhole Hlt)
          as (group' & -> & Hwf' & Hwhole' & Hbytes & Hcount').
        destruct (IH group'
                    {| written := written fd
                                  ++ ntake n (group_bytes mem (io_vectors group));
                       iovcnts := iovcnts fd ++ [count group] |}
                    Hkept Hwf' Hwhole' ltac:(lia))
          as (out & results' & bytes & calls & -> & Hkept' & Hprefix & Hcalls
              & Hout & Hdone).
        cbn [written iovcnts].
        exists out, results', (ntake n (group_bytes mem (io_vectors group)) ++ bytes),
          (count group :: calls).
        rewrite <- !app_assoc. split; [done|]. split; [done|]. split.
        { rewrite <- (ntake_ndrop n (group_bytes mem (io_vectors group))) at 2.
          apply prefix_app. by rewrite <- Hbytes. }
        split.
        { apply Forall_cons. split; [lia|].
          eapply Forall_impl; [exact Hcalls|]. intros c Hc. cbv beta in Hc. lia. }
        split; [done|]. intros Hnone. rewrite (Hdone Hnone), Hbytes.
        apply ntake_ndrop.
      * apply Z.ltb_ge in Hlt.
        exists None, results, (group_bytes mem (io_vectors group)), [count group].
        destruct Hwf as (_ & _ & Hsize & _).
        rewrite ntake_all by (rewrite size_group_bytes_whole by done; lia).
        split; [done|]. split; [done|]. split; [done|].
        split; [|by split; [left|]].
        apply Forall_singleton. lia.
    + destruct (IH group {| written := written fd;
                            iovcnts := iovcnts fd ++ [count group] |}
                  Hkept Hwf Hwhole Hcount)
        as (out & results' & bytes & calls & -> & Hkept' & Hprefix & Hcalls
            & Hout & Hdone).
      cbn [written iovcnts].
      exists out, results', bytes, (count group :: calls).
      rewrite <- !app_assoc. split; [done|]. split; [done|]. split; [done|].
      split; [|done]. apply Forall_cons. split; [lia|done].
    + exists (Some (Raises SystemCallError)), results, [], [count group].
      rewrite app_nil_r. split; [done|]. split; [done|]. split; [apply prefix_nil|].
      split; [apply Forall_singleton; lia|]. split; [by right; right|done].
Qed.

(** The loop over the groups, for groups that hold the given runs of
    vectors, none of them empty nor longer than [limit]. *)
Lemma write_groups_spec limit runs : forall results fd,
  Forall (count_kept TRAP_BEG) results ->
  Forall (fun vecs => group_wf (group_of vecs) /\ Forall whole vecs /\
                      0 < size vecs <= limit) runs ->
  exists out results' bytes calls,
    write_groups TRAP_BEG waits_on_old_errno mem (map group_of runs) results fd
    = (out, results', {| written := written fd ++ bytes;
                         iovcnts := iovcnts fd ++ calls |}) /\
    bytes `prefix_of` group_bytes mem (concat runs) /\
    Forall (fun iovcnt => 0 < iovcnt <= limit) calls /\
    (out = None \/ out = Some StillWriting \/ out = Some (Raises SystemCallError)) /\
    (out = None -> bytes = group_bytes mem (concat runs)).
Proof.
  induction runs as [|vecs runs IH]; intros results fd Hkept Hruns.
  - exists None, results, [], []. cbn [map write_groups].
    rewrite !app_nil_r. destruct fd. split; [done|]. split; [done|].
    split; [done|]. split; [by left|done].
  - apply Forall_cons in Hruns as [(Hwf & Hwhole & Hsize) Hruns].
    cbn [map write_groups concat]. rewrite group_bytes_app.
    destruct (write_group_spec results (group_of vecs) fd Hkept Hwf Hwhole
                ltac:(cbn [group_of count]; lia))
      as (out & results' & bytes & calls & -> & Hkept' & Hprefix & Hcalls
          & Hout & Hdone).
    cbn [group_of io_vectors count] in Hprefix, Hcalls, Hdone.
    assert (Hlimit : Forall (fun iovcnt => 0 < iovcnt <= limit) calls).
    { eapply Forall_impl; [exact Hcalls|]. intros c Hc. cbv beta in Hc. lia. }
    destruct Hout as [->|Hstop].
    + rewrite (Hdone eq_refl).
      destruct (IH results' {| written := written fd ++ group_bytes mem vecs;
                               iovcnts := iovcnts fd ++ calls |} Hkept' Hruns)
        as (out & results'' & bytes' & calls' & -> & Hprefix' & Hcalls' & Hout & Hdone').
      cbn [written iovcnts].
      exists out, results'', (group_bytes mem vecs ++ bytes'), (calls ++ calls').
      rewrite <- !app_assoc. split; [done|]. split; [by apply prefix_app|].
      split; [by apply Forall_app|]. split; [done|].
      intros Hnone. by rewrite (Hdone' Hnone).
    + exists out, results', bytes, calls.
      split; [by destruct Hstop as [->| ->]|].
      split; [by apply prefix_app_r|]. split; [done|].
      split; [by right|]. intros ->. by destruct Hstop.
Qed.

(** Every call of [writev()] writes all it is given: one call for each
    group. *)
Lemma write_groups_all runs : forall results fd,
  Forall (Forall whole) runs ->
  Forall (fun vecs => iovec_total vecs < 2 ^ 31) runs ->
  write_groups TRAP_BEG waits_on_old_errno mem (map group_of runs)
    (writes_all runs ++ results) fd
  = (None, results, {| written := written fd ++ group_bytes mem (concat runs);
                       iovcnts := iovcnts fd ++ map size runs |}).
Proof.
  induction runs as [|vecs runs IH]; intros results fd Hwhole Hsmall.
  - cbn [map write_groups writes_all concat app]. rewrite !app_nil_r. by destruct fd.
  - apply Forall_cons in Hwhole as [Hvecs Hwhole].
    apply Forall_cons in Hsmall as [Hvec Hsmall].
    assert (Hall : writev mem vecs (size vecs) (iovec_total vecs)
                   = group_bytes mem vecs).
    { unfold writev. rewrite (ntake_all (size vecs) vecs) by lia.
      apply ntake_all. fold (iovec_bytes mem). fold (group_bytes mem vecs).
      rewrite size_group_bytes_whole by done. lia. }
    cbn [map write_groups writes_all concat app write_group].
    fold (writes_all runs). cbn [group_of total_size io_vectors count].
    rewrite (ret_of_kept (iovec_total vecs)) by (by right).
    replace (Z.of_N (iovec_total vecs) =? -1)%Z with false
      by (symmetry; apply Z.eqb_neq; lia).
    rewrite Z.ltb_irrefl, Hall, IH by done. cbn [written iovcnts].
    by rewrite group_bytes_app, <- !app_assoc.
Qed.
End WritevLoop.

(** The runs [f_generic_writev] cuts the components into make groups in
    good order. *)
Lemma runs_fit (IOV_MAX : N) (mem : Memory) (components : list NativeSupport.iovec) :
  0 < IOV_MAX < 2 ^ 32 ->
  iovec_total components < 2 ^ 63 ->
  Forall (fun vec => size (iovec_bytes mem vec) = NativeSupport.iov_len vec) components ->
  Forall (fun vecs =>
            group_wf (group_of vecs) /\
            Forall (fun vec => size (iovec_bytes mem vec) = NativeSupport.iov_len vec)
              vecs /\
            0 < size vecs <= IOV_MAX)
    (split_by (group_sizes IOV_MAX (size components)) components).
Proof.
  intros [Hpos Hsmall] Htotal Hwhole.
  pose proof (split_by_sizes (group_sizes IOV_MAX (size components)) components
                ltac:(by rewrite group_sizes_sum)) as Hsizes.
  pose proof (group_sizes_bounds IOV_MAX Hpos Hsmall (size components)) as Hbounds.
  rewrite <- Hsizes in Hbounds. apply Forall_map in Hbounds.
  apply Forall_forall. intros vecs Hvecs.
  rewrite Forall_forall in Hbounds. specialize (Hbounds vecs Hvecs). cbv beta in Hbounds.
  destruct (split_by_part _ _ _ Hvecs) as (pre & post & Hsplit).
  rewrite Hsplit, !iovec_total_app in Htotal.
  rewrite Hsplit in Hwhole.
  apply Forall_app in Hwhole as [_ [Hwhole _]%Forall_app].
  split; [|done].
  unfold group_wf, group_of. cbn [NativeSupport.io_vectors NativeSupport.count
                                   NativeSupport.total_size].
  repeat split; lia.
Qed.

(** X26. The groups [f_generic_writev] makes: with at least one component
    and fewer than 2^32, the vectors of the groups are, in order, the
    components of all the arrays in order; every group but the last holds
    [IOV_MAX] of them and the last what is left, so no group is empty or
    longer than [IOV_MAX]; every [total_size] is the summed length of the
    vectors of its group, and [total_size] of the function is the summed
    length of all, as an [unsigned int]. *)
Theorem f_generic_writev_groups (IOV_MAX : N) (junk : NativeSupport.iovec)
    (array_of_components : list (list NativeSupport.iovec)) :
  0 < IOV_MAX < 2 ^ 32 ->
  0 < size (concat array_of_components) < 2 ^ 32 ->
  let components := concat array_of_components in
  let filled :=
    NativeSupport.distribute array_of_components
      (NativeSupport.allocate_groups IOV_MAX junk
         (NativeSupport.count_components array_of_components)) in
  concat (map NativeSupport.io_vectors (NativeSupport.groups filled)) = components /\
  map NativeSupport.count (NativeSupport.groups filled)
  = replicate (N.to_nat (size components / IOV_MAX)) IOV_MAX
    ++ (if size components mod IOV_MAX =? 0 then [] else [size components mod IOV_MAX]) /\
  Forall (fun group =>
            NativeSupport.count group = size (NativeSupport.io_vectors group) /\
            0 < NativeSupport.count group <= IOV_MAX /\
            NativeSupport.total_size group
            = Z.of_N (iovec_total (NativeSupport.io_vectors group)))
    (NativeSupport.groups filled) /\
  NativeSupport.total filled = uint32 (iovec_total components) /\
  NativeSupport.group_offset filled = size (NativeSupport.groups filled) /\
  NativeSupport.vector_offset filled = 0.
Proof.
  intros [Hpos Hsmall] Hsize components filled. subst filled.
  rewrite (distribute_chunks junk IOV_MAX Hpos Hsmall) by done.
  fold components. cbn [NativeSupport.groups NativeSupport.total
                          NativeSupport.group_offset NativeSupport.vector_offset].
  pose proof (group_sizes_sum IOV_MAX Hpos Hsmall (size components)) as Hsum.
  pose proof (split_by_sizes (group_sizes IOV_MAX (size components)) components
                ltac:(done)) as Hsizes.
  set (runs := split_by (group_sizes IOV_MAX (size components)) components) in *.
  assert (Hvectors : map NativeSupport.io_vectors (map group_of runs) = runs).
  { rewrite map_map. apply map_id. }
  assert (Hcounts : map NativeSupport.count (map group_of runs) = map size runs).
  { by rewrite map_map. }
  split; [rewrite Hvectors; by apply split_by_concat|].
  split; [by rewrite Hcounts, Hsizes|].
  split; [|split; [done|split; [|done]]].
  - apply Forall_map. cbn [group_of NativeSupport.io_vectors NativeSupport.count
                             NativeSupport.total_size].
    pose proof (group_sizes_bounds IOV_MAX Hpos Hsmall (size components)) as Hbounds.
    rewrite <- Hsizes in Hbounds. apply Forall_map in Hbounds.
    eapply Forall_impl; [exact Hbounds|]. intros vecs Hvecs. cbv beta in Hvecs.
    done.
  - rewrite <- Hsizes. unfold size. by rewrite !length_map.
Qed.

Lemma f_generic_writev_groups_witness :
  let filled :=
    NativeSupport.distribute [take 2 sample_components; drop 2 sample_components]
      (NativeSupport.allocate_groups 2 (NativeSupport.mk_iovec (mkPtr (Data 9) 0) 0)
         (NativeSupport.count_components
            [take 2 sample_components; drop 2 sample_components])) in
  concat (map NativeSupport.io_vectors (NativeSupport.groups filled))
  = sample_components /\
  map NativeSupport.count (NativeSupport.groups filled) = [2; 2; 1].
Proof.
  pose proof (f_generic_writev_groups 2 (NativeSupport.mk_iovec (mkPtr (Data 9) 0) 0)
                [take 2 sample_components; drop 2 sample_components]
                ltac:(lia) ltac:(vm_compute; split; reflexivity)) as Hgroups.
  cbv zeta in Hgroups. cbv zeta. destruct Hgroups as (Hvectors & Hcounts & _).
  split.
  - etransitivity; [exact Hvectors|reflexivity].
  - etransitivity; [exact Hcounts|by vm_compute].
Defined.

(** X27. [f_generic_writev], and with it [writev], [writev2] and
    [writev3], as long as the count of bytes of every call of [writev()]
    reaches [ret] as it is (with [TRAP_BEG] defined that is every count,
    without it every count below 2^31, which the cast to [int] keeps):
    the bytes written to the file descriptor are at every end of the
    function a prefix of the bytes of the components of all the arrays in
    order; when the function returns, they are all of them and the value
    is the summed length as an [unsigned int]; no call of [writev()] is
    given more than [IOV_MAX] vectors or none; the RuntimeError of
    [update_group_written_info] is not raised; the ArgumentError is
    raised before anything is written; [NUM2INT(0)] is returned only when
    there is no component. *)
Theorem f_generic_writev_writes_in_order (IOV_MAX SSIZE_MAX : N)
    (junk : NativeSupport.iovec) (TRAP_BEG waits_on_old_errno : bool) (mem : Memory)
    (array_of_components : list (list NativeSupport.iovec))
    (results : list NativeSupport.writev_result) :
  0 < IOV_MAX < 2 ^ 32 ->
  size (concat array_of_components) < 2 ^ 32 ->
  iovec_total (concat array_of_components) < 2 ^ 63 ->
  Forall (fun vec => size (iovec_bytes mem vec) = NativeSupport.iov_len vec)
    (concat array_of_components) ->
  Forall (count_kept TRAP_BEG) results ->
  let components := concat array_of_components in
  let result :=
    NativeSupport.f_generic_writev IOV_MAX SSIZE_MAX junk TRAP_BEG waits_on_old_errno
      mem array_of_components results in
  NativeSupport.written result.2 `prefix_of` group_bytes mem components /\
  Forall (fun iovcnt => 0 < iovcnt <= IOV_MAX) (NativeSupport.iovcnts result.2) /\
  match result.1 with
  | NativeSupport.Returns total_size =>
      NativeSupport.written result.2 = group_bytes mem components /\
      total_size = uint32 (iovec_total components)
  | NativeSupport.ReturnsNUM2INT0 =>
      components = [] /\ NativeSupport.iovcnts result.2 = []
  | NativeSupport.Raises NativeSupport.ArgError =>
      NativeSupport.written result.2 = [] /\ NativeSupport.iovcnts result.2 = [] /\
      SSIZE_MAX < uint32 (iovec_total components)
  | NativeSupport.Raises NativeSupport.SystemCallError => True
  | NativeSupport.Raises NativeSupport.RuntimeError => False
  | NativeSupport.StillWriting => True
  end.
Proof.
  intros [Hpos Hsmall] Hsize Htotal Hwhole Hkept components result. subst result.
  unfold NativeSupport.f_generic_writev.
  destruct (NativeSupport.count_components array_of_components =? 0) eqn:Hzero;
    rewrite count_components_size in Hzero by done.
  { apply N.eqb_eq, size_0_nil in Hzero. cbn [fst snd NativeSupport.written
                                               NativeSupport.iovcnts].
    split; [apply prefix_nil|]. done. }
  apply N.eqb_neq in Hzero.
  rewrite (distribute_chunks junk IOV_MAX Hpos Hsmall) by lia.
  fold components. cbn [NativeSupport.groups NativeSupport.total].
  destruct (SSIZE_MAX <? uint32 (iovec_total components)) eqn:Hmax.
  { apply N.ltb_lt in Hmax. cbn [fst snd NativeSupport.written NativeSupport.iovcnts].
    split; [apply prefix_nil|]. done. }
  destruct (write_groups_spec mem TRAP_BEG waits_on_old_errno IOV_MAX
              (split_by (group_sizes IOV_MAX (size components)) components) results
              {| NativeSupport.written := []; NativeSupport.iovcnts := [] |} Hkept
              (runs_fit IOV_MAX mem components (conj Hpos Hsmall) Htotal Hwhole))
    as (out & results' & bytes & calls & -> & Hprefix & Hcalls & Hout & Hdone).
  rewrite split_by_concat in Hprefix, Hdone by (by rewrite group_sizes_sum).
  cbn [NativeSupport.written NativeSupport.iovcnts app].
  destruct Hout as [->|[->| ->]]; cbn [fst snd NativeSupport.written
                                        NativeSupport.iovcnts].
  - split; [done|]. split; [done|]. split; [by apply Hdone|done].
  - done.
  - done.
Qed.

Lemma f_generic_writev_writes_in_order_witness :
  let result :=
    NativeSupport.f_writev2 2 (2 ^ 63 - 1) (NativeSupport.mk_iovec (mkPtr (Data 9) 0) 0)
      false false
      sample_memory (take 2 sample_components) (drop 2 sample_components)
      [NativeSupport.Wrote 3; NativeSupport.WaitWritable; NativeSupport.Wrote 4;
       NativeSupport.Wrote 2; NativeSupport.Wrote 5] in
  result.1 = NativeSupport.Returns 14 /\
  NativeSupport.iovcnts result.2 = [2; 1; 1; 2; 1] /\
  NativeSupport.written result.2 = group_bytes sample_memory sample_components.
Proof.
  pose proof (f_generic_writev_writes_in_order 2 (2 ^ 63 - 1)
                (NativeSupport.mk_iovec (mkPtr (Data 9) 0) 0) false false sample_memory
                [take 2 sample_components; drop 2 sample_components]
                [NativeSupport.Wrote 3; NativeSupport.WaitWritable;
                 NativeSupport.Wrote 4; NativeSupport.Wrote 2; NativeSupport.Wrote 5]
                ltac:(lia) ltac:(by vm_compute) ltac:(by vm_compute)
                ltac:(by repeat constructor)
                ltac:(repeat constructor; right; by vm_compute)) as Hwritten.
  cbv zeta in Hwritten. cbv zeta. unfold NativeSupport.f_writev2.
  destruct (NativeSupport.f_generic_writev _ _ _ _ _ _ _ _) as [out fd] eqn:Hresult.
  vm_compute in Hresult. injection Hresult as <- <-.
  destruct Hwritten as (_ & _ & Hall & _).
  split; [done|]. split; [done|]. exact Hall.
Defined.

(** Without [TRAP_BEG], a count of 2^31 bytes written reaches [ret] as
    -2^31: [update_group_written_info] is called with it and raises. *)
Example int_cast_of_count_raises (waits_on_old_errno : bool) (mem : Memory)
    (fd : NativeSupport.Fd) :
  (NativeSupport.write_group false waits_on_old_errno mem sample_group
     [NativeSupport.Wrote (2 ^ 31)] fd).1.1
  = Some (NativeSupport.Raises NativeSupport.RuntimeError) /\
  (NativeSupport.write_group true waits_on_old_errno mem sample_group
     [NativeSupport.Wrote (2 ^ 31)] fd).1.1
  = None.
Proof. split; lazy; reflexivity. Qed.

(** X28. When every call of [writev()] writes all it is given,
    [f_generic_writev] makes one call for each group, so as many as
    [IOV_MAX] goes into the number of components, rounded up; it writes
    the bytes of all the components in order and returns their summed
    length. *)
Theorem f_generic_writev_one_call_per_group (IOV_MAX SSIZE_MAX : N)
    (junk : NativeSupport.iovec) (TRAP_BEG waits_on_old_errno : bool) (mem : Memory)
    (array_of_components : list (list NativeSupport.iovec)) :
  0 < IOV_MAX < 2 ^ 32 ->
  0 < size (concat array_of_components) < 2 ^ 32 ->
  iovec_total (concat array_of_components) < 2 ^ 31 ->
  iovec_total (concat array_of_components) <= SSIZE_MAX ->
  Forall (fun vec => size (iovec_bytes mem vec) = NativeSupport.iov_len vec)
    (concat array_of_components) ->
  let components := concat array_of_components in
  let runs := split_by (group_sizes IOV_MAX (size components)) components in
  NativeSupport.f_generic_writev IOV_MAX SSIZE_MAX junk TRAP_BEG waits_on_old_errno
    mem array_of_components (writes_all runs)
  = (NativeSupport.Returns (iovec_total components),
     {| NativeSupport.written := group_bytes mem components;
        NativeSupport.iovcnts := group_sizes IOV_MAX (size components) |}) /\
  size (group_sizes IOV_MAX (size components))
  = size components / IOV_MAX + (if size components mod IOV_MAX =? 0 then 0 else 1).
Proof.
  intros [Hpos Hsmall] Hsize Htotal Hmax Hwhole components runs.
  split; [|apply group_sizes_size]. subst runs components.
  set (components := concat array_of_components) in *.
  set (runs := split_by (group_sizes IOV_MAX (size components)) components).
  unfold NativeSupport.f_generic_writev.
  rewrite (distribute_chunks junk IOV_MAX Hpos Hsmall) by done.
  rewrite count_components_size by (fold components; lia).
  fold components. fold runs.
  replace (size components =? 0) with false by (symmetry; apply N.eqb_neq; lia).
  cbn [NativeSupport.groups NativeSupport.total].
  rewrite uint32_small by lia.
  replace (SSIZE_MAX <? iovec_total components) with false
    by (symmetry; apply N.ltb_ge; lia).
  assert (Hruns : Forall (fun vecs =>
            group_wf (group_of vecs) /\
            Forall (fun vec => size (iovec_bytes mem vec) = NativeSupport.iov_len vec)
              vecs /\
            0 < size vecs <= IOV_MAX) runs)
    by (apply (runs_fit IOV_MAX mem components (conj Hpos Hsmall)); [lia|done]).
  rewrite <- (app_nil_r (writes_all runs)).
  rewrite write_groups_all.
  - cbn [NativeSupport.written NativeSupport.iovcnts app]. subst runs.
    rewrite split_by_concat, split_by_sizes by (by rewrite group_sizes_sum). done.
  - eapply Forall_impl; [exact Hruns|]. by intros vecs (_ & Hvecs & _).
  - apply Forall_forall. intros vecs Hvecs.
    destruct (split_by_part _ _ _ Hvecs) as (pre & post & Hsplit).
    rewrite Hsplit, !iovec_total_app in Htotal. lia.
Qed.

Lemma f_generic_writev_one_call_per_group_witness :
  NativeSupport.f_writev 2 (2 ^ 63 - 1) (NativeSupport.mk_iovec (mkPtr (Data 9) 0) 0)
    false true sample_memory sample_components
    [NativeSupport.Wrote 7; NativeSupport.Wrote 2; NativeSupport.Wrote 5]
  = (NativeSupport.Returns 14,
     {| NativeSupport.written := group_bytes sample_memory sample_components;
        NativeSupport.iovcnts := [2; 2; 1] |}).
Proof.
  pose proof (f_generic_writev_one_call_per_group 2 (2 ^ 63 - 1)
                (NativeSupport.mk_iovec (mkPtr (Data 9) 0) 0) false true sample_memory
                [sample_components]
                ltac:(lia) ltac:(vm_compute; split; reflexivity) ltac:(by vm_compute)
                ltac:(by vm_compute) ltac:(by repeat constructor)) as [Hcalls _].
  exact Hcalls.
Defined.


(** ** passenger_native_support.c: the stack of the detaching thread *)

(** X29. The stack size [detach_process] asks for, for a page size and a
    [PTHREAD_STACK_MIN] below 2^32: it is never below 96 KB nor below the
    minimum of the platform (128 KB where [PTHREAD_STACK_MIN] is not
    defined), and less than a page above the larger of the two. Where
    [PTHREAD_STACK_MIN] is defined and above 96 KB it is
    [PTHREAD_STACK_MIN] as it is, not rounded; in every other case it is
    a multiple of the page size. *)
Theorem detach_process_stack_size_bounds (PTHREAD_STACK_MIN : option N) (page_size : N) :
  0 < page_size < 2 ^ 32 ->
  default 0 PTHREAD_STACK_MIN < 2 ^ 32 ->
  let min_stack_size := default (128 * 1024) PTHREAD_STACK_MIN in
  let stack_size := NativeSupport.detach_process_stack_size PTHREAD_STACK_MIN page_size in
  96 * 1024 <= stack_size /\
  min_stack_size <= stack_size /\
  stack_size < N.max (96 * 1024) min_stack_size + page_size /\
  match PTHREAD_STACK_MIN with
  | Some min => if 96 * 1024 <? min then stack_size = min
                else stack_size mod page_size = 0
  | None => stack_size mod page_size = 0
  end.
Proof.
  intros Hpage Hmin min_stack_size stack_size. subst min_stack_size stack_size.
  assert (Hround : forall size, size < 2 ^ 33 ->
    let rounded := if negb (size mod page_size =? 0)
                   then (size - size mod page_size + page_size) mod 2 ^ 64
                   else size in
    size <= rounded < size + page_size /\ rounded mod page_size = 0).
  { intros size Hsize.
    pose proof (N.div_mod size page_size ltac:(lia)) as Hdiv.
    pose proof (N.mod_upper_bound size page_size ltac:(lia)) as Hmod.
    assert (Hsmall : size / page_size <= size)
      by (apply N.Div0.div_le_upper_bound; nia).
    destruct (size mod page_size =? 0) eqn:Hzero; cbn [negb]; cbv zeta.
    - apply N.eqb_eq in Hzero. split; [lia|done].
    - apply N.eqb_neq in Hzero.
      replace (size - size mod page_size + page_size)
        with ((size / page_size + 1) * page_size)
        by (generalize dependent (size mod page_size);
            generalize dependent (size / page_size); intros; nia).
      rewrite (N.mod_small _ (2 ^ 64))
        by (generalize dependent (size mod page_size);
            generalize dependent (size / page_size); intros; nia).
      split; [|apply N.Div0.mod_mul].
      generalize dependent (size mod page_size).
      generalize dependent (size / page_size). intros; nia. }
  unfold NativeSupport.detach_process_stack_size.
  destruct PTHREAD_STACK_MIN as [min|]; cbn [default from_option] in *;
    unfold id in *.
  - rewrite (N.mod_small min) by lia.
    change (negb (96 * 1024 =? 0)) with true. cbn [andb].
    destruct (96 * 1024 <? min) eqn:Hlt; cbn [negb].
    + apply N.ltb_lt in Hlt. lia.
    + apply N.ltb_ge in Hlt.
      destruct (Hround (96 * 1024) ltac:(lia)) as [Hbounds Hmultiple].
      cbv zeta in Hbounds, Hmultiple. lia.
  - change (negb (96 * 1024 =? 0) && (96 * 1024 <? 128 * 1024)) with true.
    cbn [negb]. destruct (Hround (128 * 1024) ltac:(lia)) as [Hbounds Hmultiple].
    cbv zeta in Hbounds, Hmultiple. lia.
Qed.

Lemma detach_process_stack_size_bounds_witness :
  NativeSupport.detach_process_stack_size (Some 16384) 65536 = 131072 /\
  NativeSupport.detach_process_stack_size (Some 16384) 65536 mod 65536 = 0.
Proof.
  pose proof (detach_process_stack_size_bounds (Some 16384) 65536
                ltac:(lia) ltac:(by vm_compute)) as Hbounds.
  cbv zeta in Hbounds. destruct Hbounds as (_ & _ & _ & Hmultiple).
  split; [by vm_compute|exact Hmultiple].
Defined.
